(** * A shallow embedding of the retrieval core of the reading assistant

    The development follows the TypeScript sources:
    - [src/lib/workerClient.ts]   : the task channel client ([WorkerClient]);
    - the RAG worker              : the in-memory vector index ([RagWorker]);
    - the parser worker           : the chunker ([ParserWorker]);
    - [src/services/ai.ts]        : the provider call with retry ([Ai]);
    - [src/services/db.ts]        : the embedding cache ([Db]);
    - the RAG service             : staleness validation and the pipeline ([Rag]).

    JavaScript numbers that are counters or lengths are integers ([Z], [N] or
    [nat]); numbers that carry measurements (vector components, scores,
    delays) are IEEE-754 binary64 values, for which the kernel's primitive
    [float] is used.  Mutable module or object state is threaded explicitly;
    calls made to the outside ([postMessage], promise settlement, [fetch],
    timers) are recorded in the state or in an event trace. *)

From Stdlib Require Import ZArith List Lia Ascii Floats.
From stdpp Require Import base gmap strings list pretty sorting.

Local Open Scope Z_scope.

(** ** The task channel client ([src/lib/workerClient.ts]) *)

Module WorkerClient.
Section client.
(** The payload of a message is arbitrary data ([any] in the source). *)
Context {Payload : Type}.

Record WorkerMessage := mkMessage {
  msg_id : string;
  msg_type : string;
  msg_payload : Payload
}.

Record WorkerResponse := mkResponse {
  res_id : string;
  res_type : string;
  res_payload : Payload;
  res_error : option string
}.

(** A pending request holds the two continuations of its promise and the
    handle of its timer.  The continuations are represented by the
    promise's entry in [settled] below; the timer by the delay it was armed
    with and by the message type its callback has captured. *)
Record PendingRequest := mkPending {
  req_type : string;
  req_timeout : Z
}.

Inductive Settlement :=
| Resolved (value : Payload)
| Rejected (message : string).

Record Options := mkOptions {
  opt_timeout : option Z;
  opt_maxConcurrent : option Z
}.

Record State := mkState {
  pending : gmap string PendingRequest;
  idCounter : N;
  defaultTimeout : Z;
  queue : list (string * Payload);
  inFlight : Z;
  maxConcurrent : Z;
  (** what the client has done to the outside world *)
  posted : list WorkerMessage;        (* [worker.postMessage], oldest first *)
  settled : gmap string Settlement;   (* the promise of each request id *)
  terminated : bool                   (* [worker.terminate()] was called *)
}.

Definition set_pending (f : gmap string PendingRequest → gmap string PendingRequest)
    (s : State) : State :=
  mkState (f (pending s)) (idCounter s) (defaultTimeout s) (queue s)
          (inFlight s) (maxConcurrent s) (posted s) (settled s) (terminated s).
Definition set_idCounter (n : N) (s : State) : State :=
  mkState (pending s) n (defaultTimeout s) (queue s)
          (inFlight s) (maxConcurrent s) (posted s) (settled s) (terminated s).
Definition set_queue (q : list (string * Payload)) (s : State) : State :=
  mkState (pending s) (idCounter s) (defaultTimeout s) q
          (inFlight s) (maxConcurrent s) (posted s) (settled s) (terminated s).
Definition set_inFlight (n : Z) (s : State) : State :=
  mkState (pending s) (idCounter s) (defaultTimeout s) (queue s)
          n (maxConcurrent s) (posted s) (settled s) (terminated s).
Definition set_settled (f : gmap string Settlement → gmap string Settlement)
    (s : State) : State :=
  mkState (pending s) (idCounter s) (defaultTimeout s) (queue s)
          (inFlight s) (maxConcurrent s) (posted s) (f (settled s)) (terminated s).
Definition set_terminated (b : bool) (s : State) : State :=
  mkState (pending s) (idCounter s) (defaultTimeout s) (queue s)
          (inFlight s) (maxConcurrent s) (posted s) (settled s) b.

(** [this.worker.postMessage(message)] *)
Definition postMessage (m : WorkerMessage) (s : State) : State :=
  mkState (pending s) (idCounter s) (defaultTimeout s) (queue s)
          (inFlight s) (maxConcurrent s) (posted s ++ [m]) (settled s) (terminated s).

(** [resolve(v)] or [reject(e)] on the promise of request [id]: a promise
    settles once, later calls have no effect. *)
Definition settle (id : string) (v : Settlement) : State → State :=
  set_settled (λ m, match m !! id with Some _ => m | None => <[id:=v]> m end).

(** [options?.timeout ?? 30000] and [options?.maxConcurrent ?? 10] *)
Definition new (options : option Options) : State :=
  {| pending := ∅;
     idCounter := 0%N;
     defaultTimeout := default 30000 (options ≫= opt_timeout);
     queue := [];
     inFlight := 0;
     maxConcurrent := default 10 (options ≫= opt_maxConcurrent);
     posted := [];
     settled := ∅;
     terminated := false |}.

Definition fire_id (n : N) : string := "fire_" +:+ pretty n.
Definition req_id (n now : N) : string := "req_" +:+ pretty n +:+ "_" +:+ pretty now.

(** [sendImmediate]: the id is [`fire_${++this.idCounter}`] *)
Definition sendImmediate (type : string) (payload : Payload) (s : State) : State :=
  let n := (idCounter s + 1)%N in
  let s := set_idCounter n s in
  let s := set_inFlight (inFlight s + 1) s in
  postMessage (mkMessage (fire_id n) type payload) s.

(** [processQueue]: the loop
    [while (queue.length > 0 && inFlight < maxConcurrent) sendImmediate(queue.shift())].
    Every iteration removes the head of the queue, so the loop is a
    recursion on the queue it starts with. *)
Fixpoint drain (q : list (string * Payload)) (s : State) : State :=
  match q with
  | [] => set_queue [] s
  | item :: rest =>
      if inFlight s <? maxConcurrent s
      then drain rest (sendImmediate (fst item) (snd item) (set_queue rest s))
      else set_queue q s
  end.

Definition processQueue (s : State) : State := drain (queue s) s.

(** [this.inFlight = Math.max(0, this.inFlight - 1)] *)
Definition release (s : State) : State :=
  set_inFlight (Z.max 0 (inFlight s - 1)) s.

(** The callback given to [setTimeout] by [request], for request [id] of
    message type [type]. *)
Definition timeout_callback (id type : string) (s : State) : State :=
  let s := set_pending (delete id) s in
  let s := release s in
  let s := processQueue s in
  settle id (Rejected ("Worker request timeout: " +:+ type)) s.

(** [request]: the executor of the promise runs at once.  [now] is the value
    of [Date.now()]; the result is the id under which the promise is known
    and the new state. *)
Definition request (type : string) (payload : Payload) (timeout : option Z) (now : N)
    (s : State) : string * State :=
  let n := (idCounter s + 1)%N in
  let s := set_idCounter n s in
  let id := req_id n now in
  let timeout := default (defaultTimeout s) timeout in
  let s := set_pending (insert id (mkPending type timeout)) s in
  let s := set_inFlight (inFlight s + 1) s in
  (id, postMessage (mkMessage id type payload) s).

(** [send] *)
Definition send (type : string) (payload : Payload) (s : State) : State :=
  if inFlight s <? maxConcurrent s
  then sendImmediate type payload s
  else set_queue (queue s ++ [(type, payload)]) s.

(** [getQueueStatus]: [{ inFlight, queued }] *)
Definition getQueueStatus (s : State) : Z * nat := (inFlight s, length (queue s)).

(** A string is truthy when it is not empty ([if (error)]). *)
Definition truthy (e : option string) : bool :=
  match e with
  | Some (String _ _) => true
  | _ => false
  end.

(** [worker.onmessage] *)
Definition onmessage (r : WorkerResponse) (s : State) : State :=
  match pending s !! res_id r with
  | None => processQueue (release s)
  | Some p =>
      (* clearTimeout(pending.timeout): the timer of [res_id r] is disarmed
         together with the removal of its entry *)
      let s := set_pending (delete (res_id r)) s in
      let s := release s in
      let s := processQueue s in
      if truthy (res_error r)
      then settle (res_id r) (Rejected (default "" (res_error r))) s
      else settle (res_id r) (Resolved (res_payload r)) s
  end.

(** Rejecting every pending request with the same error: the promises that
    are still unsettled get it. *)
Definition reject_all (message : string) (s : State) : State :=
  set_settled (λ m, m ∪ ((λ _, Rejected message) <$> pending s)) s.

(** [worker.onerror] *)
Definition onerror (s : State) : State :=
  let s := reject_all "Worker crashed" s in
  let s := set_pending (λ _, ∅) s in
  let s := set_inFlight 0 s in
  set_queue [] s.

(** [terminate] *)
Definition terminate (s : State) : State :=
  let s := reject_all "Worker terminated" s in
  let s := set_pending (λ _, ∅) s in
  let s := set_queue [] s in
  let s := set_inFlight 0 s in
  set_terminated true s.

(** What can happen to a client: its three methods are called, the worker
    answers or faults, or the timer of a request fires.  A timer is armed
    exactly while its request is pending (every path that removes the entry
    clears the timer, and the callback removes the entry itself). *)
Inductive Event :=
| CallSend (type : string) (payload : Payload)
| CallRequest (type : string) (payload : Payload) (timeout : option Z) (now : N)
| Response (r : WorkerResponse)
| TimerFires (id : string)
| WorkerError
| CallTerminate.

Definition step (e : Event) (s : State) : State :=
  match e with
  | CallSend type payload => send type payload s
  | CallRequest type payload timeout now => snd (request type payload timeout now s)
  | Response r => onmessage r s
  | TimerFires id =>
      match pending s !! id with
      | Some p => timeout_callback id (req_type p) s
      | None => s
      end
  | WorkerError => onerror s
  | CallTerminate => terminate s
  end.

Definition run (events : list Event) (s : State) : State :=
  foldl (λ s e, step e s) s events.

Inductive reachable (options : option Options) : State → Prop :=
| reachable_new : reachable options (new options)
| reachable_step s e : reachable options s → reachable options (step e s).

(** The fire-and-forget messages among posted ones, as (type, payload). *)
Definition is_fire (m : WorkerMessage) : bool :=
  match msg_id m with
  | String "f"%char (String "i"%char (String "r"%char (String "e"%char (String "_"%char _)))) => true
  | _ => false
  end.
Definition item_of (m : WorkerMessage) : string * Payload := (msg_type m, msg_payload m).
Definition fired (l : list WorkerMessage) : list (string * Payload) :=
  item_of <$> filter (λ m, is_fire m = true) l.

Definition sent (e : Event) : list (string * Payload) :=
  match e with
  | CallSend type payload => [(type, payload)]
  | _ => []
  end.

Definition is_reset (e : Event) : bool :=
  match e with
  | WorkerError | CallTerminate => true
  | _ => false
  end.

(** The messages [sendImmediate] posts for a run of items, when the id
    counter stands at [n]. *)
Fixpoint fire_msgs (n : N) (q : list (string * Payload)) : list WorkerMessage :=
  match q with
  | [] => []
  | item :: rest =>
      mkMessage (fire_id (n + 1)) (fst item) (snd item) :: fire_msgs (n + 1) rest
  end.

(** An event that leaves the request [id] alone: it is neither an answer to
    it, nor its timer, nor a fault or termination of the worker. *)
Definition quiet (id : string) (e : Event) : bool :=
  match e with
  | Response r => bool_decide (res_id r ≠ id)
  | TimerFires id' => bool_decide (id' ≠ id)
  | WorkerError | CallTerminate => false
  | CallSend _ _ | CallRequest _ _ _ _ => true
  end.

(** How many queued sends the capacity of [s] admits. *)
Definition admitted (s : State) (q : list (string * Payload)) : nat :=
  Nat.min (length q) (Z.to_nat (maxConcurrent s - inFlight s)).
(** The backpressure invariant. *)
Definition backpressure (s : State) : Prop :=
  queue s ≠ [] → ¬ inFlight s < maxConcurrent s.

(** The decimal rendering of a counter has no underscore, so the counter can
    be read back from a request id. *)
Fixpoint no_underscore (x : string) : Prop :=
  match x with
  | EmptyString => True
  | String c rest => c ≠ "_"%char ∧ no_underscore rest
  end.

(** Every id the client knows of was made by [request] from a counter value
    that has been used, and a pending request has an unsettled promise. *)
Definition ids_issued (s : State) : Prop :=
  ∀ id, is_Some (pending s !! id) ∨ is_Some (settled s !! id) →
    ∃ n now, id = req_id n now ∧ (n ≤ idCounter s)%N.

Definition pending_unsettled (s : State) : Prop :=
  ∀ id, is_Some (pending s !! id) → settled s !! id = None.
(** *** More of the client: what a response settles, and the ids it makes *)

(** What the promise of a request gets from a response: [if (error)
    pending.reject(new Error(error)) else pending.resolve(payload)]. *)
Definition outcome_of (r : WorkerResponse) : Settlement :=
  if truthy (res_error r) then Rejected (default "" (res_error r))
  else Resolved (res_payload r).

Definition is_request (e : Event) : bool :=
  match e with
  | CallRequest _ _ _ _ => true
  | _ => false
  end.

(** The id of [m] was made from the counter value [n], by [sendImmediate]
    or by [request]. *)
Definition made_from (m : WorkerMessage) (n : N) : Prop :=
  msg_id m = fire_id n ∨ ∃ now, msg_id m = req_id n now.

(** The ids of the posted messages come from counter values that grow. *)
Definition counters_grow (s : State) : Prop :=
  ∃ counters, Forall2 made_from (posted s) counters ∧
    StronglySorted N.lt counters ∧ Forall (λ n, (n ≤ idCounter s)%N) counters.
End client.
Arguments WorkerMessage : clear implicits.
Arguments WorkerResponse : clear implicits.
Arguments Settlement : clear implicits.
Arguments State : clear implicits.
Arguments Event : clear implicits.
End WorkerClient.

(** ** JavaScript built-ins used by the workers *)

Module JS.
(** [Math.fround]: the binary64 value nearest to [x] in binary32 (24 bits of
    precision, exponents below 128), as a store into a [Float32Array] rounds. *)
Definition fround (x : float) : float :=
  match Prim2SF x with
  | S754_finite s m e => SF2Prim (binary_round 24 128 s m e)
  | _ => x
  end.

(** [new Float32Array(n)] *)
Definition Float32Array_new (n : nat) : list float := replicate n 0%float.

(** [new Float32Array(array)] *)
Definition Float32Array_from (a : list float) : list float := fround <$> a.

(** [target.set(source, offset)] for a typed array [source]: the elements
    are copied as they are; a [RangeError] when they do not fit. *)
Definition TypedArray_set (target source : list float) (offset : nat)
    : option (list float) :=
  if (offset + length source <=? length target)%nat
  then Some (take offset target ++ source ++ drop (offset + length source) target)
  else None.

(** [target.set(source, offset)] for an array of numbers: each is rounded. *)
Definition Float32Array_set (target source : list float) (offset : nat)
    : option (list float) :=
  TypedArray_set target (fround <$> source) offset.

(** [a[i]] in arithmetic: a missing element reads as [undefined], which
    every arithmetic operation turns into NaN. *)
Definition get_number (a : list float) (i : nat) : float := default nan (a !! i).

(** [Array.prototype.sort(comparefn)].  The sort is stable, and the result
    is specified for a consistent comparison function only; any stable
    algorithm then gives the same array.  Insertion from the right is used
    here.  [comparefn x y > 0] puts [y] first; a NaN result counts as 0.
    For a comparison function that is not consistent, as [b.score - a.score]
    is when some scores are NaN and others are not, the standard leaves the
    order to the implementation, and the order computed here need not be
    the engine's: what is proved below about the order of a result assumes
    that no score is NaN, and without that only the length and the
    elements of the result are used, which are those of the input in every
    implementation. *)
Section sort.
Context {A : Type} (comparefn : A → A → float).

Definition goes_after (x y : A) : bool := (0 <? comparefn x y)%float.

Fixpoint sort_insert (x : A) (l : list A) : list A :=
  match l with
  | [] => [x]
  | y :: rest => if goes_after x y then y :: sort_insert x rest else x :: y :: rest
  end.

Fixpoint sort (l : list A) : list A :=
  match l with
  | [] => []
  | x :: rest => sort_insert x (sort rest)
  end.
End sort.

(** Sorting positions [0, 1, ...] of an array by a comparison function on
    what the array holds there. *)
Section sort_positions.
Context (comparefn : nat → nat → float).

(** [i] may stand before [j]: [j] need not go first, and if they tie then
    [i] is the earlier position. *)
Definition stands_before (i j : nat) : Prop :=
  goes_after comparefn i j = false ∧
  (goes_after comparefn j i = false → (i < j)%nat).

(** The comparison function is consistent on the positions in [l]. *)
Definition comparator_consistent (l : list nat) : Prop :=
  (∀ i j, i ∈ l → j ∈ l →
     goes_after comparefn i j = true → goes_after comparefn j i = false) ∧
  (∀ i j k, i ∈ l → j ∈ l → k ∈ l →
     goes_after comparefn i j = false → goes_after comparefn j k = false →
     goes_after comparefn i k = false).
End sort_positions.

(** [ToInt8], the conversion of a number stored into an [Int8Array]: NaN,
    the zeros and the infinities give 0; any other number is truncated
    towards zero and taken modulo 2^8 into [-128, 127]. *)
Definition ToInt8 (x : float) : Z :=
  match Prim2SF x with
  | S754_finite sign m e =>
      let magnitude := if 0 <=? e then Z.pos m * 2 ^ e else Z.pos m / 2 ^ (- e) in
      let int := if sign then - magnitude else magnitude in
      let int8bit := int mod 256 in
      if 128 <=? int8bit then int8bit - 256 else int8bit
  | _ => 0
  end.

(** [new Int8Array(array)] *)
Definition Int8Array_from (a : list float) : list Z := ToInt8 <$> a.

(** The number that an integer is. *)
Definition number_of_Z (z : Z) : float := SF2Prim (binary_normalize prec emax z 0 false).

(** [Array.from(int8Array)] *)
Definition Array_from_Int8Array (a : list Z) : list float := number_of_Z <$> a.

(** [a.slice(0, end)] for an integer [end]: a negative [end] counts from
    the end of the array. *)
Definition slice0 {A : Type} (a : list A) (end_ : Z) : list A :=
  let len := Z.of_nat (length a) in
  let final := if end_ <? 0 then Z.max (len + end_) 0 else Z.min end_ len in
  take (Z.to_nat final) a.

(** *** The order of the numbers

    The place of a number in the order of the floats: the comparisons of
    two numbers compare their places, sign class first, then exponent, then
    mantissa. *)
Definition SFkey (f : spec_float) : Z * Z * Z :=
  match f with
  | S754_nan => (0, 0, 0)
  | S754_infinity true => (-2, 0, 0)
  | S754_finite true m e => (-1, - e, - Z.pos m)
  | S754_zero _ => (0, 0, 0)
  | S754_finite false m e => (1, e, Z.pos m)
  | S754_infinity false => (2, 0, 0)
  end.

Definition key_compare (a b : Z * Z * Z) : comparison :=
  match a.1.1 ?= b.1.1 with
  | Eq => match a.1.2 ?= b.1.2 with
          | Eq => a.2 ?= b.2
          | c => c
          end
  | c => c
  end.

(** A rounded result that carries the sign [s]. *)
Definition signed_as (s : bool) (r : spec_float) : Prop :=
  match r with
  | S754_finite s' _ _ | S754_infinity s' => s' = s
  | _ => False
  end.
End JS.

(** ** The RAG worker: vector index and search *)

Module RagWorker.
Import JS.

(** The messages the worker distinguishes by [type], with the payload each
    handler reads; [Unknown] stands for any other type. *)
Inductive Request :=
| INDEX_CHUNK (chunkId content : string) (embedding : list float)
| SEARCH (queryEmbedding : list float) (topK : Z)
| CLEAR
| Unknown (type : string).

Record WorkerMessage := mkMessage {
  msg_id : string;
  msg_request : Request
}.

(** [{ id: ids[i], score }] *)
Record Scored := mkScored {
  scored_id : option string;
  score : float
}.

Inductive Payload :=
| Results (results : list Scored)
| Success
| Null.

Record Reply := mkReply {
  reply_id : string;
  reply_type : string;
  reply_payload : Payload;
  reply_error : option string
}.

(** The module-level variables [vectors], [ids], [dimension] and [count]. *)
Record State := mkState {
  vectors : option (list float);
  ids : list string;
  dimension : nat;
  count : nat
}.

Definition initial : State := mkState None [] 0 0.

Definition reply (id type : string) (payload : Payload) : Reply :=
  mkReply id type payload None.

Definition replyError (id message : string) : Reply :=
  mkReply id "ERROR" Null (Some message).

(** What the body of a handler comes to: it finishes, or it throws with the
    state as it is at that point. *)
Inductive Outcome :=
| Done (st : State) (replies : list Reply)
| Throw (st : State) (message : string).

(** The growth step of [INDEX_CHUNK]:
    [if (!vectors || count * dimension >= vectors.length)]. *)
Definition grow (st : State) : Outcome :=
  let newSize := (Nat.max 1000 (count st + 500) * dimension st)%nat in
  let newVectors := Float32Array_new newSize in
  match vectors st with
  | None => Done (mkState (Some newVectors) (ids st) (dimension st) (count st)) []
  | Some old =>
      if (length old <=? count st * dimension st)%nat
      then match TypedArray_set newVectors old 0 with
           | Some buffer => Done (mkState (Some buffer) (ids st) (dimension st) (count st)) []
           | None => Throw st "offset is out of bounds"
           end
      else Done st []
  end.

Definition index_chunk (id chunkId : string) (embedding : list float) (st : State)
    : Outcome :=
  let dim := length embedding in
  let st := if (dimension st =? 0)%nat
            then mkState (vectors st) (ids st) dim (count st) else st in
  if negb (dim =? dimension st)%nat
  then Done st [replyError id ("Dimension mismatch: expected " +:+ pretty (dimension st)
                               +:+ ", got " +:+ pretty dim)]
  else
    match grow st with
    | Throw st message => Throw st message
    | Done st _ =>
        match Float32Array_set (default [] (vectors st)) embedding
                (count st * dimension st) with
        | Some buffer =>
            Done (mkState (Some buffer) (ids st ++ [chunkId]) (dimension st) (S (count st))) []
        | None => Throw st "offset is out of bounds"
        end
    end.

(** The inner loop of [SEARCH] over [j], from [j] for [n] more rounds. *)
Fixpoint accumulate (query buffer : list float) (offset j n : nat)
    (dot normA normB : float) : float * float * float :=
  match n with
  | O => (dot, normA, normB)
  | S n' =>
      let a := get_number query j in
      let b := get_number buffer (offset + j) in
      accumulate query buffer offset (S j) n'
        (dot + a * b)%float (normA + a * a)%float (normB + b * b)%float
  end.

(** The float written [1e-8] in the source. *)
Definition epsilon : float := 0x1.5798ee2308c3ap-27%float.

Definition row_score (query buffer : list float) (dimension i : nat) : float :=
  let '(dot, normA, normB) :=
    accumulate query buffer (i * dimension) 0 dimension 0%float 0%float 0%float in
  (dot / (sqrt normA * sqrt normB + epsilon))%float.

(** The outer loop over [i], from [i] for [n] more rows. *)
Fixpoint score_rows (query buffer : list float) (dimension : nat) (ids : list string)
    (i n : nat) : list Scored :=
  match n with
  | O => []
  | S n' =>
      mkScored (ids !! i) (row_score query buffer dimension i)
        :: score_rows query buffer dimension ids (S i) n'
  end.

(** [(a, b) => b.score - a.score] *)
Definition by_score_desc (a b : Scored) : float := (score b - score a)%float.

Definition search (id : string) (queryEmbedding : list float) (topK : Z) (st : State)
    : Outcome :=
  match vectors st with
  | None => Done st [reply id "SEARCH_RESULT" (Results [])]
  | Some buffer =>
      if (count st =? 0)%nat
      then Done st [reply id "SEARCH_RESULT" (Results [])]
      else
        let query := Float32Array_from queryEmbedding in
        let scores := score_rows query buffer (dimension st) (ids st) 0 (count st) in
        let sorted := sort by_score_desc scores in
        Done st [reply id "SEARCH_RESULT" (Results (slice0 sorted topK))]
  end.

Definition clear (id : string) (st : State) : Outcome :=
  Done initial [reply id "CLEAR_COMPLETE" Success].

(** [ctx.onmessage]: the [switch] inside [try], and the [catch] that turns a
    throw into an error reply.  The result is the new state and the messages
    posted back. *)
Definition onmessage (m : WorkerMessage) (st : State) : State * list Reply :=
  let outcome :=
    match msg_request m with
    | INDEX_CHUNK chunkId content embedding => index_chunk (msg_id m) chunkId embedding st
    | SEARCH queryEmbedding topK => search (msg_id m) queryEmbedding topK st
    | CLEAR => clear (msg_id m) st
    | Unknown type => Done st [replyError (msg_id m) ("Unknown message type: " +:+ type)]
    end in
  match outcome with
  | Done st replies => (st, replies)
  | Throw st message =>
      (* replyError(id, err.message || 'Worker error') *)
      (st, [replyError (msg_id m)
              (match message with EmptyString => "Worker error" | _ => message end)])
  end.

(** Handling messages one after the other, collecting the replies. *)
Definition run (messages : list WorkerMessage) (st : State) : State * list Reply :=
  foldl (λ acc m, let '(st, replies) := onmessage m acc.1 in (st, acc.2 ++ replies))
        (st, []) messages.

Inductive reachable : State → Prop :=
| reachable_initial : reachable initial
| reachable_onmessage m st : reachable st → reachable (onmessage m st).1.

(** The buffer holds a whole number of rows, at least [count] of them, and
    there is one id per row. *)
Definition well_formed (st : State) : Prop :=
  length (ids st) = count st ∧
  match vectors st with
  | None => count st = 0%nat ∧ dimension st = 0%nat
  | Some buffer => ∃ rows, length buffer = (rows * dimension st)%nat ∧ (count st ≤ rows)%nat
  end.

(** Cosine similarity as the specification writes it:
    [dot(q, v) / (||q|| * ||v|| + 1e-8)], sums taken from left to right. *)
Definition dot (q v : list float) : float :=
  foldl (λ acc ab, (acc + ab.1 * ab.2)%float) 0%float (zip q v).
Definition norm (v : list float) : float :=
  sqrt (foldl (λ acc a, (acc + a * a)%float) 0%float v).
Definition cosine (q v : list float) : float :=
  (dot q v / (norm q * norm v + epsilon))%float.

(** Row [i] of the index. *)
Definition row (st : State) (i : nat) : list float :=
  take (dimension st) (drop (i * dimension st) (default [] (vectors st))).

(** No score is NaN ([x === x] holds of every number but NaN). *)
Definition no_NaN (scores : list float) : bool :=
  forallb (λ a, (a =? a)%float) scores.

(** Row [i] ranks before row [j] under the scores [s]: its score is not the
    smaller one, and on a tie it is the row inserted earlier. *)
Definition ranks_before (s : nat → float) (i j : nat) : Prop :=
  (s j <=? s i)%float = true ∧ ((s i =? s j)%float = true → (i < j)%nat).

(** The query as the loop over [j] reads it: the components 0 to
    [dimension - 1] of the array.  Components beyond them are not read, and
    a missing one reads as [undefined], which arithmetic turns into NaN. *)
Definition query_read (query : list float) (dimension : nat) : list float :=
  (λ j, get_number query j) <$> seq 0 dimension.

(** The postcondition of [SEARCH] as the specification words it, for one
    message: on an empty index the result is empty; otherwise it is the
    first [topK] pairs of id and score, the score of a row being the cosine
    of the query and the row with [1e-8] added to the denominator, in an
    order of the rows that is descending by score and keeps ties in
    insertion order. *)
Definition search_as_specified (st : State) (id : string) (queryEmbedding : list float)
    (topK : Z) : Prop :=
  let reply := (onmessage (mkMessage id (SEARCH queryEmbedding topK)) st).2 in
  let s := λ i, cosine (Float32Array_from queryEmbedding) (row st i) in
  let scored := λ i, mkScored (ids st !! i) (s i) in
  (count st = 0%nat → reply = [mkReply id "SEARCH_RESULT" (Results []) None]) ∧
  (count st ≠ 0%nat →
   ∃ order,
     order ≡ₚ seq 0 (count st) ∧ StronglySorted (ranks_before s) order ∧
     reply = [mkReply id "SEARCH_RESULT"
                (Results (take (Z.to_nat topK) (scored <$> order))) None]).
End RagWorker.

(** ** The parser worker: the chunker *)

Module ParserWorker.
(** A JavaScript string is its sequence of UTF-16 code units. *)
Abbreviation jsstring := (list N).

Definition literal (text : string) : jsstring :=
  (λ c, N_of_ascii c) <$> String.list_ascii_of_string text.

(** [`${n}`] for a non-negative integer *)
Definition decimal (n : N) : jsstring := literal (pretty n).

(** The class [\s] of regular expressions, which is also what [trim]
    removes: white space and line terminators. *)
Definition is_space (c : N) : bool :=
  ((9 <=? c) && (c <=? 13) || (c =? 32) || (c =? 160) || (c =? 5760)
   || (8192 <=? c) && (c <=? 8202) || (c =? 8232) || (c =? 8233)
   || (c =? 8239) || (c =? 8287) || (c =? 12288) || (c =? 65279))%N.

Definition space : N := 32.
Definition less_than : N := 60.
Definition greater_than : N := 62.

(** [.replace(/<[^>]*>/g, ' ')].  A match starts at a [<] and runs to the
    next [>]; [tag] holds, in reverse, what has been read since a [<] that
    is still waiting for its [>], and is given back unchanged when the text
    ends without one. *)
Fixpoint strip_tags_from (text : jsstring) (tag : option jsstring) : jsstring :=
  match text, tag with
  | [], None => []
  | [], Some opened => reverse opened
  | c :: rest, None =>
      if (c =? less_than)%N then strip_tags_from rest (Some [c])
      else c :: strip_tags_from rest None
  | c :: rest, Some opened =>
      if (c =? greater_than)%N then space :: strip_tags_from rest None
      else strip_tags_from rest (Some (c :: opened))
  end.

Definition strip_tags (text : jsstring) : jsstring := strip_tags_from text None.

(** [.replace(/\s+/g, ' ')]: [in_run] tells that the previous unit was
    white space, already replaced. *)
Fixpoint collapse_from (text : jsstring) (in_run : bool) : jsstring :=
  match text with
  | [] => []
  | c :: rest =>
      if is_space c
      then (if in_run then collapse_from rest true else space :: collapse_from rest true)
      else c :: collapse_from rest false
  end.

Definition collapse_spaces (text : jsstring) : jsstring := collapse_from text false.

Fixpoint trim_start (text : jsstring) : jsstring :=
  match text with
  | [] => []
  | c :: rest => if is_space c then trim_start rest else text
  end.

(** [.trim()] *)
Definition trim (text : jsstring) : jsstring :=
  reverse (trim_start (reverse (trim_start text))).

(** [text.slice(start, end)] for integers [start] and [end]. *)
Definition slice (text : jsstring) (start end_ : Z) : jsstring :=
  let len := Z.of_nat (length text) in
  let from := if start <? 0 then Z.max (len + start) 0 else Z.min start len in
  let to := if end_ <? 0 then Z.max (len + end_) 0 else Z.min end_ len in
  take (Z.to_nat (to - from)) (drop (Z.to_nat from) text).

(** [BookSection], which the worker calls [Chapter], and [TextChunk]
    ([src/types/core.ts]) *)
Record Chapter := mkChapter {
  chapter_id : jsstring;
  chapter_title : jsstring;
  chapter_body : jsstring
}.

Record TextChunk := mkChunk {
  chunk_id : jsstring;
  chapterId : jsstring;
  chapterTitle : jsstring;
  content : jsstring
}.

(** What a call comes to within a bound on the number of rounds of its
    loops: it has returned, it has thrown, or it is still running. *)
Inductive Result :=
| Returned (chunks : list TextChunk)
| Thrown (message : string)
| Running.

(** The cleaning of a chapter's body *)
Definition plain_text (chapter : Chapter) : jsstring :=
  trim (collapse_spaces (strip_tags (chapter_body chapter))).

(** The [while (start < plainText.length)] loop, for at most [fuel] rounds. *)
Fixpoint window_loop (fuel : nat) (chapter : Chapter) (plainText : jsstring)
    (chunkSize overlap : Z) (start : Z) (chunkIndex : N) (chunks : list TextChunk)
    : option (list TextChunk) :=
  match fuel with
  | O => None
  | S fuel =>
      if start <? Z.of_nat (length plainText)
      then
        let end_ := Z.min (start + chunkSize) (Z.of_nat (length plainText)) in
        let content := slice plainText start end_ in
        let chunks :=
          chunks ++ [mkChunk (chapter_id chapter ++ literal "-chunk-" ++ decimal chunkIndex)
                             (chapter_id chapter) (chapter_title chapter) content] in
        window_loop fuel chapter plainText chunkSize overlap
          (start + (chunkSize - overlap)) (chunkIndex + 1) chunks
      else Some chunks
  end.

(** The [for (const chapter of chapters)] loop *)
Fixpoint chapters_loop (fuel : nat) (chapters : list Chapter) (chunkSize overlap : Z)
    (chunks : list TextChunk) : Result :=
  match chapters with
  | [] => Returned chunks
  | chapter :: rest =>
      let plainText := plain_text chapter in
      if (length plainText <? 50)%nat
      then chapters_loop fuel rest chunkSize overlap chunks
      else
        match window_loop fuel chapter plainText chunkSize overlap 0 0 chunks with
        | Some chunks => chapters_loop fuel rest chunkSize overlap chunks
        | None => Running
        end
  end.

(** [chunkBookContent(chapters, chunkSize = 800, overlap = 100)] *)
Definition chunkBookContent (fuel : nat) (chapters : list Chapter)
    (chunkSize overlap : option Z) : Result :=
  chapters_loop fuel chapters (default 800 chunkSize) (default 100 overlap) [].

(** *** The chunks of a chapter, written out *)

(** Window [k] of a text: [chunkSize] units from [k * step] on, or what is
    left of the text there. *)
Definition window (text : jsstring) (chunkSize step : Z) (k : nat) : jsstring :=
  take (Z.to_nat chunkSize) (drop (k * Z.to_nat step) text).

(** The number of windows that start inside a text of length [len]. *)
Definition windows (len : nat) (step : Z) : nat :=
  Z.to_nat ((Z.of_nat len + step - 1) / step).

Definition chapter_chunks (chunkSize overlap : Z) (chapter : Chapter) : list TextChunk :=
  let text := plain_text chapter in
  if (length text <? 50)%nat then []
  else
    (λ k, mkChunk (chapter_id chapter ++ literal "-chunk-" ++ decimal (N.of_nat k))
                  (chapter_id chapter) (chapter_title chapter)
                  (window text chunkSize (chunkSize - overlap) k))
    <$> seq 0 (windows (length text) (chunkSize - overlap)).

(** The last [n] units of [first] are the first [n] units of [second]. *)
Definition overlaps_by (first second : jsstring) (n : nat) : Prop :=
  (n ≤ length first)%nat ∧ (n ≤ length second)%nat ∧
  drop (length first - n) first = take n second.

(** The overlap property in the words of the specification: two chunks that
    follow each other in a chapter overlap by [overlap] units, except
    possibly when the second is the last chunk of the chapter. *)
Definition overlap_all_but_last (chunks : list TextChunk) (overlap : nat) : Prop :=
  ∀ i first second third,
    chunks !! i = Some first → chunks !! S i = Some second →
    chunks !! S (S i) = Some third →
    chapterId first = chapterId second → chapterId second = chapterId third →
    overlaps_by (content first) (content second) overlap.

(** A call that ends in an error. *)
Definition rejected (result : Result) : Prop := ∃ message, result = Thrown message.

(** *** What cleaning leaves *)

(** No white-space unit is followed by another one. *)
Definition no_space_run (text : jsstring) : Prop :=
  ∀ pre c d post, text = pre ++ c :: d :: post → is_space c = true → is_space d = false.

(** The text neither starts nor ends with white space. *)
Definition trimmed (text : jsstring) : Prop :=
  (∀ c rest, text = c :: rest → is_space c = false) ∧
  (∀ pre c, text = pre ++ [c] → is_space c = false).

(** No tag is left: no [<] has a [>] anywhere after it. *)
Definition no_tag (text : jsstring) : Prop :=
  ∀ pre post, text = pre ++ less_than :: post → greater_than ∉ post.

(** The code unit of [-]. *)
Definition dash : N := 45.

(** *** [PARSE_TEXT] *)

(** The code unit of a line feed. *)
Definition newline : N := 10.

(** [text.split(/\n\n+/)]: the pieces between the runs of two or more line
    feeds.  [piece] holds, in reverse, what has been read of the piece at
    hand; [in_gap] tells that the units just read were such a run, which
    further line feeds prolong. *)
Fixpoint split_blank_lines_from (text piece : jsstring) (in_gap : bool) : list jsstring :=
  match text with
  | [] => [reverse piece]
  | c :: rest =>
      if in_gap && (c =? newline)%N then split_blank_lines_from rest [] true
      else
        match rest with
        | d :: rest' =>
            if (c =? newline)%N && (d =? newline)%N
            then reverse piece :: split_blank_lines_from rest' [] true
            else split_blank_lines_from rest (c :: piece) false
        | [] => split_blank_lines_from rest (c :: piece) false
        end
  end.

Definition split_blank_lines (text : jsstring) : list jsstring :=
  split_blank_lines_from text [] false.

(** The handler of [PARSE_TEXT]:
    [text.split(/\n\n+/).filter(p => p.trim().length > 0)] *)
Definition parse_text (text : jsstring) : list jsstring :=
  filter (λ p, trim p ≠ []) (split_blank_lines text).

(** No two line feeds follow each other. *)
Definition no_blank_line (text : jsstring) : Prop :=
  ∀ pre post, text ≠ pre ++ newline :: newline :: post.

(** What is left of a text without its white space. *)
Definition ink (text : jsstring) : jsstring := filter (λ c, is_space c = false) text.
End ParserWorker.

(** ** The provider call ([src/services/ai.ts]) *)

Module Ai.
(** What [await fetch(url, options)] comes to: a response with its status,
    or a rejection (the network failed). *)
Inductive FetchOutcome :=
| Responded (status : Z)
| Failed (error : string).

(** What the caller of [fetchWithRetry] gets. *)
Inductive Result :=
| Returns (status : Z)
| Throws (error : string).

(** What the function does on the way: attempt [i] of [fetch], and the
    waits. *)
Inductive Effect :=
| Fetch (attempt : nat)
| Sleep (delay : float).

(** [response.ok] *)
Definition ok (status : Z) : bool := (200 <=? status) && (status <=? 299).

(** [response.status >= 500 || response.status === 429] *)
Definition retried (status : Z) : bool := (500 <=? status) || (status =? 429).

(** [Math.pow(2, i)] *)
Definition pow2 (i : nat) : float := Nat.iter i (λ x, x * 2)%float 1%float.

(** [Math.pow(2, i) * 1000 + Math.random() * 1000], for the value [random]
    that [Math.random()] gives. *)
Definition backoff (i : nat) (random : float) : float :=
  (pow2 i * 1000 + random * 1000)%float.

(** The loop [for (let i = 0; i < maxRetries; i++)], from round [i] with
    [n] rounds to go.  [fetch i] is what attempt [i] comes to and [random i]
    what [Math.random()] gives in round [i]. *)
Fixpoint attempts (fetch : nat → FetchOutcome) (random : nat → float)
    (maxRetries i n : nat) (lastError : option string) : list Effect * Result :=
  match n with
  | O =>
      ([], Throws (default ("Fetch failed after " +:+ pretty maxRetries +:+ " retries")
                           lastError))
  | S n =>
      match fetch i with
      | Responded status =>
          if ok status then ([Fetch i], Returns status)
          else if retried status then
            let rest := attempts fetch random maxRetries (S i) n lastError in
            (Fetch i :: Sleep (backoff i (random i)) :: rest.1, rest.2)
          else ([Fetch i], Returns status)
      | Failed error =>
          let rest := attempts fetch random maxRetries (S i) n (Some error) in
          (Fetch i :: Sleep (backoff i (random i)) :: rest.1, rest.2)
      end
  end.

(** [fetchWithRetry(url, options, maxRetries = 3)] *)
Definition fetchWithRetry (fetch : nat → FetchOutcome) (random : nat → float)
    (maxRetries : option nat) : list Effect * Result :=
  attempts fetch random (default 3%nat maxRetries) 0 (default 3%nat maxRetries) None.

(** The attempts made, in order. *)
Definition fetches (effects : list Effect) : list nat :=
  omap (λ e, match e with Fetch i => Some i | Sleep _ => None end) effects.

(** *** The retry loop, attempt by attempt *)

(** Attempt [i] is followed by a wait and, if rounds are left, another
    attempt: the response is a server error or a rate limit, or the fetch
    itself failed. *)
Definition gives_up (fetch : nat → FetchOutcome) (i : nat) : bool :=
  match fetch i with
  | Responded status => negb (ok status) && retried status
  | Failed _ => true
  end.

(** What [lastError] holds after the given attempts. *)
Definition last_error (fetch : nat → FetchOutcome) (lastError : option string)
    (made : list nat) : option string :=
  foldl (λ acc i, match fetch i with Failed error => Some error | Responded _ => acc end)
        lastError made.

(** An attempt and the wait after it. *)
Definition retry_round (random : nat → float) (i : nat) : list Effect :=
  [Fetch i; Sleep (backoff i (random i))].

(** *** [cosineSimilarity] *)

(** One round of the loop over [i]: [a[i]] and [b[i]] are the components
    of the pair. *)
Definition cosine_step (acc : float * float * float) (ab : float * float)
    : float * float * float :=
  let '(dotProduct, normA, normB) := acc in
  (dotProduct + ab.1 * ab.2, normA + ab.1 * ab.1, normB + ab.2 * ab.2)%float.

(** [cosineSimilarity(a, b)] *)
Definition cosineSimilarity (a b : list float) : float :=
  if negb (length a =? length b)%nat then 0%float
  else
    let '(dotProduct, normA, normB) := foldl cosine_step (0, 0, 0)%float (zip a b) in
    (dotProduct / (sqrt normA * sqrt normB))%float.

(** A zero or NaN, as a specification float. *)
Definition zero_or_nan (x : spec_float) : Prop :=
  match x with
  | S754_zero _ | S754_nan => True
  | _ => False
  end.

(** *** [getBatchEmbeddings] *)

(** What a call comes to: the vectors, an [AppError] of code [API_ERROR]
    with its message and its [retryable] flag, any other error, or (within
    a bound on the rounds of the loop) nothing yet. *)
Inductive BatchResult :=
| BatchReturns (embeddings : list (list float))
| BatchApiError (message : string) (retryable : bool)
| BatchThrows (error : string)
| BatchRunning.

(** [t.slice(0, 8000)].  A text is the sequence of its UTF-16 code units,
    which is what [slice] counts: the first 8000 of them are kept. *)
Definition truncate (t : list N) : list N := take (Z.to_nat 8000) t.

(** The loop [for (let i = 0; i < texts.length; i += batchSizeLimit)], on
    the texts from [i] on.  [request] counts the calls of [fetchWithRetry];
    [fetch request] and [random request] are what its attempts and its
    calls of [Math.random()] come to, and [json request] is what
    [data.data.map(d => d.embedding)] gives for the response, or the error
    with which reading it fails.  The first component of the result lists
    the inputs of the requests made. *)
Fixpoint batch_requests (fuel : nat) (fetch : nat → nat → FetchOutcome)
    (random : nat → nat → float) (json : nat → string + list (list float))
    (batchSizeLimit request : nat) (remaining : list (list N))
    (results : list (list float)) : list (list (list N)) * BatchResult :=
  match remaining, fuel with
  | [], _ => ([], BatchReturns results)
  | _, O => ([], BatchRunning)
  | _, S fuel =>
      let batch := truncate <$> take batchSizeLimit remaining in
      match (fetchWithRetry (fetch request) (random request) None).2 with
      | Throws error => ([batch], BatchThrows error)
      | Returns status =>
          if negb (ok status)
          then ([batch],
                BatchApiError ("Embedding API Error: " +:+ pretty status)
                              ((status =? 429) || (500 <=? status)))
          else
            match json request with
            | inl error => ([batch], BatchThrows error)
            | inr embeddings =>
                let rest := batch_requests fuel fetch random json batchSizeLimit
                              (S request) (drop batchSizeLimit remaining)
                              (results ++ embeddings) in
                (batch :: rest.1, rest.2)
            end
      end
  end.

(** [getBatchEmbeddings(texts, config, batchSizeLimit = 2048)] *)
Definition getBatchEmbeddings (fuel : nat) (fetch : nat → nat → FetchOutcome)
    (random : nat → nat → float) (json : nat → string + list (list float))
    (texts : list (list N)) (batchSizeLimit : option nat)
    : list (list (list N)) * BatchResult :=
  batch_requests fuel fetch random json (default 2048%nat batchSizeLimit) 0 texts [].

(** *** [getEmbedding] *)

(** [getEmbedding(text, config)].  [fetch] and [random] are what the
    attempts of [fetchWithRetry] and its calls of [Math.random()] come to,
    and [json] is what [data.data[0].embedding] gives for the response, or
    the error with which reading it fails.  The first component of the
    result is the [input] of the request; the second is the vector, or the
    message of the error thrown. *)
Definition getEmbedding (fetch : nat → FetchOutcome) (random : nat → float)
    (json : string + list float) (text : list N) : list N * (string + list float) :=
  (truncate text,
   match (fetchWithRetry fetch random None).2 with
   | Throws error => inl error
   | Returns status =>
       if negb (ok status) then inl ("Embedding API Error: " +:+ pretty status)
       else json
   end).
End Ai.

(** ** The embedding cache ([src/services/db.ts]) *)

Module Db.
Import JS.

(** A record of the [embeddings] object store.  Its key is the pair
    [bookId, chunkId], under which the store below files it. *)
Record Stored := mkStored {
  embedding : list Z;          (* Int8Array *)
  model : option string;
  dimensions : nat
}.

(** The object store, with its index by book: the records of each book, by
    chunk id. *)
Abbreviation Store := (gmap string (gmap string Stored)).

Definition records_of (bookId : string) (store : Store) : gmap string Stored :=
  default ∅ (store !! bookId).

(** [store.put(record)] *)
Definition put (bookId chunkId : string) (record : Stored) (store : Store) : Store :=
  <[bookId := <[chunkId := record]> (records_of bookId store)]> store.

(** [saveEmbeddingsBatch(bookId, embeddings, model)] *)
Definition saveEmbeddingsBatch (bookId : string)
    (embeddings : list (string * list float)) (model : option string)
    (store : Store) : Store :=
  foldl (λ store e,
           let val := Int8Array_from e.2 in
           put bookId e.1 (mkStored val model (length val)) store)
        store embeddings.

(** [clearBookEmbeddings(bookId)]: every record of the book is deleted. *)
Definition clearBookEmbeddings (bookId : string) (store : Store) : Store :=
  delete bookId store.

(** [index.get(bookId)]: the record of the book with the least key. *)
Definition first_record (records : gmap string Stored) : option (string * Stored) :=
  foldr (λ entry best,
           match best with
           | None => Some entry
           | Some least => if String.ltb entry.1 least.1 then Some entry else Some least
           end)
        None (map_to_list records).

Record Metadata := mkMetadata {
  meta_model : option string;
  meta_dimensions : nat
}.

(** [getEmbeddingMetadata(bookId)] *)
Definition getEmbeddingMetadata (bookId : string) (store : Store) : option Metadata :=
  (λ first, mkMetadata (model first.2) (dimensions first.2))
  <$> first_record (records_of bookId store).

(** [getBookEmbeddings(bookId)]: the map from chunk id to numbers. *)
Definition getBookEmbeddings (bookId : string) (store : Store) : gmap string (list float) :=
  (λ r, Array_from_Int8Array (embedding r)) <$> records_of bookId store.

(** Every component lies strictly between -1 and 1. *)
Definition within_unit (v : list float) : Prop :=
  Forall (λ x, (-1 <? x)%float = true ∧ (x <? 1)%float = true) v.

(** *** The other writes and reads of the cache, and the books *)

(** [saveEmbedding(bookId, chunkId, embedding, model)]: [embedding] is an
    array of numbers, which is converted, or an [Int8Array], which is kept. *)
Definition saveEmbedding (bookId chunkId : string) (embedding : list float + list Z)
    (model : option string) (store : Store) : Store :=
  let val := match embedding with
             | inl numbers => Int8Array_from numbers
             | inr bytes => bytes
             end in
  put bookId chunkId (mkStored val model (length val)) store.

(** The integers an [Int8Array] holds. *)
Definition int8 (z : Z) : Prop := -128 ≤ z ≤ 127.

Section books.
(** A book is filed under its [id] (the store's key path). *)
Context {Book : Type} (book_id : Book → string).

(** The [books] and [embeddings] object stores. *)
Record Database := mkDatabase {
  db_books : gmap string Book;
  db_embeddings : Store
}.

(** [saveBook(bookData)] *)
Definition saveBook (bookData : Book) (db : Database) : Database :=
  mkDatabase (<[book_id bookData := bookData]> (db_books db)) (db_embeddings db).

(** [getLocalBook(id)] *)
Definition getLocalBook (id : string) (db : Database) : option Book := db_books db !! id.

(** [deleteBook(id)]: [await clearBookEmbeddings(id)], then
    [db.delete('books', id)]. *)
Definition deleteBook (id : string) (db : Database) : Database :=
  mkDatabase (delete id (db_books db)) (clearBookEmbeddings id (db_embeddings db)).
End books.
End Db.

(** ** The RAG service: validation of the cache and the pipeline *)

Module Rag.
Record AIConfig := mkConfig {
  baseUrl : string;
  model : string;
  embeddingModel : string
}.

Record TextChunk := mkChunk {
  chunk_id : string;
  chapterId : string;
  chapterTitle : string;
  content : string
}.

(** A [TextChunk] with an optional [embedding] *)
Record SemanticChunk := mkSemantic {
  chunk : TextChunk;
  embedding : option (list float)
}.

Record Validation := mkValidation {
  valid : bool;
  reason : option string
}.

(** A string in a condition counts as true when it is not empty. *)
Definition truthy (text : string) : bool := negb (String.eqb text "").

(** [validateIndex(bookId, config)] *)
Definition validateIndex (bookId : string) (config : AIConfig) (store : Db.Store)
    : Validation :=
  match Db.getEmbeddingMetadata bookId store with
  | None => mkValidation true None
  | Some meta =>
      match Db.meta_model meta with
      | Some stored =>
          if truthy (embeddingModel config) && truthy stored
             && negb (String.eqb stored (embeddingModel config))
          then mkValidation false
                 (Some ("Model mismatch: index=" +:+ stored +:+ ", config="
                        +:+ embeddingModel config))
          else mkValidation true None
      | None => mkValidation true None
      end
  end.

(** The payloads the service sends to the RAG worker. *)
Inductive Payload :=
| IndexChunk (id content : string) (embedding : option (list float))
| Search (queryEmbedding : list float) (topK : Z).

(** What [await getBatchEmbeddings(texts, config)] comes to: the vectors,
    an [AppError] with code [API_ERROR], or any other error. *)
Inductive EmbedOutcome :=
| Embeddings (vectors : list (list float))
| ApiError (message : string)
| OtherError (message : string).

(** What the pipeline does to the outside, in order. *)
Inductive Effect :=
| Warned (message : string)
| ClearedEmbeddings (bookId : string)
| LoadedEmbeddings (bookId : string) (found : gmap string (list float))
| CalledProvider (texts : list string)
| Progress (current total : nat)
| SavedEmbeddings (bookId : string) (batch : list (string * list float)) (model : string).

Record Env := mkEnv {
  store : Db.Store;
  client : WorkerClient.State Payload;
  trace : list Effect
}.

Inductive Result :=
| Resolved (chunks : list SemanticChunk)
| Rejected (message : string).

Definition log (e : Effect) (env : Env) : Env :=
  mkEnv (store env) (client env) (trace env ++ [e]).

Definition send_index (id content : string) (embedding : option (list float))
    (env : Env) : Env :=
  mkEnv (store env)
        (WorkerClient.send "INDEX_CHUNK" (IndexChunk id content embedding) (client env))
        (trace env).

(** The [chunks.forEach] that separates cached from uncached chunks. *)
Definition partition_step (persisted : gmap string (list float))
    (acc : Env * list SemanticChunk * list (nat * TextChunk)) (c : TextChunk)
    : Env * list SemanticChunk * list (nat * TextChunk) :=
  let '(env, semanticChunks, uncached) := acc in
  match persisted !! chunk_id c with
  | Some found =>
      (send_index (chunk_id c) (content c) (Some found) env,
       semanticChunks ++ [mkSemantic c (Some found)], uncached)
  | None =>
      (env, semanticChunks ++ [mkSemantic c None],
       uncached ++ [(length semanticChunks, c)])
  end.

(** The [batch.forEach] after a provider call that succeeded. *)
Definition batch_step (embeddings : list (list float))
    (acc : Env * list SemanticChunk * list (string * list float) * nat)
    (item : nat * TextChunk)
    : Env * list SemanticChunk * list (string * list float) * nat :=
  let '(env, semanticChunks, newEmbeddings, batchIdx) := acc in
  let found := embeddings !! batchIdx in
  (send_index (chunk_id item.2) (content item.2) found env,
   alter (λ sc, mkSemantic (chunk sc) found) item.1 semanticChunks,
   newEmbeddings ++ [(chunk_id item.2, default [] found)],
   S batchIdx).

Definition BATCH_SIZE : nat := 50.

(** The loop [for (let i = 0; i < uncached.length; i += BATCH_SIZE)], from
    offset [i]; every round takes a batch off [remaining], which is
    [uncached] from [i] on.  [calls] counts the provider calls made. *)
Fixpoint batches (fuel : nat) (embed : nat → list string → EmbedOutcome)
    (total cached i calls : nat) (remaining : list (nat * TextChunk))
    (env : Env) (semanticChunks : list SemanticChunk)
    (newEmbeddings : list (string * list float))
    : Env * list SemanticChunk * list (string * list float) * option string :=
  match fuel, remaining with
  | O, _ | _, [] => (env, semanticChunks, newEmbeddings, None)
  | S fuel, _ =>
      let batch := take BATCH_SIZE remaining in
      let texts := (λ b, content b.2) <$> batch in
      let env := log (CalledProvider texts) env in
      match embed calls texts with
      | Embeddings embeddings =>
          let '(env, semanticChunks, newEmbeddings, _) :=
            foldl (batch_step embeddings) (env, semanticChunks, newEmbeddings, 0%nat) batch in
          let env := log (Progress (cached + i + length batch) total) env in
          batches fuel embed total cached (i + BATCH_SIZE) (S calls)
                  (drop BATCH_SIZE remaining) env semanticChunks newEmbeddings
      | ApiError message => (env, semanticChunks, newEmbeddings, Some message)
      | OtherError _ =>
          batches fuel embed total cached (i + BATCH_SIZE) (S calls)
                  (drop BATCH_SIZE remaining) env semanticChunks newEmbeddings
      end
  end.

(** [indexChunksWithEmbeddings(chunks, config, bookId, onProgress)], from
    its second step on: loading the cache, separating, embedding, saving. *)
Definition index_from_cache (embed : nat → list string → EmbedOutcome)
    (chunks : list TextChunk) (config : AIConfig) (bookId : string) (env : Env)
    : Env * Result :=
  let persistedEmbeddings := Db.getBookEmbeddings bookId (store env) in
  let env := log (LoadedEmbeddings bookId persistedEmbeddings) env in
  let '(env, semanticChunks, uncached) :=
    foldl (partition_step persistedEmbeddings) (env, [], []) chunks in
  let '(env, semanticChunks, newEmbeddings, thrown) :=
    batches (length uncached) embed (length chunks) (length chunks - length uncached)
            0 0 uncached env semanticChunks [] in
  match thrown with
  | Some message => (env, Rejected message)
  | None =>
      match newEmbeddings with
      | [] => (env, Resolved semanticChunks)
      | _ =>
          let env :=
            log (SavedEmbeddings bookId newEmbeddings (embeddingModel config))
                (mkEnv (Db.saveEmbeddingsBatch bookId newEmbeddings
                          (Some (embeddingModel config)) (store env))
                       (client env) (trace env)) in
          (env, Resolved semanticChunks)
      end
  end.

(** The whole function: the first step validates the cache and clears it
    when it is stale. *)
Definition indexChunksWithEmbeddings (embed : nat → list string → EmbedOutcome)
    (chunks : list TextChunk) (config : AIConfig) (bookId : string) (env : Env)
    : Env * Result :=
  let validation := validateIndex bookId config (store env) in
  let env :=
    if valid validation then env
    else
      let env := log (Warned ("[RAG] Stale index detected: "
                              +:+ default "" (reason validation) +:+ ". Clearing...")) env in
      log (ClearedEmbeddings bookId)
          (mkEnv (Db.clearBookEmbeddings bookId (store env)) (client env) (trace env)) in
  index_from_cache embed chunks config bookId env.

(** The rule in the words of the specification: a record whose stored model
    differs from the configured one makes the cache invalid. *)
Definition stale_whenever_models_differ : Prop :=
  ∀ bookId config store meta,
    Db.getEmbeddingMetadata bookId store = Some meta →
    Db.meta_model meta ≠ Some (embeddingModel config) →
    valid (validateIndex bookId config store) = false.

(** *** The pipeline, step by step *)

(** The semantic chunk the pipeline makes of a chunk when it separates
    cached from uncached: the cached vector, if there is one. *)
Definition from_cache (persisted : gmap string (list float)) (c : TextChunk)
    : SemanticChunk :=
  mkSemantic c (persisted !! chunk_id c).

(** The chunks the cache has a vector for, and the message sent to the
    worker for each. *)
Definition cached_sends (persisted : gmap string (list float)) (chunks : list TextChunk)
    : list (WorkerClient.Event Payload) :=
  omap (λ c, (λ found, WorkerClient.CallSend "INDEX_CHUNK"
                         (IndexChunk (chunk_id c) (content c) (Some found)))
             <$> persisted !! chunk_id c) chunks.

(** The store the pipeline works on after its first step. *)
Definition validated_store (bookId : string) (config : AIConfig) (store : Db.Store)
    : Db.Store :=
  if valid (validateIndex bookId config store) then store
  else Db.clearBookEmbeddings bookId store.

(** What the [catch] around [getBatchEmbeddings] sees: [AppError.from(e)]
    leaves an [AppError] as it is, so that an API error is thrown on, and
    makes of any other error one of code [UNKNOWN_ERROR] or [ABORT_ERROR],
    which is logged only.  A call still running has no outcome. *)
Definition from_provider (r : Ai.BatchResult) : option EmbedOutcome :=
  match r with
  | Ai.BatchReturns vectors => Some (Embeddings vectors)
  | Ai.BatchApiError message _ => Some (ApiError message)
  | Ai.BatchThrows error => Some (OtherError error)
  | Ai.BatchRunning => None
  end.

(** The chunks the cache has no vector for, each with its position, counted
    from [offset]. *)
Definition misses (persisted : gmap string (list float)) (offset : nat)
    (chunks : list TextChunk) : list (nat * TextChunk) :=
  filter (λ item, ¬ is_Some (persisted !! chunk_id item.2))
         (imap (λ k c, ((offset + k)%nat, c)) chunks).

(** The provider calls in a trace: the texts of each. *)
Definition calls_of (effects : list Effect) : list (list string) :=
  omap (λ e, match e with CalledProvider texts => Some texts | _ => None end) effects.
End Rag.

(** ** The service's client and the RAG worker together *)

Module System.
(** [getRagClient()] at its first call:
    [new WorkerClient(url, { timeout: 60000 })] *)
Definition new_rag_client {Payload : Type} : WorkerClient.State Payload :=
  WorkerClient.new (Some (WorkerClient.mkOptions (Some 60000) None)).

(** [ctx.onmessage] of the RAG worker on a message that the service's
    client has posted.  The [type] selects the handler and the payload
    gives it its fields; a field that the payload lacks is [undefined].
    An [INDEX_CHUNK] without an embedding throws at [embedding.length],
    before anything is written, and the [catch] replies with the error;
    [type_error] is the message of that [TypeError], which engines word
    differently.  A [SEARCH] without its fields searches with the empty
    array that [new Float32Array(undefined)] is, and [slice(0, undefined)]
    keeps every result. *)
Definition worker_onmessage (type_error : string)
    (m : WorkerClient.WorkerMessage Rag.Payload) (st : RagWorker.State)
    : RagWorker.State * list RagWorker.Reply :=
  let id := WorkerClient.msg_id m in
  let type := WorkerClient.msg_type m in
  if String.eqb type "INDEX_CHUNK" then
    match WorkerClient.msg_payload m with
    | Rag.IndexChunk chunkId content (Some embedding) =>
        RagWorker.onmessage
          (RagWorker.mkMessage id (RagWorker.INDEX_CHUNK chunkId content embedding)) st
    | _ =>
        (st, [RagWorker.replyError id
                (match type_error with EmptyString => "Worker error" | _ => type_error end)])
    end
  else if String.eqb type "SEARCH" then
    match WorkerClient.msg_payload m with
    | Rag.Search queryEmbedding topK =>
        RagWorker.onmessage (RagWorker.mkMessage id (RagWorker.SEARCH queryEmbedding topK)) st
    | _ =>
        RagWorker.onmessage
          (RagWorker.mkMessage id (RagWorker.SEARCH [] (Z.of_nat (RagWorker.count st)))) st
    end
  else if String.eqb type "CLEAR" then
    RagWorker.onmessage (RagWorker.mkMessage id RagWorker.CLEAR) st
  else RagWorker.onmessage (RagWorker.mkMessage id (RagWorker.Unknown type)) st.

(** The worker's handling of messages one after the other, collecting the
    replies. *)
Definition handle_all (type_error : string)
    (messages : list (WorkerClient.WorkerMessage Rag.Payload))
    (acc : RagWorker.State * list RagWorker.Reply)
    : RagWorker.State * list RagWorker.Reply :=
  foldl (λ acc m, let '(st, replies) := worker_onmessage type_error m acc.1 in
                  (st, acc.2 ++ replies)) acc messages.

(** The worker's handling of everything a client has posted. *)
Definition deliver (type_error : string) (client : WorkerClient.State Rag.Payload)
    : RagWorker.State * list RagWorker.Reply :=
  handle_all type_error (WorkerClient.posted client) (RagWorker.initial, []).

(** The item that the pipeline queues for a chunk that is in the cache. *)
Definition cached_item (persisted : gmap string (list float)) (c : Rag.TextChunk)
    : string * Rag.Payload :=
  ("INDEX_CHUNK", Rag.IndexChunk (Rag.chunk_id c) (Rag.content c)
                    (persisted !! Rag.chunk_id c)).

(** *** [semanticSearch] *)

(** What the client and the worker exchange ([any] in the source): a
    payload of the service, or one that the worker posts back. *)
Inductive Data :=
| FromService (payload : Rag.Payload)
| FromWorker (payload : RagWorker.Payload).

(** A client that so far has only carried payloads of the service, as a
    client that carries either kind. *)
Definition as_data (s : WorkerClient.State Rag.Payload) : WorkerClient.State Data :=
  WorkerClient.mkState
    (WorkerClient.pending s) (WorkerClient.idCounter s) (WorkerClient.defaultTimeout s)
    ((λ item, (item.1, FromService item.2)) <$> WorkerClient.queue s)
    (WorkerClient.inFlight s) (WorkerClient.maxConcurrent s)
    ((λ m, WorkerClient.mkMessage (WorkerClient.msg_id m) (WorkerClient.msg_type m)
             (FromService (WorkerClient.msg_payload m))) <$> WorkerClient.posted s)
    ((λ v, match v with
           | WorkerClient.Resolved value => WorkerClient.Resolved (FromService value)
           | WorkerClient.Rejected message => WorkerClient.Rejected message
           end) <$> WorkerClient.settled s)
    (WorkerClient.terminated s).

(** The message event that a reply of the worker is for the client. *)
Definition response_of (r : RagWorker.Reply) : WorkerClient.WorkerResponse Data :=
  WorkerClient.mkResponse (RagWorker.reply_id r) (RagWorker.reply_type r)
    (FromWorker (RagWorker.reply_payload r)) (RagWorker.reply_error r).

(** [{ chunk, score }] *)
Record RetrievalResult := mkRetrieval {
  result_chunk : Rag.SemanticChunk;
  result_score : float
}.

(** [new Map(chunks.map(c => [c.id, c]))]: of two chunks with one id the
    later one stays. *)
Definition chunkMap (chunks : list Rag.SemanticChunk) : gmap string Rag.SemanticChunk :=
  foldl (λ m c, <[Rag.chunk_id (Rag.chunk c) := c]> m) ∅ chunks.

(** [response.results.map(r => ({ chunk: chunkMap.get(r.id), score: r.score }))
    .filter(r => r.chunk)] *)
Definition map_results (chunks : list Rag.SemanticChunk)
    (results : list RagWorker.Scored) : list RetrievalResult :=
  omap (λ r, match RagWorker.scored_id r ≫= (chunkMap chunks !!.) with
             | Some c => Some (mkRetrieval c (RagWorker.score r))
             | None => None
             end) results.

(** What [await semanticSearch(...)] comes to: the results; an error thrown
    by [getEmbedding] or carried by the worker's answer; a [TypeError] when
    the answer has no [results]; or nothing yet, when no answer has come
    (the timer of the request is then still armed). *)
Inductive SearchOutcome :=
| Found (results : list RetrievalResult)
| SearchRejected (error : string)
| SearchTypeError
| Unanswered.

(** [semanticSearch(query, chunks, config, topK)], for a query given as its
    UTF-16 code units, on the client [sys.1] and
    a worker that has handled what the client had posted and is in the state
    [sys.2]: the worker handles the [SEARCH] message, and the client what
    the worker replies. *)
Definition semanticSearch (fetch : nat → Ai.FetchOutcome) (random : nat → float)
    (json : string + list float) (query : list N) (chunks : list Rag.SemanticChunk)
    (topK : Z) (now : N) (sys : WorkerClient.State Data * RagWorker.State)
    : (WorkerClient.State Data * RagWorker.State) * SearchOutcome :=
  match (Ai.getEmbedding fetch random json query).2 with
  | inl error => (sys, SearchRejected error)
  | inr queryEmbedding =>
      let '(id, client) :=
        WorkerClient.request "SEARCH" (FromService (Rag.Search queryEmbedding topK))
          None now sys.1 in
      let '(worker, replies) :=
        RagWorker.onmessage
          (RagWorker.mkMessage id (RagWorker.SEARCH queryEmbedding topK)) sys.2 in
      let client := foldl (λ s r, WorkerClient.onmessage (response_of r) s) client replies in
      ((client, worker),
       match WorkerClient.settled client !! id with
       | Some (WorkerClient.Resolved (FromWorker (RagWorker.Results results))) =>
           Found (map_results chunks results)
       | Some (WorkerClient.Resolved _) => SearchTypeError
       | Some (WorkerClient.Rejected error) => SearchRejected error
       | None => Unanswered
       end)
  end.
End System.

(** ** Example data *)

Module Examples.
(** The index of the specification's example: [[1,0]] as "a", [[0,1]] as
    "b" and [[0.7071,0.7071]] as "c" (0.7071 is the binary64 number
    [0x1.6a0902de00d1bp-1]). *)
Definition example_inserts : list RagWorker.WorkerMessage :=
  [RagWorker.mkMessage "fire_1" (RagWorker.INDEX_CHUNK "a" "alpha" [1; 0]%float);
   RagWorker.mkMessage "fire_2" (RagWorker.INDEX_CHUNK "b" "beta" [0; 1]%float);
   RagWorker.mkMessage "fire_3"
     (RagWorker.INDEX_CHUNK "c" "gamma"
        [0x1.6a0902de00d1bp-1; 0x1.6a0902de00d1bp-1]%float)].

Definition example_index : RagWorker.State :=
  (RagWorker.run example_inserts RagWorker.initial).1.

(** What the query [[1,0]] finds in it: "a" with the score 0.99999999 and
    "c" with the score 0.70710677. *)
Definition example_found : list RagWorker.Scored :=
  [RagWorker.mkScored (Some "a") 0x1.ffffffaa19c49p-1%float;
   RagWorker.mkScored (Some "c") 0x1.6a09e62b36253p-1%float].

(** A chapter whose body is markup around ten characters, and a chapter of
    one hundred letters, all different. *)
Definition short_chapter : ParserWorker.Chapter :=
  ParserWorker.mkChapter (ParserWorker.literal "c1") (ParserWorker.literal "Preface")
    (ParserWorker.literal "<p>Too short.</p>").

Definition long_chapter : ParserWorker.Chapter :=
  ParserWorker.mkChapter (ParserWorker.literal "c2") (ParserWorker.literal "One")
    (N.of_nat <$> seq 256 100).

(** A cache written under one model. *)
Definition cache_of_model (name : string) : Db.Store :=
  Db.put "book" "c2-chunk-0" (Db.mkStored [0; 0; 0] (Some name) 3) ∅.

(** A book of two chunks, the first of which is in the cache, and a
    provider that answers every text with the same vector. *)
Definition example_chunks : list Rag.TextChunk :=
  [Rag.mkChunk "c2-chunk-0" "c2" "One" "It was the best of times";
   Rag.mkChunk "c2-chunk-1" "c2" "One" "it was the worst of times"].

Definition example_config : Rag.AIConfig := Rag.mkConfig "/api" "zai-org/glm-4.7" "A".

Definition example_env : Rag.Env :=
  Rag.mkEnv (cache_of_model "A") (WorkerClient.new None) [].

Definition example_embed (call : nat) (texts : list string) : Rag.EmbedOutcome :=
  Rag.Embeddings ((λ _, [1; 2; 3]%float) <$> texts).

(** A book of twelve chunks, and a cache that holds a vector of three
    components for each of them: [[k, 1, 0]] for chunk [k]. *)
Definition long_book : list Rag.TextChunk :=
  (λ k, Rag.mkChunk ("c3-chunk-" +:+ pretty (N.of_nat k)) "c3" "Two"
          "it was the age of wisdom") <$> seq 0 12.

Definition long_book_cache : Db.Store :=
  foldr (λ k, Db.put "long" ("c3-chunk-" +:+ pretty (N.of_nat k))
                (Db.mkStored [Z.of_nat k; 1; 0] (Some "A") 3)) ∅ (seq 0 12).

(** The message of the [TypeError] in V8. *)
Definition v8_type_error : string :=
  "Cannot read properties of undefined (reading 'length')".
End Examples.

(** * Part II: properties *)

(** ** The task channel client *)

Section worker_client_facts.
Import WorkerClient.
Context {Payload : Type}.
Implicit Types (s : State Payload) (e : Event Payload).
Implicit Types (q : list (string * Payload)) (events : list (Event Payload)).

Lemma drain_closed_form q s :
  drain q s =
    let k := admitted s q in
    mkState (pending s) (idCounter s + N.of_nat k) (defaultTimeout s) (drop k q)
            (inFlight s + Z.of_nat k) (maxConcurrent s)
            (posted s ++ fire_msgs (idCounter s) (take k q)) (settled s) (terminated s).
Proof.
  revert s. induction q as [|item rest IH]; intros s; cbn [drain].
  - destruct s; unfold admitted, set_queue; cbn.
    rewrite N.add_0_r, Z.add_0_r, app_nil_r. reflexivity.
  - destruct (Z.ltb_spec (inFlight s) (maxConcurrent s)) as [Hlt|Hge].
    + rewrite IH. unfold admitted; cbn.
      replace (Z.to_nat (maxConcurrent s - inFlight s))
        with (S (Z.to_nat (maxConcurrent s - (inFlight s + 1)))) by lia.
      cbn. rewrite <- app_assoc. cbn. f_equal; lia.
    + unfold admitted.
      replace (Z.to_nat (maxConcurrent s - inFlight s)) with 0%nat by lia.
      rewrite Nat.min_0_r. destruct s; unfold set_queue; cbn.
      rewrite N.add_0_r, Z.add_0_r, app_nil_r. reflexivity.
Qed.

Lemma processQueue_closed_form s :
  processQueue s =
    let k := admitted s (queue s) in
    mkState (pending s) (idCounter s + N.of_nat k) (defaultTimeout s) (drop k (queue s))
            (inFlight s + Z.of_nat k) (maxConcurrent s)
            (posted s ++ fire_msgs (idCounter s) (take k (queue s)))
            (settled s) (terminated s).
Proof. apply drain_closed_form. Qed.

Lemma processQueue_backpressure s : backpressure (processQueue s).
Proof.
  rewrite processQueue_closed_form. unfold backpressure, admitted; cbn.
  intros Hq Hlt. apply Hq, drop_ge. lia.
Qed.

Lemma settle_backpressure id v s : backpressure s → backpressure (settle id v s).
Proof. intros H. exact H. Qed.

Lemma step_backpressure e s : backpressure s → backpressure (step e s).
Proof.
  intros Hs. destruct e as [t p|t p o now|r|id| |]; cbn [step].
  - unfold send. destruct (Z.ltb_spec (inFlight s) (maxConcurrent s)) as [Hlt|Hge].
    + unfold backpressure in *; cbn. intros Hq. specialize (Hs Hq). lia.
    + unfold backpressure; cbn. lia.
  - unfold backpressure in *; cbn. intros Hq. specialize (Hs Hq). lia.
  - unfold onmessage. destruct (pending s !! res_id r); [|apply processQueue_backpressure].
    destruct (truthy (res_error r));
      apply settle_backpressure, processQueue_backpressure.
  - destruct (pending s !! id); [|done].
    apply settle_backpressure, processQueue_backpressure.
  - unfold backpressure; cbn. done.
  - unfold backpressure; cbn. done.
Qed.

Lemma reachable_backpressure options s : reachable options s → backpressure s.
Proof.
  induction 1 as [|s e _ IH]; [unfold backpressure; cbn; done|].
  by apply step_backpressure.
Qed.

Lemma run_app events1 events2 s : run (events1 ++ events2) s = run events2 (run events1 s).
Proof. apply foldl_app. Qed.

Lemma run_snoc events e s : run (events ++ [e]) s = step e (run events s).
Proof. by rewrite run_app. Qed.

Lemma run_reachable options events : reachable options (run events (new options)).
Proof.
  induction events as [|e events IH] using rev_ind; [constructor|].
  rewrite run_snoc. by constructor.
Qed.

(** *** First in, first out *)

Lemma fired_app (l1 l2 : list (WorkerMessage Payload)) :
  fired (l1 ++ l2) = fired l1 ++ fired l2.
Proof. unfold fired. by rewrite filter_app, fmap_app. Qed.

Lemma fired_fire_msgs n q : fired (fire_msgs n q) = q.
Proof.
  revert n. induction q as [|[t p] rest IH]; intros n; [done|].
  cbn [fire_msgs]. unfold fired in *. rewrite filter_cons_True by done.
  cbn. by rewrite IH.
Qed.

Lemma step_fifo e s :
  backpressure s →
  ∃ dispatched, posted (step e s) = posted s ++ dispatched ∧
    (is_reset e = false → fired dispatched ++ queue (step e s) = queue s ++ sent e).
Proof.
  intros Hs.
  assert (Hdrain : ∀ s0 : State Payload, ∃ dispatched,
    posted (processQueue s0) = posted s0 ++ dispatched ∧
    fired dispatched ++ queue (processQueue s0) = queue s0).
  { intros s0. rewrite processQueue_closed_form; cbn. eexists; split; [done|].
    by rewrite fired_fire_msgs, take_drop. }
  destruct e as [t p|t p o now|r|id| |]; cbn [step is_reset sent].
  - unfold send. destruct (Z.ltb_spec (inFlight s) (maxConcurrent s)) as [Hlt|Hge].
    + exists [mkMessage (fire_id (idCounter s + 1)) t p]. split; [done|]. intros _.
      assert (Hq : queue s = []).
      { destruct (queue s) as [|x q] eqn:Hq; [done|].
        exfalso. apply Hs; [by rewrite Hq|done]. }
      change (queue (sendImmediate t p s)) with (queue s). by rewrite Hq.
    + exists []. cbn. by rewrite !app_nil_r.
  - eexists [_]. split; [done|]. intros _. cbn. by rewrite app_nil_r.
  - unfold onmessage. destruct (pending s !! res_id r).
    + destruct (Hdrain (release (set_pending (delete (res_id r)) s))) as (d & Hp & Hq).
      exists d. rewrite app_nil_r. by destruct (truthy (res_error r)).
    + destruct (Hdrain (release s)) as (d & Hp & Hq).
      exists d. by rewrite app_nil_r.
  - destruct (pending s !! id).
    + destruct (Hdrain (release (set_pending (delete id) s))) as (d & Hp & Hq).
      exists d. by rewrite app_nil_r.
    + exists []. by rewrite !app_nil_r.
  - exists []. by rewrite app_nil_r.
  - exists []. by rewrite app_nil_r.
Qed.

Lemma run_fifo options events :
  forallb (λ e, negb (is_reset e)) events = true →
  let s := run events (new options) in
  fired (posted s) ++ queue s = concat (sent <$> events).
Proof.
  induction events as [|e events IH] using rev_ind; [done|].
  rewrite forallb_app; cbn. rewrite andb_true_r.
  intros [Hevents He%negb_true_iff]%andb_true_iff.
  rewrite run_snoc, fmap_app, concat_app; cbn. rewrite app_nil_r.
  specialize (IH Hevents); cbn in IH. rewrite <- IH.
  destruct (step_fifo e (run events (new options))) as (d & Hp & Hq).
  { eapply reachable_backpressure, run_reachable. }
  rewrite Hp, fired_app, <- !app_assoc. f_equal. by apply Hq.
Qed.

(** *** Request ids are fresh *)

Lemma pretty_N_go_no_underscore (n : N) (acc : string) :
  no_underscore acc → no_underscore (pretty_N_go n acc).
Proof.
  revert acc. induction (N.lt_wf_0 n) as [n _ IH]; intros acc Hacc.
  destruct (decide (n = 0)%N) as [->|Hn]; [by rewrite pretty_N_go_0|].
  rewrite pretty_N_go_step by lia. apply IH.
  - apply N.div_lt; lia.
  - split; [|done]. unfold pretty_N_char. by repeat case_match.
Qed.

Lemma pretty_N_no_underscore (n : N) : no_underscore (pretty n).
Proof.
  unfold pretty, pretty_N. case_decide; [by split|].
  by apply pretty_N_go_no_underscore.
Qed.

Lemma underscore_split (d1 d2 r1 r2 : string) :
  no_underscore d1 → no_underscore d2 →
  d1 +:+ String "_" r1 = d2 +:+ String "_" r2 → d1 = d2.
Proof.
  revert d2. induction d1 as [|c d1 IH]; intros [|c' d2]; cbn.
  - done.
  - intros _ [Hc _] [= <- _]. done.
  - intros [Hc _] _ [= -> _]. done.
  - intros [_ H1] [_ H2] [= -> Heq]. f_equal. by eapply IH.
Qed.

Lemma req_id_counter_inj (n1 n2 now1 now2 : N) :
  req_id n1 now1 = req_id n2 now2 → n1 = n2.
Proof.
  unfold req_id. intros [= Heq]. apply (inj pretty).
  eapply underscore_split; [apply pretty_N_no_underscore..|exact Heq].
Qed.

Lemma processQueue_pending s : pending (processQueue s) = pending s.
Proof. by rewrite processQueue_closed_form. Qed.
Lemma processQueue_settled s : settled (processQueue s) = settled s.
Proof. by rewrite processQueue_closed_form. Qed.
Lemma processQueue_idCounter s : (idCounter s ≤ idCounter (processQueue s))%N.
Proof. rewrite processQueue_closed_form; cbn. lia. Qed.

Lemma pending_settle id v s : pending (settle id v s) = pending s.
Proof. done. Qed.
Lemma idCounter_settle id v s : idCounter (settle id v s) = idCounter s.
Proof. done. Qed.

Lemma settled_settle id v s id' :
  settled (settle id v s) !! id' =
    match settled s !! id with
    | Some _ => settled s !! id'
    | None => if decide (id = id') then Some v else settled s !! id'
    end.
Proof.
  unfold settle; cbn. destruct (settled s !! id) eqn:Hid; [done|].
  by rewrite lookup_insert.
Qed.

Lemma settled_reject_all message s id :
  settled (reject_all message s) !! id =
    match settled s !! id with
    | Some v => Some v
    | None => (λ _, Rejected message) <$> pending s !! id
    end.
Proof.
  unfold reject_all; cbn. rewrite lookup_union, lookup_fmap.
  destruct (settled s !! id), (pending s !! id); done.
Qed.

(** Answering or timing out the pending request [id]. *)
Lemma complete_ids id v s :
  is_Some (pending s !! id) →
  ids_issued s ∧ pending_unsettled s →
  let s' := settle id v (processQueue (release (set_pending (delete id) s))) in
  ids_issued s' ∧ pending_unsettled s'.
Proof.
  intros Hid [Hissued Hunsettled] s'.
  assert (Hp : pending s' = delete id (pending s)).
  { unfold s'. by rewrite pending_settle, processQueue_pending. }
  assert (Hc : (idCounter s ≤ idCounter s')%N).
  { unfold s'. rewrite idCounter_settle.
    etrans; [|apply processQueue_idCounter]. done. }
  assert (Hs : ∀ id', settled s' !! id' =
               if decide (id = id') then Some v else settled s !! id').
  { intros id'. unfold s'. rewrite settled_settle, processQueue_settled; cbn.
    by rewrite (Hunsettled id Hid). }
  split.
  - intros id' Hid'. destruct (Hissued id') as (n & now & -> & Hn).
    + rewrite Hp, Hs in Hid'. destruct Hid' as [Hid'|Hid'].
      * left. rewrite lookup_delete in Hid'. by case_decide; [destruct Hid'|].
      * case_decide as Heq; [left; by rewrite <- Heq|by right].
    + exists n, now. split; [done|lia].
  - intros id'. rewrite Hp, Hs, lookup_delete.
    case_decide; [by intros []|]. apply Hunsettled.
Qed.

Lemma reset_ids message s :
  ids_issued s → ∀ s', pending s' = ∅ → idCounter s' = idCounter s →
  settled s' = settled (reject_all message s) →
  ids_issued s' ∧ pending_unsettled s'.
Proof.
  intros Hissued s' Hp Hc Hs. split.
  - intros id Hid. rewrite Hc. apply Hissued.
    rewrite Hp, Hs, lookup_empty, settled_reject_all in Hid.
    destruct Hid as [[]|Hid]; [done|].
    destruct (settled s !! id); [by right|]. left.
    destruct (pending s !! id); [done|]. by destruct Hid.
  - intros id. rewrite Hp, lookup_empty. by intros [].
Qed.

Lemma step_ids e s :
  ids_issued s ∧ pending_unsettled s →
  ids_issued (step e s) ∧ pending_unsettled (step e s).
Proof.
  intros [Hissued Hunsettled].
  assert (Hgrow : ∀ s', pending s' = pending s → settled s' = settled s →
            (idCounter s ≤ idCounter s')%N → ids_issued s' ∧ pending_unsettled s').
  { intros s' Hp Hs Hc. split.
    - intros id. rewrite Hp, Hs. intros (n & now & -> & Hn)%Hissued.
      exists n, now. split; [done|lia].
    - intros id. rewrite Hp, Hs. apply Hunsettled. }
  destruct e as [t p|t p o now|r|id| |]; cbn [step].
  - unfold send. destruct (inFlight s <? maxConcurrent s); apply Hgrow; cbn; (done || lia).
  - cbn. split.
    + intros id. cbn. rewrite lookup_insert. intros Hid.
      case_decide as Heq.
      * exists (idCounter s + 1)%N, now. by split.
      * destruct (Hissued id Hid) as (n & now' & -> & Hn).
        exists n, now'. split; [done|lia].
    + intros id. cbn. rewrite lookup_insert. case_decide as Heq.
      * intros _. subst id. destruct (settled s !! _) eqn:Hs; [|done].
        destruct (Hissued (req_id (idCounter s + 1) now)) as (n & now' & Heq & Hn).
        { right. by rewrite Hs. }
        apply req_id_counter_inj in Heq. lia.
      * apply Hunsettled.
  - unfold onmessage. destruct (pending s !! res_id r) eqn:Hr.
    + destruct (truthy (res_error r)); by apply complete_ids.
    + apply Hgrow; [by rewrite processQueue_pending|by rewrite processQueue_settled|].
      etrans; [|apply processQueue_idCounter]. done.
  - destruct (pending s !! id) eqn:Hid; [|done]. by apply complete_ids.
  - by eapply reset_ids.
  - by eapply reset_ids.
Qed.

Lemma reachable_ids options s :
  reachable options s → ids_issued s ∧ pending_unsettled s.
Proof.
  induction 1 as [|s e _ IH]; [|by apply step_ids].
  split; intros id; cbn; rewrite !lookup_empty; [intros [[]|[]]|intros []]; done.
Qed.

(** A pending request stays pending, with its timer, as long as nothing
    completes it. *)
Lemma quiet_step options id p e s :
  reachable options s → pending s !! id = Some p → quiet id e = true →
  pending (step e s) !! id = Some p.
Proof.
  intros [Hissued _]%reachable_ids Hid Hquiet.
  destruct e as [t p'|t p' o now|r|id'| |]; cbn [step quiet] in *; try done.
  - unfold send. by destruct (inFlight s <? maxConcurrent s).
  - cbn. rewrite lookup_insert_ne; [done|]. intros Heq.
    destruct (Hissued id) as (n & now' & -> & Hn); [left; by rewrite Hid|].
    apply req_id_counter_inj in Heq. lia.
  - apply bool_decide_eq_true in Hquiet. unfold onmessage.
    destruct (pending s !! res_id r).
    + assert (pending (processQueue (release (set_pending (delete (res_id r)) s))) !! id
              = Some p) as Hgoal.
      { rewrite processQueue_pending; cbn. by rewrite lookup_delete_ne. }
      by destruct (truthy (res_error r)).
    + by rewrite processQueue_pending.
  - apply bool_decide_eq_true in Hquiet. destruct (pending s !! id'); [|done].
    unfold timeout_callback. rewrite pending_settle, processQueue_pending; cbn.
    by rewrite lookup_delete_ne.
Qed.

Lemma quiet_run options id p events s :
  reachable options s → pending s !! id = Some p →
  forallb (quiet id) events = true →
  pending (run events s) !! id = Some p.
Proof.
  revert s. induction events as [|e events IH]; intros s Hs Hid; [done|].
  cbn. intros [He Hevents]%andb_true_iff. apply IH; [by constructor| |done].
  by eapply quiet_step.
Qed.



(** An answer to a fire-and-forget message finds no pending request: it
    frees a slot and lets the queue advance, and no promise hears of it. *)
Lemma fire_reply_only_releases options s n r :
  reachable options s → res_id r = fire_id n →
  onmessage r s = processQueue (release s) ∧
  settled (onmessage r s) = settled s.
Proof.
  intros [Hissued _]%reachable_ids Hid.
  assert (Hnone : pending s !! res_id r = None).
  { destruct (pending s !! res_id r) eqn:Hr; [|done].
    destruct (Hissued (res_id r)) as (n' & now & Heq & _); [left; by rewrite Hr|].
    rewrite Hid in Heq. discriminate Heq. }
  unfold onmessage. rewrite Hnone. split; [done|]. by rewrite processQueue_settled.
Qed.

(** C1: whatever has happened to a client (calls of [send], [request] and
    [terminate], answers and faults of the worker, timers firing, in any
    order), it does not hold queued sends while the in-flight counter is
    below [maxConcurrent]; the messages any further event dispatches,
    followed by what stays queued, are the queue as it was followed by the
    newly sent item, so queued sends leave in the order they came; and as
    long as the worker has neither faulted nor been terminated, the sends
    dispatched so far followed by the queue are the sends made, in order. *)
Theorem backpressure_invariant_fifo options events :
  let s := run events (new options) in
  ¬ (queue s ≠ [] ∧ inFlight s < maxConcurrent s) ∧
  (∀ e, ∃ dispatched,
      posted (step e s) = posted s ++ dispatched ∧
      (is_reset e = false →
       fired dispatched ++ queue (step e s) = queue s ++ sent e)) ∧
  (forallb (λ e, negb (is_reset e)) events = true →
   fired (posted s) ++ queue s = concat (sent <$> events)).
Proof.
  intros s. pose proof (run_reachable options events) as Hs.
  apply reachable_backpressure in Hs. split; [|split].
  - intros [Hq Hlt]. by apply Hs.
  - intros e. by apply step_fifo.
  - apply run_fifo.
Qed.


(** C9: [request] does not look at the concurrency cap or at the queue.
    From any state, a run of calls to [request] posts one message per call,
    in order and at once, leaves the queue as it is and raises the in-flight
    counter by the number of calls; on a new client the counter therefore
    equals the number of calls, whatever [maxConcurrent] is. *)
Theorem request_bypasses_cap options s (calls : list (string * Payload * option Z * N)) :
  let events := (λ c, CallRequest c.1.1.1 c.1.1.2 c.1.2 c.2) <$> calls in
  (inFlight (run events s) = inFlight s + Z.of_nat (length calls) ∧
   queue (run events s) = queue s ∧
   ∃ messages, posted (run events s) = posted s ++ messages ∧
     item_of <$> messages = (λ c, (c.1.1.1, c.1.1.2)) <$> calls) ∧
  inFlight (run events (new options)) = Z.of_nat (length calls).
Proof.
  intros events.
  assert (Hrun : ∀ s0 : State Payload,
    inFlight (run events s0) = inFlight s0 + Z.of_nat (length calls) ∧
    queue (run events s0) = queue s0 ∧
    ∃ messages, posted (run events s0) = posted s0 ++ messages ∧
      item_of <$> messages = (λ c, (c.1.1.1, c.1.1.2)) <$> calls).
  { unfold events. clear. induction calls as [|[[[t p] o] now] calls IH]; intros s0.
    - cbn. split; [lia|]. split; [done|]. exists []. by rewrite app_nil_r.
    - change (run _ s0) with
        (run ((λ c, CallRequest c.1.1.1 c.1.1.2 c.1.2 c.2) <$> calls)
             (request t p o now s0).2).
      destruct (IH (request t p o now s0).2) as (Hin & Hq & messages & Hp & Hm).
      rewrite Hin, Hq, Hp. split; [cbn; lia|]. split; [done|].
      exists (mkMessage (req_id (idCounter s0 + 1) now) t p :: messages). split.
      + cbn. by rewrite <- app_assoc.
      + cbn. by rewrite Hm. }
  split; [apply Hrun|]. by destruct (Hrun (new options)) as [-> _].
Qed.
End worker_client_facts.

Section worker_client_scenarios.
Import WorkerClient.

End worker_client_scenarios.

(** ** Sorting with a comparison function *)

Section sort_facts.
Import JS.
Context {A : Type} (comparefn : A → A → float).
Implicit Types (x y : A) (l : list A).

Lemma sort_insert_perm x l : sort_insert comparefn x l ≡ₚ x :: l.
Proof.
  induction l as [|y l IH]; cbn [sort_insert]; [done|].
  destruct (goes_after comparefn x y); [|done].
  rewrite IH. apply Permutation_swap.
Qed.

Lemma sort_perm l : sort comparefn l ≡ₚ l.
Proof.
  induction l as [|x l IH]; cbn [sort]; [done|].
  by rewrite sort_insert_perm, IH.
Qed.

Lemma sort_length l : length (sort comparefn l) = length l.
Proof. by rewrite sort_perm. Qed.

Lemma sort_insert_fmap {B : Type} (f : B → A) (b : B) (l : list B) :
  sort_insert comparefn (f b) (f <$> l)
  = f <$> sort_insert (λ b1 b2, comparefn (f b1) (f b2)) b l.
Proof.
  induction l as [|b' l IH]; cbn [sort_insert fmap list_fmap]; [done|].
  unfold goes_after. destruct (0 <? comparefn (f b) (f b'))%float; [|done].
  cbn [fmap list_fmap]. f_equal. apply IH.
Qed.

Lemma sort_fmap {B : Type} (f : B → A) (l : list B) :
  sort comparefn (f <$> l) = f <$> sort (λ b1 b2, comparefn (f b1) (f b2)) l.
Proof.
  induction l as [|b l IH]; cbn [sort fmap list_fmap]; [done|].
  change (list_fmap B A f l) with (f <$> l). by rewrite IH, sort_insert_fmap.
Qed.
End sort_facts.

Section sort_stable.
Import JS.
Context (comparefn : nat → nat → float).

Lemma sort_insert_stable i sorted l :
  comparator_consistent comparefn l → i ∈ l → sorted ⊆ l →
  Forall (λ j, (i < j)%nat) sorted →
  StronglySorted (stands_before comparefn) sorted →
  StronglySorted (stands_before comparefn) (sort_insert comparefn i sorted).
Proof.
  intros [Hasym Htrans] Hi. induction sorted as [|j sorted IH]; intros Hsub Hlt Hsorted; cbn [sort_insert].
  - repeat constructor.
  - apply StronglySorted_inv in Hsorted as [Hsorted Hj].
    apply Forall_cons in Hlt as [Hij Hlt].
    assert (Hjl : j ∈ l) by (apply Hsub; left).
    assert (Hsub' : sorted ⊆ l) by (intros k Hk; apply Hsub; by right).
    destruct (goes_after comparefn i j) eqn:Hafter.
    + constructor; [by apply IH|].
      rewrite sort_insert_perm. constructor; [|done].
      split; [by apply Hasym|]. by rewrite Hafter.
    + constructor; [by constructor|]. constructor; [by split|].
      rewrite Forall_forall in Hj, Hlt |- *. intros k Hk. split; [|by intros; apply Hlt].
      eapply Htrans; [done|exact Hjl|by apply Hsub'|done|]. by apply Hj.
Qed.

Lemma sort_stable l :
  comparator_consistent comparefn l → StronglySorted lt l →
  StronglySorted (stands_before comparefn) (sort comparefn l).
Proof.
  intros Hcons. assert (Hsub : l ⊆ l) by done. revert Hsub.
  generalize l at 1 3 4 as l'. induction l' as [|i l' IH]; intros Hsub Hsorted; cbn [sort].
  - constructor.
  - apply StronglySorted_inv in Hsorted as [Hsorted Hi].
    eapply sort_insert_stable; [done|apply Hsub; left| | |].
    + intros j Hj. apply Hsub. right. by rewrite <- (sort_perm comparefn l').
    + by rewrite sort_perm.
    + apply IH; [|done]. intros j Hj. apply Hsub. by right.
Qed.
End sort_stable.

(** ** The order of the floats *)

Section float_order.
Import JS.

Lemma SFcompare_key f1 f2 :
  f1 ≠ S754_nan → f2 ≠ S754_nan →
  SFcompare f1 f2 = Some (key_compare (SFkey f1) (SFkey f2)).
Proof.
  intros H1 H2. unfold key_compare.
  destruct f1 as [[]|[]| |[] m1 e1], f2 as [[]|[]| |[] m2 e2]; try done; cbn.
  rewrite !Z.compare_opp.
  change PosDef.Pos.compare_cont with Pos.compare_cont.
  rewrite Pos.compare_cont_spec; cbn [Pos.switch_Eq].
  change (Z.pos m2 ?= Z.pos m1) with (m2 ?= m1)%positive.
  rewrite (Z.compare_antisym e1 e2), (Pos.compare_antisym m1 m2).
  by destruct (e1 ?= e2), (m1 ?= m2)%positive.
Qed.

Lemma key_compare_spec a b :
  match key_compare a b with
  | Lt => a.1.1 < b.1.1 ∨ (a.1.1 = b.1.1 ∧ (a.1.2 < b.1.2 ∨ (a.1.2 = b.1.2 ∧ a.2 < b.2)))
  | Eq => a = b
  | Gt => b.1.1 < a.1.1 ∨ (a.1.1 = b.1.1 ∧ (b.1.2 < a.1.2 ∨ (a.1.2 = b.1.2 ∧ b.2 < a.2)))
  end.
Proof.
  destruct a as [[a1 a2] a3], b as [[b1 b2] b3]. unfold key_compare; cbn.
  destruct (Z.compare_spec a1 b1); [|lia..].
  destruct (Z.compare_spec a2 b2); [|lia..].
  destruct (Z.compare_spec a3 b3); [congruence|lia..].
Qed.

Implicit Types (a b c : float).

Lemma not_nan_Prim2SF a : (a =? a)%float = true → Prim2SF a ≠ S754_nan.
Proof.
  rewrite FloatAxioms.eqb_spec. intros Heq Hnan. rewrite Hnan in Heq. done.
Qed.

Ltac float_order :=
  rewrite ?FloatAxioms.ltb_spec, ?FloatAxioms.leb_spec, ?FloatAxioms.eqb_spec;
  unfold SFltb, SFleb, SFeqb; rewrite !SFcompare_key by done;
  repeat match goal with
  | |- context [key_compare ?x ?y] =>
      let H := fresh in
      pose proof (key_compare_spec x y) as H; destruct (key_compare x y)
  end;
  repeat match goal with
  | H : context [SFkey ?f] |- _ => destruct (SFkey f) as [[? ?] ?]
  end;
  cbn [fst snd] in *; simplify_eq; try done; try lia.

Lemma float_ltb_not_leb a b :
  (a =? a)%float = true → (b =? b)%float = true →
  (a <? b)%float = negb (b <=? a)%float.
Proof. intros Ha%not_nan_Prim2SF Hb%not_nan_Prim2SF. float_order. Qed.

Lemma float_leb_total a b :
  (a =? a)%float = true → (b =? b)%float = true →
  (a <=? b)%float = true ∨ (b <=? a)%float = true.
Proof.
  intros Ha%not_nan_Prim2SF Hb%not_nan_Prim2SF.
  destruct (a <=? b)%float eqn:Hab; [by left|right]. revert Hab. float_order.
Qed.

Lemma float_eqb_leb a b :
  (a =? a)%float = true → (b =? b)%float = true →
  (a =? b)%float = ((a <=? b)%float && (b <=? a)%float).
Proof. intros Ha%not_nan_Prim2SF Hb%not_nan_Prim2SF. float_order. Qed.

Lemma float_leb_trans a b c :
  (a =? a)%float = true → (b =? b)%float = true → (c =? c)%float = true →
  (c <=? b)%float = true → (b <=? a)%float = true → (c <=? a)%float = true.
Proof.
  intros Ha%not_nan_Prim2SF Hb%not_nan_Prim2SF Hc%not_nan_Prim2SF. float_order.
Qed.

(** *** The sign of a difference *)

Lemma digits2_pos_range (m : positive) :
  2 ^ (Z.pos (digits2_pos m) - 1) ≤ Z.pos m < 2 ^ Z.pos (digits2_pos m).
Proof.
  induction m as [m IH|m IH|]; cbn [digits2_pos]; [| |done];
    rewrite Pos2Z.inj_succ; replace (Z.succ (Z.pos (digits2_pos m)) - 1)
      with (Z.succ (Z.pos (digits2_pos m) - 1)) by lia;
    rewrite !Z.pow_succ_r by lia; lia.
Qed.

Lemma shr_1_m mrs : 0 ≤ shr_m mrs → shr_m (shr_1 mrs) = shr_m mrs / 2.
Proof.
  destruct mrs as [m r s]; cbn [shr_m]. intros Hm.
  destruct m as [|[p|p|]|p]; cbn; try done; try lia.
  - rewrite Pos2Z.inj_xI. apply (Z.div_unique _ 2 _ 1); lia.
  - rewrite Pos2Z.inj_xO. apply (Z.div_unique _ 2 _ 0); lia.
Qed.

Lemma iter_shr_1_m p : ∀ mrs,
  0 ≤ shr_m mrs → shr_m (SpecFloat.iter_pos shr_1 p mrs) = shr_m mrs / 2 ^ Z.pos p.
Proof.
  assert (Hhalf : ∀ mrs, 0 ≤ shr_m mrs → 0 ≤ shr_m (shr_1 mrs)).
  { intros mrs Hm. rewrite shr_1_m by done. apply Z.div_pos; lia. }
  assert (Hpow : ∀ q, 0 < 2 ^ Z.pos q) by (intros q; apply Z.pow_pos_nonneg; lia).
  induction p as [p IH|p IH|]; intros mrs Hm.
  - change (SpecFloat.iter_pos shr_1 p~1 mrs) with
      (SpecFloat.iter_pos shr_1 p (SpecFloat.iter_pos shr_1 p (shr_1 mrs))).
    assert (0 ≤ shr_m (SpecFloat.iter_pos shr_1 p (shr_1 mrs))).
    { rewrite IH by (by apply Hhalf). apply Z.div_pos; [by apply Hhalf|done]. }
    rewrite IH by done. rewrite IH by (by apply Hhalf). rewrite shr_1_m by done.
    specialize (Hpow p).
    rewrite !Z.div_div by lia. f_equal.
    replace (Z.pos p~1) with (Z.pos p + Z.pos p + 1) by lia.
    rewrite !Z.pow_add_r by lia. change (2 ^ 1) with 2. lia.
  - change (SpecFloat.iter_pos shr_1 p~0 mrs) with
      (SpecFloat.iter_pos shr_1 p (SpecFloat.iter_pos shr_1 p mrs)).
    assert (0 ≤ shr_m (SpecFloat.iter_pos shr_1 p mrs)).
    { rewrite IH by done. apply Z.div_pos; [done|done]. }
    rewrite !IH by done. specialize (Hpow p).
    rewrite !Z.div_div by lia. f_equal.
    replace (Z.pos p~0) with (Z.pos p + Z.pos p) by lia.
    rewrite !Z.pow_add_r by lia. lia.
  - change (SpecFloat.iter_pos shr_1 1 mrs) with (shr_1 mrs).
    by rewrite shr_1_m.
Qed.

Lemma iter_xO_value d : ∀ m, Z.pos (Pos.iter xO m d) = Z.pos m * 2 ^ Z.pos d.
Proof.
  induction d as [|d IH] using Pos.peano_ind; intros m.
  - cbn [Pos.iter]. lia.
  - rewrite Pos.iter_succ, Pos2Z.inj_xO, IH, Pos2Z.inj_succ, Z.pow_succ_r by lia. lia.
Qed.

Lemma shl_align_value mx ex ez :
  ez ≤ ex →
  Z.pos (fst (shl_align mx ex ez)) = Z.pos mx * 2 ^ (ex - ez).
Proof.
  intros Hle. unfold shl_align.
  destruct (ez - ex) as [|d|d] eqn:Hd; cbn [fst]; try lia.
  - replace (ex - ez) with 0 by lia. lia.
  - change (PosDef.Pos.iter xO mx d) with (Pos.iter xO mx d).
    rewrite iter_xO_value. do 2 f_equal. lia.
Qed.

Lemma shl_align_exponent mx ex ez :
  snd (shl_align mx ex ez) = Z.min ex ez.
Proof. unfold shl_align. destruct (ez - ex) eqn:Hd; cbn [snd]; lia. Qed.


Lemma shr_record_of_loc_m m l : shr_m (shr_record_of_loc m l) = m.
Proof. by destruct l as [|[]]. Qed.

Lemma shr_fexp_pos m e l :
  0 < m → -1074 ≤ e →
  0 < shr_m (fst (shr_fexp prec emax m e l)) ∧
  -1074 ≤ snd (shr_fexp prec emax m e l).
Proof.
  intros Hm He. unfold shr_fexp, shr.
  destruct m as [|p|p]; try lia.
  change (Zdigits2 (Z.pos p)) with (Z.pos (digits2_pos p)).
  pose proof (digits2_pos_range p) as [Hlo Hhi].
  destruct (fexp prec emax (Z.pos (digits2_pos p) + e) - e) as [|n|n] eqn:Hn;
    cbn [fst snd]; rewrite ?shr_record_of_loc_m; try lia.
  rewrite iter_shr_1_m by (rewrite shr_record_of_loc_m; lia).
  rewrite shr_record_of_loc_m. split; [|lia].
  assert (2 ^ Z.pos n ≤ 2 ^ (Z.pos (digits2_pos p) - 1)).
  { apply Z.pow_le_mono_r; [lia|].
    unfold fexp, SpecFloat.emin, prec, emax in Hn. lia. }
  assert (0 < 2 ^ Z.pos n) by (apply Z.pow_pos_nonneg; lia).
  apply Z.div_str_pos. lia.
Qed.

Lemma round_nearest_even_pos m l : 0 < m → 0 < round_nearest_even m l.
Proof. intros Hm. destruct l as [|[]]; cbn; try lia. destruct (IntDef.Z.even m); lia. Qed.

Lemma binary_round_aux_sign sx m e l :
  0 < m → -1074 ≤ e → signed_as sx (binary_round_aux prec emax sx m e l).
Proof.
  intros Hm He. unfold binary_round_aux.
  pose proof (shr_fexp_pos m e l Hm He) as [Hm1 He1].
  destruct (shr_fexp prec emax m e l) as [mrs1 e1]; cbn [fst snd] in *.
  pose proof (shr_fexp_pos _ e1 loc_Exact
    (round_nearest_even_pos _ (loc_of_shr_record mrs1) Hm1) He1) as [Hm2 He2].
  destruct (shr_fexp prec emax _ e1 loc_Exact) as [mrs2 e2]; cbn [fst snd] in *.
  destruct (shr_m mrs2); try lia. by destruct (e2 <=? emax - prec).
Qed.

Lemma binary_round_sign sx p e :
  -1074 ≤ e → signed_as sx (binary_round prec emax sx p e).
Proof.
  intros He. unfold binary_round.
  pose proof (shl_align_exponent p e (fexp prec emax (Z.pos (digits2_pos p) + e))) as Hs.
  destruct (shl_align p e _) as [mz ez]; cbn [snd] in Hs.
  apply binary_round_aux_sign; [lia|].
  unfold fexp, SpecFloat.emin, prec, emax in Hs. lia.
Qed.

Lemma binary_normalize_sign m e :
  -1074 ≤ e →
  SFltb (S754_zero false) (binary_normalize prec emax m e false) = (0 <? m).
Proof.
  intros He. unfold binary_normalize. destruct m as [|p|p].
  - done.
  - pose proof (binary_round_sign false p e He) as Hs.
    destruct (binary_round prec emax false p e) as [s|s| |s m' e']; cbn in *; by subst.
  - pose proof (binary_round_sign true p e He) as Hs.
    destruct (binary_round prec emax true p e) as [s|s| |s m' e']; cbn in *; by subst.
Qed.

Lemma canonical_bounds m e :
  bounded prec emax m e = true →
  -1074 ≤ e ∧ Z.pos m < 2 ^ 53 ∧ (-1074 < e → 2 ^ 52 ≤ Z.pos m).
Proof.
  unfold bounded, canonical_mantissa, fexp, SpecFloat.emin, prec, emax.
  intros [Hc _]%andb_prop. apply Z.eqb_eq in Hc.
  pose proof (digits2_pos_range m) as [Hlo Hhi].
  split; [lia|]. split.
  - eapply Z.lt_le_trans; [exact Hhi|]. apply Z.pow_le_mono_r; lia.
  - intros He. replace (Z.pos (digits2_pos m)) with 53 in Hlo by lia. exact Hlo.
Qed.

Lemma magnitudes_ordered m1 e1 m2 e2 :
  bounded prec emax m1 e1 = true → bounded prec emax m2 e2 = true →
  Z.pos m1 * 2 ^ (e1 - Z.min e1 e2) < Z.pos m2 * 2 ^ (e2 - Z.min e1 e2) ↔
  e1 < e2 ∨ (e1 = e2 ∧ Z.pos m1 < Z.pos m2).
Proof.
  intros (He1 & Hhi1 & Hlo1)%canonical_bounds (He2 & Hhi2 & Hlo2)%canonical_bounds.
  assert (Hstep : ∀ k, 0 < k → 2 ≤ 2 ^ k).
  { intros k Hk. change 2 with (2 ^ 1) at 1. apply Z.pow_le_mono_r; lia. }
  change (2 ^ 53) with (2 * 2 ^ 52) in *.
  destruct (Z.lt_trichotomy e1 e2) as [Hlt|[->|Hgt]].
  - rewrite Z.min_l by lia. replace (e1 - e1) with 0 by lia.
    specialize (Hstep (e2 - e1)). specialize (Hlo2 ltac:(lia)).
    split; [intros _; left; done|intros _]. nia.
  - rewrite Z.min_id. replace (e2 - e2) with 0 by lia.
    change (2 ^ 0) with 1. lia.
  - rewrite Z.min_r by lia. replace (e2 - e2) with 0 by lia.
    specialize (Hstep (e1 - e2)). specialize (Hlo1 ltac:(lia)).
    split; [intros Hm; exfalso; nia|lia].
Qed.

Lemma SFltb_finite s1 m1 e1 s2 m2 e2 :
  bounded prec emax m1 e1 = true → bounded prec emax m2 e2 = true →
  SFltb (S754_finite s2 m2 e2) (S754_finite s1 m1 e1) =
    (0 <? cond_Zopp s1 (Z.pos m1 * 2 ^ (e1 - Z.min e1 e2))
          - cond_Zopp s2 (Z.pos m2 * 2 ^ (e2 - Z.min e1 e2))).
Proof.
  intros Hb1 Hb2.
  pose proof (magnitudes_ordered m1 e1 m2 e2 Hb1 Hb2) as H12.
  pose proof (magnitudes_ordered m2 e2 m1 e1 Hb2 Hb1) as H21.
  rewrite (Z.min_comm e2 e1) in H21.
  assert (0 < Z.pos m1 * 2 ^ (e1 - Z.min e1 e2)).
  { apply Z.mul_pos_pos; [lia|]. apply Z.pow_pos_nonneg; lia. }
  assert (0 < Z.pos m2 * 2 ^ (e2 - Z.min e1 e2)).
  { apply Z.mul_pos_pos; [lia|]. apply Z.pow_pos_nonneg; lia. }
  unfold SFltb. rewrite SFcompare_key by done.
  pose proof (key_compare_spec (SFkey (S754_finite s2 m2 e2))
    (SFkey (S754_finite s1 m1 e1))) as Hk.
  destruct s1, s2; cbn [SFkey cond_Zopp] in *;
    destruct (key_compare _ _); cbn [fst snd] in Hk;
    symmetry; first [apply Z.ltb_lt | apply Z.ltb_ge]; simplify_eq; lia.
Qed.

Lemma SFsub_sign x y :
  SpecFloat.valid_binary prec emax x = true →
  SpecFloat.valid_binary prec emax y = true →
  SFltb (S754_zero false) (SFsub prec emax x y) = SFltb y x.
Proof.
  intros Hx Hy.
  destruct x as [sx|sx| |sx mx ex], y as [sy|sy| |sy my ey];
    try (by repeat match goal with s : bool |- _ => destruct s end).
  cbn [SFsub SpecFloat.valid_binary] in *.
  change (IntDef.Z.min ex ey) with (Z.min ex ey).
  pose proof (canonical_bounds _ _ Hx) as [? _].
  pose proof (canonical_bounds _ _ Hy) as [? _].
  rewrite binary_normalize_sign by lia.
  rewrite !shl_align_value by lia.
  by rewrite SFltb_finite.
Qed.

Lemma float_sub_sign (a b : float) : (0 <? b - a)%float = (a <? b)%float.
Proof.
  rewrite !FloatAxioms.ltb_spec, FloatAxioms.sub_spec.
  change (Prim2SF 0) with (S754_zero false).
  apply SFsub_sign; apply FloatAxioms.Prim2SF_valid.
Qed.
End float_order.

(** ** The vector index *)

Section rag_worker_facts.
Import JS RagWorker.
Implicit Types (st : State) (m : WorkerMessage).

Lemma TypedArray_set_fits target source offset :
  (offset + length source ≤ length target)%nat →
  ∃ buffer, TypedArray_set target source offset = Some buffer ∧
    length buffer = length target ∧
    take offset buffer = take offset target ∧
    take (length source) (drop offset buffer) = source.
Proof.
  intros Hfit. unfold TypedArray_set.
  destruct (Nat.leb_spec (offset + length source) (length target)); [|lia].
  eexists; split; [done|]. split; [|split].
  - rewrite !length_app, length_take, length_drop. lia.
  - rewrite take_app_le by (rewrite length_take; lia).
    rewrite take_take. f_equal. lia.
  - rewrite drop_app_length' by (rewrite length_take; lia).
    by rewrite take_app_length.
Qed.

(** In a well-formed state an insert of the right length goes through. *)
Lemma index_chunk_accepts id chunkId embedding st :
  well_formed st →
  dimension st = 0%nat ∨ length embedding = dimension st →
  ∃ buffer,
    index_chunk id chunkId embedding st
      = Done (mkState (Some buffer) (ids st ++ [chunkId]) (length embedding) (S (count st))) []
    ∧ (∃ rows, length buffer = (rows * length embedding)%nat ∧ (S (count st) ≤ rows)%nat)
    ∧ take (length embedding) (drop (count st * length embedding) buffer)
        = fround <$> embedding
    ∧ (dimension st ≠ 0%nat → ∀ old, vectors st = Some old →
         take (count st * length embedding) buffer
           = take (count st * length embedding) old).
Proof.
  intros [Hids Hvec] Hdim. unfold index_chunk.
  set (dim := length embedding).
  set (st1 := if (dimension st =? 0)%nat then _ else st).
  assert (Hst1 : st1 = mkState (vectors st) (ids st) dim (count st)).
  { unfold st1. destruct (Nat.eqb_spec (dimension st) 0) as [|Hne]; [done|].
    destruct Hdim as [|Hdim]; [done|]. unfold dim. destruct st; cbn in *. by rewrite Hdim. }
  rewrite Hst1. clear st1 Hst1. cbn [dimension vectors ids count].
  rewrite Nat.eqb_refl. cbn [negb]. unfold grow; cbn [dimension vectors ids count].
  set (rows := Nat.max 1000 (count st + 500)).
  destruct (vectors st) as [old|] eqn:Hold.
  - destruct Hvec as (rows0 & Hlen & Hrows0).
    destruct (Nat.leb_spec (length old) (count st * dim)) as [Hfull|Hroom].
    + destruct (TypedArray_set_fits (Float32Array_new (rows * dim)) old 0)
        as (grown & -> & Hgrown & _ & Hkeep).
      { unfold Float32Array_new. rewrite length_replicate. nia. }
      cbn [vectors count dimension ids default from_option Datatypes.id].
      destruct (TypedArray_set_fits grown (fround <$> embedding) (count st * dim))
        as (buffer & Hset & Hbuffer & Hprefix & Hrow).
      { rewrite length_fmap, Hgrown. unfold Float32Array_new.
        rewrite length_replicate. fold dim. nia. }
      unfold Float32Array_set. rewrite Hset. exists buffer. split; [done|].
      split; [|split].
      * exists rows. rewrite Hbuffer, Hgrown. unfold Float32Array_new.
        rewrite length_replicate. split; lia.
      * by rewrite length_fmap in Hrow.
      * intros Hne old' [= <-]. rewrite Hprefix.
        assert (length old = (count st * dim)%nat) as <-.
        { destruct Hdim as [|Hd]; [done|]. fold dim in Hd. rewrite <- Hd in Hlen. nia. }
        rewrite drop_0 in Hkeep. by rewrite Hkeep, take_ge.
    + cbn [vectors count dimension ids default from_option Datatypes.id].
      assert (dimension st = dim) as Hd.
      { destruct Hdim as [Hd|Hd]; [|done]. rewrite Hd in Hlen. lia. }
      rewrite Hd in Hlen.
      destruct (TypedArray_set_fits old (fround <$> embedding) (count st * dim))
        as (buffer & Hset & Hbuffer & Hprefix & Hrow).
      { rewrite length_fmap. fold dim. rewrite Hlen in *.
        assert (count st < rows0)%nat as Hlt by nia.
        apply (Nat.mul_le_mono_r _ _ dim) in Hlt. rewrite Nat.mul_succ_l in Hlt. lia. }
      unfold Float32Array_set. rewrite Hset. exists buffer. split; [done|].
      split; [|split].
      * exists rows0. rewrite Hbuffer. split; [done|]. nia.
      * by rewrite length_fmap in Hrow.
      * by intros _ old' [= <-].
  - cbn [vectors count dimension ids default from_option Datatypes.id].
    destruct (TypedArray_set_fits (Float32Array_new (rows * dim)) (fround <$> embedding)
                (count st * dim)) as (buffer & Hset & Hbuffer & Hprefix & Hrow).
    { rewrite length_fmap. unfold Float32Array_new. rewrite length_replicate.
      fold dim. nia. }
    unfold Float32Array_set. rewrite Hset. exists buffer. split; [done|].
    split; [|split].
    + exists rows. rewrite Hbuffer. unfold Float32Array_new.
      rewrite length_replicate. split; lia.
    + by rewrite length_fmap in Hrow.
    + by intros _ old' [=].
Qed.

Lemma onmessage_well_formed m st : well_formed st → well_formed (onmessage m st).1.
Proof.
  intros Hwf. destruct m as [id [chunkId content embedding|query topK| |type]];
    unfold onmessage; cbn [msg_request msg_id].
  - destruct (decide (dimension st = 0%nat ∨ length embedding = dimension st)) as [Hok|Hbad].
    + destruct (index_chunk_accepts id chunkId embedding st Hwf Hok)
        as (buffer & -> & Hrows & _). cbn.
      split; [|done]. cbn. rewrite length_app. destruct Hwf as [-> _]. cbn; lia.
    + unfold index_chunk.
      destruct (Nat.eqb_spec (dimension st) 0) as [|_]; [tauto|].
      destruct (Nat.eqb_spec (length embedding) (dimension st)) as [|_]; [tauto|].
      done.
  - unfold search. destruct (vectors st); [|done]. by destruct (count st =? 0)%nat.
  - cbn. split; [done|]. by cbn.
  - done.
Qed.

Lemma reachable_well_formed st : reachable st → well_formed st.
Proof.
  induction 1 as [|m st _ IH]; [|by apply onmessage_well_formed].
  split; [done|]. by cbn.
Qed.

Lemma index_run_nil st : run [] st = (st, []).
Proof. done. Qed.

Lemma index_run_snoc messages m st :
  run (messages ++ [m]) st
  = ((onmessage m (run messages st).1).1,
     (run messages st).2 ++ (onmessage m (run messages st).1).2).
Proof.
  unfold run. rewrite foldl_app. cbn.
  by destruct (onmessage m _).
Qed.

Lemma index_run_reachable messages st : reachable st → reachable (run messages st).1.
Proof.
  intros Hst. induction messages as [|m messages IH] using rev_ind; [done|].
  rewrite index_run_snoc. by constructor.
Qed.

Lemma index_run_cons m messages st :
  (run (m :: messages) st).1 = (run messages (onmessage m st).1).1.
Proof.
  induction messages as [|m' messages IH] using rev_ind.
  - change [m] with ([] ++ [m]). by rewrite index_run_snoc.
  - by rewrite app_comm_cons, !index_run_snoc, IH.
Qed.

(** *** The dimension latch *)

Lemma index_chunk_rejects id chunkId embedding st :
  dimension st ≠ 0%nat → length embedding ≠ dimension st →
  index_chunk id chunkId embedding st
  = Done st [replyError id ("Dimension mismatch: expected " +:+ pretty (dimension st)
                            +:+ ", got " +:+ pretty (length embedding))].
Proof.
  intros Hlatched Hlen. unfold index_chunk.
  destruct (Nat.eqb_spec (dimension st) 0) as [|_]; [done|].
  by destruct (Nat.eqb_spec (length embedding) (dimension st)).
Qed.

Lemma first_insert_latches id chunkId content embedding st :
  well_formed st → dimension st = 0%nat →
  dimension (onmessage (mkMessage id (INDEX_CHUNK chunkId content embedding)) st).1
  = length embedding.
Proof.
  intros Hwf Hdim. unfold onmessage; cbn [msg_request msg_id].
  by destruct (index_chunk_accepts id chunkId embedding st Hwf (or_introl Hdim))
    as (buffer & -> & _).
Qed.

Lemma latched_until_clear m st :
  well_formed st → dimension st ≠ 0%nat → msg_request m ≠ CLEAR →
  dimension (onmessage m st).1 = dimension st.
Proof.
  intros Hwf Hlatched Hm.
  destruct m as [id [chunkId content embedding|query topK| |type]];
    unfold onmessage; cbn [msg_request msg_id] in *; [| |done|done].
  - destruct (decide (length embedding = dimension st)) as [Hlen|Hlen].
    + destruct (index_chunk_accepts id chunkId embedding st Hwf (or_intror Hlen))
        as (buffer & -> & _). done.
    + by rewrite index_chunk_rejects.
  - unfold search. destruct (vectors st); [|done]. by destruct (count st =? 0)%nat.
Qed.

Lemma index_run_latched messages st :
  well_formed st → dimension st ≠ 0%nat →
  Forall (λ m, msg_request m ≠ CLEAR) messages →
  dimension (run messages st).1 = dimension st.
Proof.
  intros Hwf Hlatched. induction messages as [|m messages IH] using rev_ind; [done|].
  intros [Hmessages Hm%Forall_inv]%Forall_app. rewrite index_run_snoc; cbn [fst].
  rewrite <- (IH Hmessages). apply latched_until_clear; [|by rewrite IH|done].
  clear IH Hm Hmessages. induction messages as [|m' messages IH] using rev_ind; [done|].
  rewrite index_run_snoc. by apply onmessage_well_formed.
Qed.

(** C2: once a first insert of a (non-empty) vector has latched the
    dimension of the index, and until the index is cleared, an [INDEX_CHUNK]
    message whose embedding has another length is answered by an error reply
    that names both lengths, and the index is left as it was: the buffer,
    the id list, the count and the dimension are all those of before. *)
Theorem dimension_mismatch_rejected st0 id0 chunkId0 content0 first rest
    id chunkId content embedding :
  reachable st0 → dimension st0 = 0%nat → first ≠ [] →
  Forall (λ m, msg_request m ≠ CLEAR) rest →
  length embedding ≠ length first →
  let st := (run (mkMessage id0 (INDEX_CHUNK chunkId0 content0 first) :: rest) st0).1 in
  dimension st = length first ∧
  onmessage (mkMessage id (INDEX_CHUNK chunkId content embedding)) st
  = (st, [mkReply id "ERROR" Null
            (Some ("Dimension mismatch: expected " +:+ pretty (length first)
                   +:+ ", got " +:+ pretty (length embedding)))]).
Proof.
  intros Hst0%reachable_well_formed Hdim Hfirst Hrest Hlen st.
  assert (Hlatched : dimension st = length first).
  { unfold st. rewrite index_run_cons, index_run_latched; [|by apply onmessage_well_formed| |done].
    - by apply first_insert_latches.
    - rewrite first_insert_latches by done. by destruct first. }
  split; [done|]. unfold onmessage; cbn [msg_request msg_id].
  rewrite index_chunk_rejects, Hlatched; [done| |congruence].
  rewrite Hlatched. by destruct first.
Qed.

(** *** Search *)

Lemma accumulate_reads query buffer offset n : ∀ j dot normA normB,
  (offset + j + n ≤ length buffer)%nat →
  accumulate query buffer offset j n dot normA normB
  = (foldl (λ acc ab, (acc + ab.1 * ab.2)%float) dot
       (zip (get_number query <$> seq j n) (take n (drop (offset + j) buffer))),
     foldl (λ acc a, (acc + a * a)%float) normA (get_number query <$> seq j n),
     foldl (λ acc a, (acc + a * a)%float) normB (take n (drop (offset + j) buffer))).
Proof.
  induction n as [|n IH]; intros j dot normA normB Hbuffer; [done|].
  destruct (lookup_lt_is_Some_2 buffer (offset + j)) as [b Hb]; [lia|].
  assert (Hget : get_number buffer (offset + j) = b).
  { unfold get_number. by rewrite Hb. }
  cbn [accumulate seq fmap list_fmap]. rewrite IH by lia.
  rewrite Hget, (drop_S _ _ _ Hb). by rewrite Nat.add_succ_r.
Qed.

Lemma row_score_reads query st buffer i :
  vectors st = Some buffer →
  (i * dimension st + dimension st ≤ length buffer)%nat →
  row_score query buffer (dimension st) i
  = cosine (query_read query (dimension st)) (row st i).
Proof.
  intros Hbuffer Hrow. unfold row_score. rewrite accumulate_reads by lia.
  unfold cosine, dot, norm, row, query_read.
  by rewrite Hbuffer, Nat.add_0_r; cbn [default from_option Datatypes.id].
Qed.

Lemma query_read_full query : query_read query (length query) = query.
Proof.
  apply list_eq. intros i. unfold query_read. rewrite list_lookup_fmap.
  destruct (decide (i < length query)%nat) as [Hi|Hi].
  - rewrite lookup_seq_lt by done. cbn. unfold get_number.
    destruct (lookup_lt_is_Some_2 query i Hi) as [a ->]. done.
  - rewrite lookup_seq_ge by lia. symmetry. apply lookup_ge_None. lia.
Qed.

Lemma slice0_negative {A : Type} (a : list A) (n : Z) :
  n < 0 → slice0 a n = take (length a - Z.to_nat (- n)) a.
Proof.
  intros Hn. unfold slice0. destruct (Z.ltb_spec n 0) as [_|]; [|lia].
  f_equal. lia.
Qed.

Lemma score_rows_fmap query buffer dim ids n : ∀ i,
  score_rows query buffer dim ids i n
  = (λ k, mkScored (ids !! k) (row_score query buffer dim k)) <$> seq i n.
Proof. induction n as [|n IH]; intros i; cbn; [done|]. by rewrite IH. Qed.

Lemma slice0_take {A : Type} (a : list A) (n : Z) :
  0 ≤ n → slice0 a n = take (Z.to_nat n) a.
Proof.
  intros Hn. unfold slice0. destruct (Z.ltb_spec n 0) as [|_]; [lia|].
  destruct (Z.le_gt_cases n (Z.of_nat (length a))) as [Hle|Hgt].
  - by rewrite Z.min_l.
  - rewrite Z.min_r, Nat2Z.id by lia. by rewrite !take_ge by lia.
Qed.

Lemma no_NaN_spec scores a b :
  no_NaN scores = true → a ∈ scores → b ∈ scores →
  (0 <? b - a)%float = (a <? b)%float ∧
  (a <? b)%float = negb (b <=? a)%float ∧
  ((a <=? b)%float = true ∨ (b <=? a)%float = true) ∧
  (a =? b)%float = ((a <=? b)%float && (b <=? a)%float) ∧
  ∀ c, c ∈ scores → (c <=? b)%float = true → (b <=? a)%float = true →
       (c <=? a)%float = true.
Proof.
  unfold no_NaN. rewrite forallb_forall. intros H Ha%list_elem_of_In Hb%list_elem_of_In.
  pose proof (H a Ha) as Hna. pose proof (H b Hb) as Hnb.
  split; [apply float_sub_sign|]. split; [by apply float_ltb_not_leb|].
  split; [by apply float_leb_total|]. split; [by apply float_eqb_leb|].
  intros c Hc%list_elem_of_In. apply float_leb_trans; auto.
Qed.

Lemma StronglySorted_impl {A : Type} (R1 R2 : A → A → Prop) (l : list A) :
  (∀ x y, x ∈ l → y ∈ l → R1 x y → R2 x y) →
  StronglySorted R1 l → StronglySorted R2 l.
Proof.
  induction l as [|x l IH]; intros Himpl Hsorted; [constructor|].
  apply StronglySorted_inv in Hsorted as [Hsorted Hx]. constructor.
  - apply IH; [|done]. intros y z Hy Hz. apply Himpl; by right.
  - rewrite Forall_forall in Hx |- *. intros y Hy.
    apply Himpl; [left|by right|by apply Hx].
Qed.

Lemma StronglySorted_lt_seq i n : StronglySorted lt (seq i n).
Proof.
  revert i. induction n as [|n IH]; intros i; cbn; constructor; [done|].
  apply Forall_forall. intros j Hj%elem_of_seq. lia.
Qed.

(** C3: a search on an index that holds no vector is answered by an empty
    result list.  On an index of [count] rows, for every query and every
    [topK], provided that no score is NaN, the answer is [slice(0, topK)] of
    the pairs of id and score, taken in an order of the rows that is
    descending by score and keeps rows of equal score in insertion order:
    the first [topK] pairs for a [topK] that is not negative, all of them
    when [topK] is [count] or more, and all but the last [-topK] for a
    negative [topK].  The score of row [i] is the cosine of the query and
    row [i] with [1e-8] added to the denominator, for the query as the loop
    reads it: as single-precision numbers, at the positions of the index's
    dimension, which is the whole query when it has that many components.
    The order is that of the comparison function [b.score - a.score], which
    orders all scores as long as none of them is NaN. *)
Theorem search_postcondition st id queryEmbedding topK :
  reachable st →
  let request := mkMessage id (SEARCH queryEmbedding topK) in
  let query := query_read (Float32Array_from queryEmbedding) (dimension st) in
  let s := λ i, cosine query (row st i) in
  let scored := λ i, mkScored (ids st !! i) (s i) in
  (length queryEmbedding = dimension st → query = Float32Array_from queryEmbedding) ∧
  (count st = 0%nat →
   onmessage request st = (st, [mkReply id "SEARCH_RESULT" (Results []) None])) ∧
  (count st ≠ 0%nat → no_NaN (s <$> seq 0 (count st)) = true →
   ∃ order,
     order ≡ₚ seq 0 (count st) ∧
     StronglySorted (ranks_before s) order ∧
     (∀ i, i ∈ order → ∃ chunkId, ids st !! i = Some chunkId) ∧
     onmessage request st
     = (st, [mkReply id "SEARCH_RESULT" (Results (slice0 (scored <$> order) topK)) None]) ∧
     (0 ≤ topK →
      slice0 (scored <$> order) topK = take (Z.to_nat topK) (scored <$> order)) ∧
     (Z.of_nat (count st) ≤ topK → slice0 (scored <$> order) topK = scored <$> order) ∧
     (topK < 0 →
      slice0 (scored <$> order) topK
      = take (count st - Z.to_nat (- topK)) (scored <$> order))).
Proof.
  intros Hwf%reachable_well_formed request query s scored. split; [|split].
  - intros Hquery. unfold query. rewrite <- Hquery.
    unfold Float32Array_from at 2. rewrite <- (length_fmap fround).
    apply query_read_full.
  - intros Hcount. unfold onmessage, search; cbn [request msg_request msg_id].
    rewrite Hcount. by destruct (vectors st).
  - intros Hcount Hcons. destruct Hwf as [Hids Hvec].
    destruct (vectors st) as [buffer|] eqn:Hbuffer; [|by destruct Hvec].
    destruct Hvec as (rows & Hlen & Hrows).
    set (comparefn := λ i j, by_score_desc (scored i) (scored j)).
    exists (sort comparefn (seq 0 (count st))).
    assert (Hscore : ∀ i, i ∈ seq 0 (count st) → s i ∈ s <$> seq 0 (count st)).
    { intros i Hi. by apply list_elem_of_fmap_2. }
    assert (Hafter : ∀ i j, i ∈ seq 0 (count st) → j ∈ seq 0 (count st) →
              goes_after comparefn i j = (s i <? s j)%float).
    { intros i j Hi%Hscore Hj%Hscore.
      destruct (no_NaN_spec _ _ _ Hcons Hi Hj) as [Hsign _].
      unfold goes_after, comparefn, by_score_desc, scored; cbn [score]. exact Hsign. }
    assert (Hall : length (scored <$> sort comparefn (seq 0 (count st))) = count st).
    { by rewrite length_fmap, sort_length, length_seq. }
    split; [apply sort_perm|]. split; [|split; [|split; [|split; [|split]]]].
    + eapply StronglySorted_impl; [|apply sort_stable].
      * intros i j Hi Hj [Hij Htie]. rewrite sort_perm in Hi, Hj.
        rewrite Hafter in Hij, Htie by done.
        destruct (no_NaN_spec _ _ _ Hcons (Hscore i Hi) (Hscore j Hj))
          as (_ & Hlt & _ & Heq & _).
        destruct (no_NaN_spec _ _ _ Hcons (Hscore j Hj) (Hscore i Hi))
          as (_ & Hlt' & _ & _ & _).
        split.
        -- rewrite Hlt in Hij. by destruct (s j <=? s i)%float.
        -- rewrite Heq. intros [Hle _]%andb_true_iff. apply Htie.
           by rewrite Hlt', Hle.
      * split.
        -- intros i j Hi Hj. rewrite !Hafter by done.
           destruct (no_NaN_spec _ _ _ Hcons (Hscore i Hi) (Hscore j Hj))
             as (_ & Hlt & Htotal & _).
           destruct (no_NaN_spec _ _ _ Hcons (Hscore j Hj) (Hscore i Hi))
             as (_ & Hlt' & _ & _ & _).
           rewrite Hlt, Hlt'. intros Hji%negb_true_iff.
           destruct Htotal as [->|Hji']; [done|congruence].
        -- intros i j k Hi Hj Hk. rewrite !Hafter by done.
           destruct (no_NaN_spec _ _ _ Hcons (Hscore i Hi) (Hscore j Hj))
             as (_ & Hij & _ & _ & Htrans).
           destruct (no_NaN_spec _ _ _ Hcons (Hscore j Hj) (Hscore k Hk))
             as (_ & Hjk & _).
           destruct (no_NaN_spec _ _ _ Hcons (Hscore i Hi) (Hscore k Hk))
             as (_ & Hik & _).
           rewrite Hij, Hjk, Hik. intros Hji%negb_false_iff Hkj%negb_false_iff.
           apply negb_false_iff, (Htrans (s k)); [by apply Hscore|done..].
      * apply StronglySorted_lt_seq.
    + intros i. rewrite sort_perm. intros [_ Hi]%elem_of_seq.
      apply lookup_lt_is_Some_2. lia.
    + unfold onmessage, search; cbn [request msg_request msg_id].
      rewrite Hbuffer. destruct (Nat.eqb_spec (count st) 0) as [|_]; [done|].
      rewrite score_rows_fmap.
      rewrite (list_fmap_ext _ scored (seq 0 (count st))).
      * by rewrite sort_fmap.
      * intros k i [-> Hi]%lookup_seq. unfold scored, s. f_equal.
        apply row_score_reads; [done|].
        cbn in Hi |- *. rewrite Hlen.
        assert (S k ≤ rows)%nat as Hk by lia.
        apply (Nat.mul_le_mono_r _ _ (dimension st)) in Hk.
        rewrite Nat.mul_succ_l in Hk. lia.
    + apply slice0_take.
    + intros Hmore. rewrite slice0_take by lia. apply take_ge. lia.
    + intros Hneg. rewrite slice0_negative by done. by rewrite Hall.
Qed.
End rag_worker_facts.

(** ** The chunker *)

Section parser_worker_facts.
Import ParserWorker.
Implicit Types (text : jsstring) (chapter : Chapter) (chunks : list TextChunk).

Lemma windows_spec len step k :
  0 < step → (Z.of_nat k * step <? Z.of_nat len) = true ↔ (k < windows len step)%nat.
Proof.
  intros Hstep. unfold windows. rewrite Z.ltb_lt.
  pose proof (Z.div_mod (Z.of_nat len + step - 1) step ltac:(lia)) as Hdiv.
  pose proof (Z.mod_pos_bound (Z.of_nat len + step - 1) step Hstep) as Hmod.
  assert (0 ≤ (Z.of_nat len + step - 1) / step) by (apply Z.div_pos; lia).
  split; intros Hk.
  - apply Nat2Z.inj_lt. rewrite Z2Nat.id by done. nia.
  - apply Nat2Z.inj_lt in Hk. rewrite Z2Nat.id in Hk by done. nia.
Qed.

Lemma slice_window text chunkSize step k :
  0 < step → 0 ≤ chunkSize → (Z.of_nat k * step < Z.of_nat (length text)) →
  slice text (Z.of_nat k * step)
    (Z.min (Z.of_nat k * step + chunkSize) (Z.of_nat (length text)))
  = window text chunkSize step k.
Proof.
  intros Hstep Hsize Hk. unfold slice, window.
  destruct (Z.ltb_spec (Z.of_nat k * step) 0) as [|_]; [lia|].
  destruct (Z.ltb_spec (Z.min (Z.of_nat k * step + chunkSize) (Z.of_nat (length text))) 0)
    as [|_]; [lia|].
  rewrite (Z.min_l (Z.of_nat k * step)) by lia.
  rewrite (Z.min_l (Z.min _ _)) by lia.
  replace (Z.to_nat (Z.of_nat k * step)) with (k * Z.to_nat step)%nat by lia.
  destruct (Z.le_gt_cases (Z.of_nat k * step + chunkSize) (Z.of_nat (length text))).
  - rewrite Z.min_l by done. f_equal. lia.
  - rewrite Z.min_r by lia. rewrite !take_ge; [done|rewrite length_drop; lia..].
Qed.

(** Under valid parameters the window loop ends, with one chunk per window. *)
Lemma window_loop_closed_form chapter text chunkSize overlap fuel : ∀ k chunks,
  0 ≤ overlap < chunkSize →
  (k ≤ windows (length text) (chunkSize - overlap))%nat →
  (windows (length text) (chunkSize - overlap) - k < fuel)%nat →
  window_loop fuel chapter text chunkSize overlap
    (Z.of_nat k * (chunkSize - overlap)) (N.of_nat k) chunks
  = Some (chunks ++
      ((λ k, mkChunk (chapter_id chapter ++ literal "-chunk-" ++ decimal (N.of_nat k))
                     (chapter_id chapter) (chapter_title chapter)
                     (window text chunkSize (chunkSize - overlap) k))
       <$> seq k (windows (length text) (chunkSize - overlap) - k))).
Proof.
  induction fuel as [|fuel IH]; intros k chunks Hvalid Hk Hfuel; [lia|].
  cbn [window_loop].
  destruct (Z.of_nat k * (chunkSize - overlap) <? Z.of_nat (length text)) eqn:Hstart.
  - pose proof Hstart as Hlt%Z.ltb_lt. apply windows_spec in Hstart; [|lia].
    rewrite slice_window by lia.
    replace (Z.of_nat k * (chunkSize - overlap) + (chunkSize - overlap))
      with (Z.of_nat (S k) * (chunkSize - overlap)) by lia.
    replace (N.of_nat k + 1)%N with (N.of_nat (S k)) by lia.
    rewrite IH by lia. rewrite <- app_assoc.
    replace (windows (length text) (chunkSize - overlap) - k)%nat
      with (S (windows (length text) (chunkSize - overlap) - S k)) by lia.
    done.
  - assert (¬ (k < windows (length text) (chunkSize - overlap))%nat) as Hdone.
    { rewrite <- windows_spec by lia. by rewrite Hstart. }
    replace (windows (length text) (chunkSize - overlap) - k)%nat with 0%nat by lia.
    by rewrite app_nil_r.
Qed.

Lemma chapters_loop_closed_form chunkSize overlap fuel chapters : ∀ chunks,
  0 ≤ overlap < chunkSize →
  Forall (λ chapter,
    (windows (length (plain_text chapter)) (chunkSize - overlap) < fuel)%nat) chapters →
  chapters_loop fuel chapters chunkSize overlap chunks
  = Returned (chunks ++ (chapters ≫= chapter_chunks chunkSize overlap)).
Proof.
  induction chapters as [|chapter chapters IH]; intros chunks Hvalid Hfuel.
  { cbn. by rewrite app_nil_r. }
  apply Forall_cons in Hfuel as [Hchapter Hfuel].
  rewrite bind_cons. cbn [chapters_loop]. unfold chapter_chunks at 1.
  destruct (length (plain_text chapter) <? 50)%nat; [by apply IH|].
  pose proof (window_loop_closed_form chapter (plain_text chapter) chunkSize overlap
                fuel 0 chunks Hvalid) as Hloop.
  rewrite Z.mul_0_l, Nat.sub_0_r in Hloop. change (N.of_nat 0) with 0%N in Hloop.
  rewrite Hloop by lia. rewrite IH by done.
  by rewrite app_assoc.
Qed.

(** With [overlap >= chunkSize] the window does not advance: while rounds
    are left the loop goes on, whatever their number. *)
Lemma window_loop_stuck chapter text chunkSize overlap fuel : ∀ start index chunks,
  chunkSize ≤ overlap → start ≤ 0 → (0 < length text)%nat →
  window_loop fuel chapter text chunkSize overlap start index chunks = None.
Proof.
  induction fuel as [|fuel IH]; intros start index chunks Hstep Hstart Htext; [done|].
  cbn [window_loop]. destruct (Z.ltb_spec start (Z.of_nat (length text))); [|lia].
  apply IH; lia.
Qed.

Lemma chapters_loop_not_thrown fuel chapters chunkSize overlap : ∀ chunks,
  ¬ rejected (chapters_loop fuel chapters chunkSize overlap chunks).
Proof.
  induction chapters as [|chapter chapters IH]; intros chunks [message Hthrown].
  - done.
  - cbn [chapters_loop] in Hthrown.
    destruct (length (plain_text chapter) <? 50)%nat; [by eapply IH; eexists|].
    destruct (window_loop _ _ _ _ _ _ _ _); [by eapply IH; eexists|done].
Qed.

Lemma chapters_loop_all_short fuel chapters chunkSize overlap : ∀ chunks,
  Forall (λ chapter, (length (plain_text chapter) < 50)%nat) chapters →
  chapters_loop fuel chapters chunkSize overlap chunks = Returned chunks.
Proof.
  induction chapters as [|chapter chapters IH]; intros chunks Hshort; [done|].
  apply Forall_cons in Hshort as [Hchapter Hshort]. cbn [chapters_loop].
  destruct (Nat.ltb_spec (length (plain_text chapter)) 50); [by apply IH|lia].
Qed.

Lemma chapters_loop_stuck fuel chapters chunkSize overlap : ∀ chunks,
  chunkSize ≤ overlap →
  Exists (λ chapter, (50 ≤ length (plain_text chapter))%nat) chapters →
  chapters_loop fuel chapters chunkSize overlap chunks = Running.
Proof.
  induction chapters as [|chapter chapters IH]; intros chunks Hstep Hlong.
  { by apply Exists_nil in Hlong. }
  cbn [chapters_loop].
  destruct (Nat.ltb_spec (length (plain_text chapter)) 50) as [Hshort|Hchapter].
  - apply IH; [done|]. apply Exists_cons in Hlong as [Hchapter|Hlong]; [lia|done].
  - rewrite window_loop_stuck; [done|done|done|lia].
Qed.

(** C4 (as the code has it): the chunker does not compare [overlap] with
    [chunkSize] and never ends in an error.  When [overlap >= chunkSize], a
    call whose chapters all clean to fewer than 50 characters returns no
    chunks; a call with a longer chapter is still in its window loop after
    any number of rounds, since the start of the window never moves forward. *)
Theorem chunker_unvalidated_overlap fuel chapters chunkSize overlap :
  chunkSize ≤ overlap →
  let result := chunkBookContent fuel chapters (Some chunkSize) (Some overlap) in
  ¬ rejected result ∧
  (Forall (λ chapter, (length (plain_text chapter) < 50)%nat) chapters →
   result = Returned []) ∧
  (Exists (λ chapter, (50 ≤ length (plain_text chapter))%nat) chapters →
   result = Running).
Proof.
  intros Hstep result. split; [apply chapters_loop_not_thrown|]. split.
  - apply chapters_loop_all_short.
  - by apply chapters_loop_stuck.
Qed.

(** *** Overlap of consecutive windows *)

Lemma window_length text (size step k : nat) :
  length (take size (drop (k * step) text)) = (size `min` (length text - k * step))%nat.
Proof. by rewrite length_take, length_drop. Qed.

Lemma consecutive_windows_overlap text (size step k : nat) :
  (step ≤ size)%nat → (S k * step < length text)%nat →
  let first := take size (drop (k * step) text) in
  let second := take size (drop (S k * step) text) in
  overlaps_by first second (length first - step) ∧
  (length first - step ≤ size - step)%nat ∧
  (length first = size → (length first - step = size - step)%nat) ∧
  ((length first < size)%nat → (length first - step)%nat = length second).
Proof.
  intros Hstep Hnext first second.
  assert (Hfirst : length first = (size `min` (length text - k * step))%nat)
    by apply window_length.
  assert (Hsecond : length second = (size `min` (length text - S k * step))%nat)
    by apply window_length.
  cbn [Nat.mul] in *. split; [|lia]. split; [lia|]. split; [lia|].
  replace (length first - (length first - step))%nat with step by lia.
  unfold first, second. rewrite skipn_firstn_comm, drop_drop, take_take.
  replace (k * step + step)%nat with (step + k * step)%nat by lia.
  fold first. rewrite Hfirst.
  destruct (Nat.le_gt_cases size (length text - k * step)).
  - f_equal. lia.
  - rewrite !take_ge; [done|rewrite length_drop; lia..].
Qed.

Lemma chapter_chunks_lookup chunkSize overlap chapter k chunk :
  chapter_chunks chunkSize overlap chapter !! k = Some chunk →
  (50 ≤ length (plain_text chapter))%nat ∧
  (k < windows (length (plain_text chapter)) (chunkSize - overlap))%nat ∧
  chapterId chunk = chapter_id chapter ∧
  content chunk = window (plain_text chapter) chunkSize (chunkSize - overlap) k.
Proof.
  unfold chapter_chunks.
  destruct (Nat.ltb_spec (length (plain_text chapter)) 50) as [|Hlong]; [done|].
  rewrite list_lookup_fmap. intros [i [[-> Hk]%lookup_seq ->]]%fmap_Some.
  done.
Qed.

(** C5 (as the code has it): for parameters with [0 <= overlap < chunkSize]
    the chunker returns, given rounds enough, the windows of each chapter in
    turn.  No chunk is longer than [chunkSize]; a chapter whose cleaned text
    is shorter than 50 characters gives no chunk.  Two chunks that follow
    each other in a chapter share the end of the first and the start of the
    second: exactly [overlap] characters when the first has the full length
    [chunkSize], and otherwise the whole of the second, which is then
    shorter than [overlap].  When [2 * overlap <= chunkSize] the first of a
    pair is of full length unless the second is the last chunk of the
    chapter. *)
Theorem chunker_windows chapters chunkSize overlap :
  0 ≤ overlap < chunkSize →
  let chunks := chapters ≫= chapter_chunks chunkSize overlap in
  (∃ rounds, ∀ fuel, (rounds ≤ fuel)%nat →
     chunkBookContent fuel chapters (Some chunkSize) (Some overlap) = Returned chunks) ∧
  (∀ chunk, chunk ∈ chunks → Z.of_nat (length (content chunk)) ≤ chunkSize) ∧
  (∀ chapter,
     ((length (plain_text chapter) < 50)%nat →
      chapter_chunks chunkSize overlap chapter = []) ∧
     ∀ k first second,
       chapter_chunks chunkSize overlap chapter !! k = Some first →
       chapter_chunks chunkSize overlap chapter !! S k = Some second →
       let shared := (length (content first) - Z.to_nat (chunkSize - overlap))%nat in
       overlaps_by (content first) (content second) shared ∧
       (shared ≤ Z.to_nat overlap)%nat ∧
       (Z.of_nat (length (content first)) = chunkSize → shared = Z.to_nat overlap) ∧
       (Z.of_nat (length (content first)) < chunkSize →
        shared = length (content second) ∧ (shared < Z.to_nat overlap)%nat) ∧
       (2 * overlap ≤ chunkSize →
        is_Some (chapter_chunks chunkSize overlap chapter !! S (S k)) →
        shared = Z.to_nat overlap)).
Proof.
  intros Hvalid chunks. split; [|split].
  - exists (S (foldr Nat.max 0%nat
              ((λ chapter, windows (length (plain_text chapter)) (chunkSize - overlap))
               <$> chapters))).
    intros fuel Hfuel. unfold chunkBookContent; cbn [default from_option Datatypes.id].
    rewrite chapters_loop_closed_form; [done|done|].
    clear chunks. induction chapters as [|chapter chapters IH]; [constructor|].
    cbn [fmap list_fmap foldr] in Hfuel. constructor; [lia|]. apply IH. lia.
  - intros chunk (chapter & Hchunk & _)%list_elem_of_bind.
    apply list_elem_of_lookup in Hchunk as [k Hk].
    apply chapter_chunks_lookup in Hk as (_ & _ & _ & ->).
    unfold window. rewrite length_take. lia.
  - intros chapter. split.
    { unfold chapter_chunks. intros Hshort.
      by destruct (Nat.ltb_spec (length (plain_text chapter)) 50); [|lia]. }
    intros k first second Hfirst Hsecond shared.
    apply chapter_chunks_lookup in Hfirst as (_ & _ & _ & Hfirst).
    pose proof Hsecond as (_ & Hnext & _ & Hsecond')%chapter_chunks_lookup.
    apply windows_spec in Hnext; [|lia]. apply Z.ltb_lt in Hnext.
    set (text := plain_text chapter) in *.
    destruct (consecutive_windows_overlap text (Z.to_nat chunkSize)
                (Z.to_nat (chunkSize - overlap)) k)
      as (Hoverlap & Hle & Hfull & Hshort); [lia..|].
    unfold shared. rewrite Hfirst, Hsecond'. unfold window.
    split; [done|]. clear Hoverlap.
    rewrite window_length in Hle, Hfull, Hshort |- *.
    split; [lia|]. split; [lia|]. split.
    + intros Hlt. split; [apply Hshort; lia|]. lia.
    + intros Hhalf [third (_ & Hthird & _)%chapter_chunks_lookup].
      fold text in Hthird. apply windows_spec in Hthird; [|lia].
      apply Z.ltb_lt in Hthird. lia.
Qed.
End parser_worker_facts.

(** ** The provider call *)

Section ai_facts.
Import Ai.

Lemma fetches_retry i delay effects :
  fetches (Fetch i :: Sleep delay :: effects) = i :: fetches effects.
Proof. done. Qed.

(** The shape of a run of the retry loop: the attempts are consecutive, and
    what follows an attempt is decided by what it came to. *)
Lemma attempts_trace fetch random maxRetries n : ∀ i lastError,
  let run := attempts fetch random maxRetries i n lastError in
  (∃ made, (made ≤ n)%nat ∧ fetches run.1 = seq i made) ∧
  ∀ before j after, run.1 = before ++ Fetch j :: after →
    (i ≤ j < i + n)%nat ∧
    match fetch j with
    | Responded status =>
        if ok status || negb (retried status)
        then after = [] ∧ run.2 = Returns status
        else ∃ rest, after = Sleep (backoff j (random j)) :: rest ∧
             ((S j < i + n)%nat → ∃ rest', rest = Fetch (S j) :: rest') ∧
             ((S j = i + n)%nat → rest = [] ∧ ∃ error, run.2 = Throws error)
    | Failed error =>
        ∃ rest, after = Sleep (backoff j (random j)) :: rest ∧
          ((S j < i + n)%nat → ∃ rest', rest = Fetch (S j) :: rest') ∧
          ((S j = i + n)%nat → rest = [] ∧ ∃ error, run.2 = Throws error)
    end.
Proof.
  induction n as [|n IH]; intros i lastError run.
  { split; [by exists 0%nat|]. intros [|??] ?? [=]. }
  assert (Hretry : ∀ last,
    run = (Fetch i :: Sleep (backoff i (random i))
             :: (attempts fetch random maxRetries (S i) n last).1,
           (attempts fetch random maxRetries (S i) n last).2) →
    (fetch i = Failed (default "" last) ∨
     ∃ status, fetch i = Responded status ∧ (ok status || negb (retried status)) = false) →
    (∃ made, (made ≤ S n)%nat ∧ fetches run.1 = seq i made) ∧
    ∀ before j after, run.1 = before ++ Fetch j :: after →
      (i ≤ j < i + S n)%nat ∧
      match fetch j with
      | Responded status =>
          if ok status || negb (retried status)
          then after = [] ∧ run.2 = Returns status
          else ∃ rest, after = Sleep (backoff j (random j)) :: rest ∧
               ((S j < i + S n)%nat → ∃ rest', rest = Fetch (S j) :: rest') ∧
               ((S j = i + S n)%nat → rest = [] ∧ ∃ error, run.2 = Throws error)
      | Failed error =>
          ∃ rest, after = Sleep (backoff j (random j)) :: rest ∧
            ((S j < i + S n)%nat → ∃ rest', rest = Fetch (S j) :: rest') ∧
            ((S j = i + S n)%nat → rest = [] ∧ ∃ error, run.2 = Throws error)
      end).
  { intros last -> Hfetch. destruct (IH (S i) last) as [(made & Hmade & Hseq) Hrest].
    cbn zeta in Hseq, Hrest. cbn [fst snd]. split.
    - exists (S made). split; [lia|]. by rewrite fetches_retry, Hseq.
    - intros [|e1 [|e2 before]] j after; cbn; intros [= ]; subst.
      + split; [lia|].
        assert (∃ rest, Sleep (backoff j (random j))
                          :: (attempts fetch random maxRetries (S j) n last).1
                        = Sleep (backoff j (random j)) :: rest ∧
                  ((S j < j + S n)%nat → ∃ rest', rest = Fetch (S j) :: rest') ∧
                  ((S j = j + S n)%nat → rest = [] ∧
                     ∃ error, (attempts fetch random maxRetries (S j) n last).2
                              = Throws error)) as Hgoal.
        { eexists; split; [done|]. split.
          - intros Hmore. destruct n as [|n]; [lia|]. cbn.
            destruct (fetch (S j)) as [status|error]; [|by eexists].
            destruct (ok status); [by eexists|].
            destruct (retried status); by eexists.
          - intros Hlast. assert (n = 0%nat) as -> by lia. cbn. split; [done|by eexists]. }
        destruct Hfetch as [->|(status & -> & ->)]; done.
      + destruct (Hrest before j after) as [Hj Hafter]; [done|].
        split; [lia|]. replace (i + S n)%nat with (S i + n)%nat by lia. done. }
  unfold run in *. cbn [attempts] in *. clear run.
  destruct (fetch i) as [status|error] eqn:Hfetch.
  - destruct (ok status) eqn:Hok; [|destruct (retried status) eqn:Hretried].
    + cbn [fst snd]. split; [exists 1%nat; split; [lia|done]|].
      intros [|? [|??]] j after [=]; subst. split; [lia|].
      by rewrite Hfetch, Hok.
    + apply (Hretry lastError); [done|]. right. exists status. by rewrite Hok, Hretried.
    + cbn [fst snd]. split; [exists 1%nat; split; [lia|done]|].
      intros [|? [|??]] j after [=]; subst. split; [lia|].
      by rewrite Hfetch, Hok, Hretried.
  - apply (Hretry (Some error)); [done|]. by left.
Qed.

(** [Math.pow(2, i)] for the attempts of a call with the default
    [maxRetries]: the numbers 1, 2 and 4. *)
Lemma pow2_small i : (i < 3)%nat → pow2 i = JS.number_of_Z (2 ^ Z.of_nat i).
Proof.
  intros Hi. destruct i as [|[|[|i]]]; [vm_compute; reflexivity..|lia].
Qed.

(** C8: a call with the default [maxRetries] makes at least one and at most
    three attempts, numbered 0, 1, 2 in order, and attempt 0 is the first
    thing it does.  After an attempt [i] that comes back with a status of
    500 or more, or 429, the function waits for [2^i * 1000 + random * 1000]
    milliseconds, where [2^i] is the number 1, 2 or 4 and [random] is what
    [Math.random()] gave, and then makes attempt [i + 1] if [i] was not the
    last; after a status that is neither 2xx, nor 500 or more, nor 429,
    nothing follows: that response is the result. *)
Theorem fetch_retry_policy fetch random :
  let run := fetchWithRetry fetch random None in
  let delay := λ i, (JS.number_of_Z (2 ^ Z.of_nat i) * 1000 + random i * 1000)%float in
  (∃ made, (1 ≤ made ≤ 3)%nat ∧ fetches run.1 = seq 0 made) ∧
  (∃ rest, run.1 = Fetch 0 :: rest) ∧
  ∀ before i after status,
    run.1 = before ++ Fetch i :: after → fetch i = Responded status →
    (i < 3)%nat ∧
    (ok status = false → retried status = true →
     ∃ rest, after = Sleep (delay i) :: rest ∧
       ((i < 2)%nat → ∃ rest', rest = Fetch (S i) :: rest')) ∧
    (ok status = false → retried status = false →
     after = [] ∧ run.2 = Returns status).
Proof.
  intros run delay. unfold run, fetchWithRetry; cbn [default from_option Datatypes.id].
  destruct (attempts_trace fetch random 3 3 0 None) as [Hmade Htrace].
  assert (Hfirst : ∃ rest, (attempts fetch random 3 0 3 None).1 = Fetch 0 :: rest).
  { cbn [attempts]. destruct (fetch 0%nat) as [status|error]; [|by eexists].
    destruct (ok status); [by eexists|]. destruct (retried status); by eexists. }
  split; [|split; [done|]].
  - destruct Hmade as (made & Hle & Hseq). exists made. split; [|done].
    destruct Hfirst as [rest Hrest]. cbn zeta in Hseq. rewrite Hrest in Hseq.
    destruct made; [by destruct rest as [|[]]|lia].
  - intros before i after status Hrun Hfetch.
    destruct (Htrace before i after Hrun) as [Hi Hafter]. rewrite Hfetch in Hafter.
    split; [lia|]. split.
    + intros Hok Hretried. rewrite Hok, Hretried in Hafter.
      destruct Hafter as (rest & -> & Hnext & _). exists rest. split.
      * unfold delay, backoff. by rewrite pow2_small by lia.
      * intros ?. apply Hnext. lia.
    + intros Hok Hretried. by rewrite Hok, Hretried in Hafter.
Qed.
End ai_facts.

(** ** The embedding cache *)

Section db_facts.
Import JS Db.

Lemma digits2_pos_bound (m : positive) : Z.pos m < 2 ^ Z.pos (digits2_pos m).
Proof. apply digits2_pos_range. Qed.

(** A valid binary64 number below 1 in magnitude has no integer part. *)
Lemma small_magnitude sign m e :
  valid_binary (S754_finite sign m e) = true →
  e < -52 ∨ (e = -52 ∧ Z.pos m < 2 ^ 52) →
  Z.pos m / 2 ^ (- e) = 0.
Proof.
  intros Hvalid Hsmall. apply Z.div_small. split; [lia|].
  destruct Hsmall as [He|[-> Hm]]; [|done].
  cbn [valid_binary] in Hvalid. unfold bounded, canonical_mantissa, fexp, SpecFloat.emin in Hvalid.
  apply andb_true_iff in Hvalid as [Hcanonical%Z.eqb_eq _].
  pose proof (digits2_pos_bound m) as Hdigits.
  change prec with 53 in Hcanonical. change emax with 1024 in Hcanonical.
  assert (Z.pos (digits2_pos m) ≤ 53) as Hd by lia.
  eapply Z.lt_le_trans; [exact Hdigits|].
  apply Z.pow_le_mono_r; lia.
Qed.

Lemma ToInt8_within_unit (x : float) :
  (-1 <? x)%float = true → (x <? 1)%float = true → ToInt8 x = 0.
Proof.
  rewrite !ltb_spec. intros Hlow Hhigh. unfold ToInt8.
  pose proof (Prim2SF_valid x) as Hvalid.
  destruct (Prim2SF x) as [| | |sign m e]; [done..|].
  assert (e < -52 ∨ (e = -52 ∧ Z.pos m < 2 ^ 52)) as Hsmall.
  { destruct sign.
    - clear Hhigh.
      replace (Prim2SF (-1)) with (S754_finite true 4503599627370496 (-52)) in Hlow
        by (vm_compute; reflexivity).
      unfold SFltb, SFcompare in Hlow.
      destruct (Z.compare_spec (-52) e) as [Heq| |]; [|done|left; lia].
      right. split; [done|].
      change PosDef.Pos.compare_cont with Pos.compare_cont in Hlow.
      rewrite Pos.compare_cont_spec in Hlow.
      destruct (Pos.compare_spec 4503599627370496 m); cbn in Hlow; first [done|lia].
    - clear Hlow.
      replace (Prim2SF 1) with (S754_finite false 4503599627370496 (-52)) in Hhigh
        by (vm_compute; reflexivity).
      unfold SFltb, SFcompare in Hhigh.
      destruct (Z.compare_spec e (-52)) as [Heq| |]; [|left; lia|done].
      right. split; [done|].
      change PosDef.Pos.compare_cont with Pos.compare_cont in Hhigh.
      rewrite Pos.compare_cont_spec in Hhigh.
      destruct (Pos.compare_spec m 4503599627370496); cbn in Hhigh; first [done|lia]. }
  destruct (Z.leb_spec 0 e); [lia|].
  rewrite (small_magnitude sign m e Hvalid Hsmall). by destruct sign.
Qed.

Lemma Int8Array_from_within_unit (v : list float) :
  within_unit v → Int8Array_from v = replicate (length v) 0.
Proof.
  induction 1 as [|x v [Hlow Hhigh] _ IH]; [done|].
  cbn. rewrite ToInt8_within_unit by done. f_equal. exact IH.
Qed.

Lemma Array_from_zeros (n : nat) :
  Array_from_Int8Array (replicate n 0) = replicate n 0%float.
Proof. unfold Array_from_Int8Array. by rewrite fmap_replicate. Qed.

Lemma records_of_put bookId chunkId record store chunkId' :
  records_of bookId (put bookId chunkId record store) !! chunkId'
  = if decide (chunkId = chunkId') then Some record
    else records_of bookId store !! chunkId'.
Proof.
  unfold put. unfold records_of at 1. rewrite lookup_insert_eq; cbn.
  by rewrite lookup_insert.
Qed.

(** What a batch write leaves under a chunk id that the batch names once. *)
Lemma saveEmbeddingsBatch_lookup bookId embeddings model store chunkId v :
  (chunkId, v) ∈ embeddings → NoDup embeddings.*1 →
  records_of bookId (saveEmbeddingsBatch bookId embeddings model store) !! chunkId
  = Some (mkStored (Int8Array_from v) model (length (Int8Array_from v))).
Proof.
  unfold saveEmbeddingsBatch. revert store.
  induction embeddings as [|e embeddings IH] using rev_ind; intros store Hin Hnodup.
  { by apply elem_of_nil in Hin. }
  rewrite foldl_app; cbn [foldl]. rewrite records_of_put.
  rewrite fmap_app in Hnodup. apply NoDup_app in Hnodup as (Hnodup & Hfresh & _).
  apply elem_of_app in Hin as [Hin|Hin%list_elem_of_singleton].
  - case_decide as Heq; [|by apply IH].
    exfalso. apply (Hfresh chunkId).
    + apply list_elem_of_fmap. by exists (chunkId, v).
    + rewrite <- Heq. cbn. left.
  - subst e. cbn. by rewrite decide_True.
Qed.

(** C10: a vector whose components all lie strictly between -1 and 1 is
    written by [saveEmbeddingsBatch] as a record whose 8-bit vector has the
    same length and holds only zeros, and [getBookEmbeddings] reads it back
    as an array of that many zeros: the write truncates, it does not scale. *)
Theorem int8_persistence_truncates bookId embeddings model store chunkId v :
  (chunkId, v) ∈ embeddings → NoDup embeddings.*1 → within_unit v →
  let store' := saveEmbeddingsBatch bookId embeddings model store in
  records_of bookId store' !! chunkId
    = Some (mkStored (replicate (length v) 0) model (length v)) ∧
  getBookEmbeddings bookId store' !! chunkId = Some (replicate (length v) 0%float).
Proof.
  intros Hin Hnodup Hunit store'.
  assert (Hrecord : records_of bookId store' !! chunkId
            = Some (mkStored (replicate (length v) 0) model (length v))).
  { unfold store'. rewrite (saveEmbeddingsBatch_lookup _ _ _ _ _ v) by done.
    rewrite Int8Array_from_within_unit by done. by rewrite length_replicate. }
  split; [done|]. unfold getBookEmbeddings.
  rewrite lookup_fmap, Hrecord; cbn. by rewrite Array_from_zeros.
Qed.
End db_facts.

(** ** Validation of the cache and the pipeline *)

Section rag_facts.
Import Db Rag.

Lemma first_record_None (records : gmap string Stored) :
  first_record records = None ↔ records = ∅.
Proof.
  unfold first_record. rewrite <- map_to_list_empty_iff.
  destruct (map_to_list records) as [|entry entries]; [done|].
  cbn. split; [|done]. by destruct (foldr _ _ _) as [least|]; [destruct (String.ltb _ _)|].
Qed.

Lemma first_record_Some (records : gmap string Stored) chunkId record :
  first_record records = Some (chunkId, record) → records !! chunkId = Some record.
Proof.
  unfold first_record. rewrite <- elem_of_map_to_list.
  induction (map_to_list records) as [|entry entries IH]; [done|]. cbn.
  destruct (foldr _ _ _) as [least|].
  - destruct (String.ltb _ _); [intros [= <-]; left|intros Hleast; right; by apply IH].
  - intros [= <-]. left.
Qed.

Lemma getEmbeddingMetadata_None bookId store :
  getEmbeddingMetadata bookId store = None ↔ records_of bookId store = ∅.
Proof.
  unfold getEmbeddingMetadata. rewrite fmap_None. apply first_record_None.
Qed.

Lemma getEmbeddingMetadata_Some bookId store meta :
  getEmbeddingMetadata bookId store = Some meta →
  ∃ chunkId record, records_of bookId store !! chunkId = Some record ∧
    meta = mkMetadata (Db.model record) (dimensions record).
Proof.
  unfold getEmbeddingMetadata. intros [[chunkId record] [Hfirst ->]]%fmap_Some.
  exists chunkId, record. split; [by apply first_record_Some|done].
Qed.

Lemma records_of_clear bookId store :
  records_of bookId (clearBookEmbeddings bookId store) = ∅.
Proof. unfold records_of, clearBookEmbeddings. by rewrite lookup_delete_eq. Qed.

Lemma saveEmbeddingsBatch_model bookId embeddings model store chunkId record :
  records_of bookId (saveEmbeddingsBatch bookId embeddings model store) !! chunkId
    = Some record →
  records_of bookId store !! chunkId = Some record ∨ Db.model record = model.
Proof.
  unfold saveEmbeddingsBatch. revert store.
  induction embeddings as [|e embeddings IH] using rev_ind; intros store; [by left|].
  rewrite foldl_app; cbn [foldl]. rewrite records_of_put.
  case_decide; [intros [= <-]; by right|apply IH].
Qed.

(** Separating and embedding leave the store alone and only add to the
    trace. *)
Lemma partition_env persisted chunks : ∀ env semanticChunks uncached,
  let done := foldl (partition_step persisted) (env, semanticChunks, uncached) chunks in
  store done.1.1 = store env ∧ trace done.1.1 = trace env.
Proof.
  induction chunks as [|c chunks IH]; intros env semanticChunks uncached; [done|].
  cbn [foldl].
  assert (Hstep : store (partition_step persisted (env, semanticChunks, uncached) c).1.1
                  = store env ∧
                  trace (partition_step persisted (env, semanticChunks, uncached) c).1.1
                  = trace env).
  { unfold partition_step. by destruct (persisted !! chunk_id c). }
  destruct (partition_step _ _ _) as [[env1 semanticChunks1] uncached1].
  destruct Hstep as [<- <-]. apply IH.
Qed.

Lemma batch_env embeddings batch : ∀ env semanticChunks newEmbeddings batchIdx,
  let done :=
    foldl (batch_step embeddings) (env, semanticChunks, newEmbeddings, batchIdx) batch in
  store done.1.1.1 = store env ∧ trace done.1.1.1 = trace env.
Proof.
  induction batch as [|item batch IH]; intros env semanticChunks newEmbeddings batchIdx;
    [done|].
  cbn [foldl]. unfold batch_step at 2.
  change (store env) with
    (store (send_index (chunk_id item.2) (content item.2) (embeddings !! batchIdx) env)).
  change (trace env) with
    (trace (send_index (chunk_id item.2) (content item.2) (embeddings !! batchIdx) env)).
  apply IH.
Qed.

Lemma batches_env fuel embed total cached : ∀ i calls remaining env semanticChunks
    newEmbeddings,
  let done := batches fuel embed total cached i calls remaining env semanticChunks
                newEmbeddings in
  store done.1.1.1 = store env ∧ ∃ more, trace done.1.1.1 = trace env ++ more.
Proof.
  induction fuel as [|fuel IH];
    intros i calls remaining env semanticChunks newEmbeddings.
  { cbn. split; [done|]. exists []. by rewrite app_nil_r. }
  destruct remaining as [|item remaining].
  { cbn. split; [done|]. exists []. by rewrite app_nil_r. }
  cbn [batches]. destruct (embed calls _) as [embeddings|message|message].
  - pose proof (batch_env embeddings (take BATCH_SIZE (item :: remaining))
      (log (CalledProvider ((λ b, content b.2) <$> take BATCH_SIZE (item :: remaining))) env)
      semanticChunks newEmbeddings 0%nat) as [Hstore Htrace].
    destruct (foldl _ _ _) as [[[env1 semanticChunks1] newEmbeddings1] batchIdx1].
    cbn [fst] in Hstore, Htrace.
    destruct (IH (i + BATCH_SIZE)%nat (S calls) (drop BATCH_SIZE (item :: remaining))
      (log (Progress (cached + i + length (take BATCH_SIZE (item :: remaining))) total) env1)
      semanticChunks1 newEmbeddings1) as [Hstore' [more Htrace']].
    split; [rewrite Hstore'; cbn [log store]; by rewrite Hstore|].
    rewrite Htrace'; cbn [log trace]. rewrite Htrace; cbn [log trace].
    eexists. by rewrite <- !app_assoc.
  - cbn. split; [done|]. by eexists.
  - destruct (IH (i + BATCH_SIZE)%nat (S calls) (drop BATCH_SIZE (item :: remaining))
      (log (CalledProvider ((λ b, content b.2) <$> take BATCH_SIZE (item :: remaining))) env)
      semanticChunks newEmbeddings) as [Hstore' [more Htrace']].
    split; [by rewrite Hstore'|]. rewrite Htrace'; cbn [log trace].
    eexists. by rewrite <- !app_assoc.
Qed.

(** The batch loop needs no more rounds than there are chunks left: with
    that many, it runs to its end. *)
Lemma batches_rounds embed total cached fuel : ∀ fuel' i calls remaining env
    semanticChunks newEmbeddings,
  (length remaining ≤ fuel)%nat → (length remaining ≤ fuel')%nat →
  batches fuel embed total cached i calls remaining env semanticChunks newEmbeddings
  = batches fuel' embed total cached i calls remaining env semanticChunks newEmbeddings.
Proof.
  induction fuel as [|fuel IH];
    intros fuel' i calls remaining env semanticChunks newEmbeddings Hfuel Hfuel'.
  { destruct remaining; [|cbn in Hfuel; lia]. by destruct fuel'. }
  destruct remaining as [|item remaining]; [by destruct fuel'|].
  destruct fuel' as [|fuel']; [cbn in Hfuel'; lia|].
  cbn [batches]. cbn [length] in Hfuel, Hfuel'.
  assert (Hdrop : (length (drop BATCH_SIZE (item :: remaining)) ≤ length remaining)%nat).
  { rewrite length_drop. unfold BATCH_SIZE. cbn [length]. lia. }
  destruct (embed calls _) as [embeddings|message|message]; [|done|apply IH; lia].
  destruct (foldl _ _ _) as [[[env1 semanticChunks1] newEmbeddings1] batchIdx1].
  apply IH; lia.
Qed.

Lemma index_from_cache_env embed chunks config bookId env :
  let run := index_from_cache embed chunks config bookId env in
  (∃ rest, trace run.1
     = trace env ++ LoadedEmbeddings bookId (getBookEmbeddings bookId (store env)) :: rest) ∧
  (store run.1 = store env ∨
   ∃ batch, store run.1
     = saveEmbeddingsBatch bookId batch (Some (embeddingModel config)) (store env)).
Proof.
  unfold index_from_cache.
  pose proof (partition_env (getBookEmbeddings bookId (store env)) chunks
    (log (LoadedEmbeddings bookId (getBookEmbeddings bookId (store env))) env) [] [])
    as [Hstore Htrace].
  destruct (foldl _ _ _) as [[env1 semanticChunks1] uncached]. cbn [fst] in Hstore, Htrace.
  pose proof (batches_env (length uncached) embed (length chunks)
    (length chunks - length uncached) 0 0 uncached env1 semanticChunks1 [])
    as [Hstore' [more Htrace']].
  destruct (batches _ _ _ _ _ _ _ _ _ _) as [[[env2 semanticChunks2] newEmbeddings] thrown].
  cbn [fst] in Hstore', Htrace'. cbn [log store trace] in Hstore, Htrace.
  destruct thrown as [message|]; [|destruct newEmbeddings as [|e newEmbeddings]]; cbn [fst].
  - split; [|left; congruence]. rewrite Htrace', Htrace, <- app_assoc. by eexists.
  - split; [|left; congruence]. rewrite Htrace', Htrace, <- app_assoc. by eexists.
  - cbn [log store trace]. split.
    + rewrite Htrace', Htrace, <- !app_assoc. by eexists.
    + right. rewrite Hstore', Hstore. by eexists.
Qed.

(** C7 (as the code has it): when the book has no record, [validateIndex]
    finds the cache valid.  When the record it reads has a stored model and
    the configuration names an embedding model, both not empty, and the two
    differ, it finds the cache invalid; the pipeline then deletes every
    record of the book before it loads the cache, so that it loads nothing
    and calls the provider only afterwards, and the records the book has when
    the pipeline ends all carry the configured model. *)
Theorem stale_cache_cleared bookId config store :
  (records_of bookId store = ∅ →
   validateIndex bookId config store = mkValidation true None) ∧
  (∀ meta,
     getEmbeddingMetadata bookId store = Some meta →
     valid (validateIndex bookId config store) = false ↔
     ∃ stored, meta_model meta = Some stored ∧
       stored ≠ "" ∧ embeddingModel config ≠ "" ∧ stored ≠ embeddingModel config) ∧
  (valid (validateIndex bookId config store) = false →
   ∀ embed chunks client trace,
     let run := indexChunksWithEmbeddings embed chunks config bookId
                  (mkEnv store client trace) in
     (∃ warning rest,
        Rag.trace run.1
        = trace ++ [Warned warning; ClearedEmbeddings bookId; LoadedEmbeddings bookId ∅]
                ++ rest) ∧
     (∀ chunkId record, records_of bookId (Rag.store run.1) !! chunkId = Some record →
        Db.model record = Some (embeddingModel config))).
Proof.
  split; [|split].
  - intros Hnone%getEmbeddingMetadata_None. unfold validateIndex. by rewrite Hnone.
  - intros meta Hmeta. unfold validateIndex. rewrite Hmeta. unfold truthy.
    destruct (meta_model meta) as [stored|]; [|split; [done|by intros (? & [=] & _)]].
    destruct (String.eqb_spec (embeddingModel config) "") as [Hconfig|Hconfig];
      [split; [done|by intros (? & _ & _ & ? & _)]|].
    destruct (String.eqb_spec stored "") as [Hstored|Hstored];
      [split; [done|by intros (? & [= <-] & ? & _)]|].
    destruct (String.eqb_spec stored (embeddingModel config)) as [Hsame|Hdiffer];
      [split; [done|by intros (? & [= <-] & _ & _ & ?)]|].
    split; [|done]. intros _. by exists stored.
  - intros Hinvalid embed chunks client trace run.
    unfold run, indexChunksWithEmbeddings. cbn [Rag.store]. rewrite Hinvalid.
    set (env := log _ _).
    destruct (index_from_cache_env embed chunks config bookId env)
      as [[rest Htrace] Hstore].
    split.
    + eexists _, rest. rewrite Htrace. unfold env; cbn [log Rag.trace Rag.store].
      unfold getBookEmbeddings. rewrite records_of_clear, fmap_empty.
      by rewrite <- !app_assoc.
    + intros chunkId record. destruct Hstore as [->|[batch ->]].
      * unfold env; cbn [log Rag.store]. by rewrite records_of_clear, lookup_empty.
      * intros [Hold|Hnew]%saveEmbeddingsBatch_model; [|done].
        unfold env in Hold; cbn [log Rag.store] in Hold.
        by rewrite records_of_clear, lookup_empty in Hold.
Qed.
End rag_facts.

(** ** More of the task channel client *)

Section worker_client_extra.
Import WorkerClient.
Context {Payload : Type}.
Implicit Types (s : State Payload) (e : Event Payload).
Implicit Types (q : list (string * Payload)) (events : list (Event Payload)).

(** A promise that is settled stays as it is. *)
Lemma settled_step e s id v :
  settled s !! id = Some v → settled (step e s) !! id = Some v.
Proof.
  intros Hv.
  assert (Hsettle : ∀ id' v' s', settled s' = settled s →
            settled (settle id' v' s') !! id = Some v).
  { intros id' v' s' Hs'. rewrite settled_settle, Hs'.
    destruct (settled s !! id') eqn:Hid'; [done|].
    case_decide; [congruence|done]. }
  destruct e as [t p|t p o now|r|id'| |]; cbn [step].
  - unfold send. by destruct (inFlight s <? maxConcurrent s).
  - done.
  - unfold onmessage. destruct (pending s !! res_id r).
    + destruct (truthy (res_error r)); apply Hsettle; by rewrite processQueue_settled.
    + by rewrite processQueue_settled.
  - destruct (pending s !! id'); [|done]. apply Hsettle. by rewrite processQueue_settled.
  - unfold onerror; cbn. change (settled (reject_all "Worker crashed" s) !! id = Some v).
    by rewrite settled_reject_all, Hv.
  - unfold terminate; cbn. change (settled (reject_all "Worker terminated" s) !! id = Some v).
    by rewrite settled_reject_all, Hv.
Qed.

Lemma settled_run events s id v :
  settled s !! id = Some v → settled (run events s) !! id = Some v.
Proof.
  revert s. induction events as [|e events IH]; intros s Hv; [done|].
  cbn. by apply IH, settled_step.
Qed.

Lemma reachable_run options events s :
  reachable options s → reachable options (run events s).
Proof.
  intros Hs. induction events as [|e events IH] using rev_ind; [done|].
  rewrite run_snoc. by constructor.
Qed.

(** X1: a request that is issued and then left alone until the worker
    answers it has its promise settled by that answer: rejected with the
    answer's [error] when it has a non-empty one, resolved with its payload
    otherwise; nothing that happens later changes that.  The pending entry
    is removed, the in-flight counter goes down by one (not below zero) and
    queued sends take the capacity that is free. *)
Theorem request_answered options before type (payload : Payload) timeout now after r later :
  let s0 := run before (new options) in
  let id := fst (request type payload timeout now s0) in
  let s1 := snd (request type payload timeout now s0) in
  forallb (quiet id) after = true →
  res_id r = id →
  let s2 := run after s1 in
  let s3 := step (Response r) s2 in
  let k := admitted (release s2) (queue s2) in
  settled s2 !! id = None ∧
  settled s3 !! id = Some (outcome_of r) ∧
  settled (run later s3) !! id = Some (outcome_of r) ∧
  pending s3 !! id = None ∧
  inFlight s3 = Z.max 0 (inFlight s2 - 1) + Z.of_nat k ∧
  queue s3 = drop k (queue s2) ∧
  posted s3 = posted s2 ++ fire_msgs (idCounter s2) (take k (queue s2)).
Proof.
  intros s0 id s1 Hquiet Hr s2 s3 k.
  assert (Hs2 : reachable options s2).
  { apply reachable_run, (reachable_step options s0 (CallRequest type payload timeout now)).
    apply run_reachable. }
  assert (Hid : is_Some (pending s2 !! id)).
  { eexists. eapply quiet_run; [|by apply lookup_insert_eq|done].
    apply (reachable_step options s0 (CallRequest type payload timeout now)).
    apply run_reachable. }
  assert (Hunsettled : settled s2 !! id = None).
  { by apply (reachable_ids options s2 Hs2). }
  assert (Hs3 : s3 = settle id (outcome_of r)
                  (processQueue (release (set_pending (delete id) s2)))).
  { unfold s3; cbn [step]. unfold onmessage, outcome_of. rewrite Hr.
    destruct Hid as [p ->]. by destruct (truthy (res_error r)). }
  assert (Hsettled : settled s3 !! id = Some (outcome_of r)).
  { rewrite Hs3, settled_settle, processQueue_settled.
    change (settled (release (set_pending (delete id) s2))) with (settled s2).
    rewrite Hunsettled. by case_decide. }
  split; [done|]. split; [done|]. split; [by apply settled_run|].
  rewrite Hs3. clear Hs3 Hsettled Hquiet. clearbody s2 id. split.
  - rewrite pending_settle, processQueue_pending; cbn. apply lookup_delete_eq.
  - unfold settle, set_settled; cbn [inFlight queue posted].
    rewrite processQueue_closed_form; cbn. done.
Qed.

(** *** The in-flight counter *)

Lemma processQueue_inFlight s :
  inFlight s ≤ inFlight (processQueue s) ≤ Z.max (inFlight s) (maxConcurrent s).
Proof. rewrite processQueue_closed_form; unfold admitted; cbn. lia. Qed.

Lemma processQueue_maxConcurrent s : maxConcurrent (processQueue s) = maxConcurrent s.
Proof. by rewrite processQueue_closed_form. Qed.

Lemma step_maxConcurrent e s : maxConcurrent (step e s) = maxConcurrent s.
Proof.
  destruct e as [t p|t p o now|r|id| |]; cbn [step]; try done.
  - unfold send. by destruct (inFlight s <? maxConcurrent s).
  - unfold onmessage. destruct (pending s !! res_id r).
    + assert (maxConcurrent (processQueue (release (set_pending (delete (res_id r)) s)))
              = maxConcurrent s) as Hgoal by by rewrite processQueue_maxConcurrent.
      by destruct (truthy (res_error r)).
    + by rewrite processQueue_maxConcurrent.
  - destruct (pending s !! id); [|done].
    unfold timeout_callback, settle, set_settled; cbn [maxConcurrent].
    by rewrite processQueue_maxConcurrent.
Qed.

Lemma step_inFlight e s :
  0 ≤ inFlight s →
  0 ≤ inFlight (step e s) ∧
  (is_request e = false → inFlight s ≤ Z.max 0 (maxConcurrent s) →
   inFlight (step e s) ≤ Z.max 0 (maxConcurrent s)).
Proof.
  intros Hs.
  assert (Hrelease : ∀ s0 : State Payload,
    inFlight s0 = inFlight s → maxConcurrent s0 = maxConcurrent s →
    0 ≤ inFlight (processQueue (release s0)) ∧
    (inFlight s ≤ Z.max 0 (maxConcurrent s) →
     inFlight (processQueue (release s0)) ≤ Z.max 0 (maxConcurrent s))).
  { intros s0 Hin Hmax. pose proof (processQueue_inFlight (release s0)) as Hq.
    cbn [release set_inFlight inFlight maxConcurrent] in Hq. lia. }
  destruct e as [t p|t p o now|r|id| |]; cbn [step is_request].
  - unfold send. destruct (Z.ltb_spec (inFlight s) (maxConcurrent s)); cbn; lia.
  - cbn. split; [lia|done].
  - unfold onmessage. destruct (pending s !! res_id r).
    + destruct (Hrelease (set_pending (delete (res_id r)) s)) as [H1 H2]; [done..|].
      destruct (truthy (res_error r)); (split; [exact H1|intros _; exact H2]).
    + destruct (Hrelease s) as [H1 H2]; [done..|]. split; [exact H1|intros _; exact H2].
  - destruct (pending s !! id); [|split; [done|by intros _]].
    destruct (Hrelease (set_pending (delete id) s)) as [H1 H2]; [done..|].
    split; [exact H1|intros _; exact H2].
  - cbn. lia.
  - cbn. lia.
Qed.

(** X3: the in-flight counter is never negative, and as long as
    [request] has not been called it does not exceed [maxConcurrent] (or 0,
    for a cap that is not positive). *)
Theorem inFlight_bounds options events :
  let s := run events (new options) in
  0 ≤ inFlight s ∧
  (forallb (λ e, negb (is_request e)) events = true →
   inFlight s ≤ Z.max 0 (maxConcurrent s)).
Proof.
  induction events as [|e events IH] using rev_ind; [cbn; lia|].
  cbn zeta in *. rewrite run_snoc. destruct IH as [IH1 IH2].
  destruct (step_inFlight e (run events (new options)) IH1) as [H1 H2].
  split; [done|]. rewrite forallb_app; cbn. rewrite andb_true_r.
  intros [Hevents He%negb_true_iff]%andb_true_iff.
  rewrite step_maxConcurrent. by apply H2, IH2.
Qed.

Lemma reachable_inFlight options s : reachable options s → 0 ≤ inFlight s.
Proof. induction 1 as [|s e _ IH]; [done|]. by apply step_inFlight. Qed.

Lemma processQueue_nil s : queue s = [] → processQueue s = s.
Proof. intros Hq. unfold processQueue. rewrite Hq. destruct s; cbn in *. by subst. Qed.

(** X2: when a request has timed out and its answer comes late, the
    answer finds no pending entry: the promise stays rejected with the
    timeout error, and the in-flight counter, which the timeout had already
    put back, is lowered once more (not below zero).  With nothing queued,
    nothing is posted. *)
Theorem late_response_releases_again options before type (payload : Payload)
    timeout now r :
  let s0 := run before (new options) in
  let id := fst (request type payload timeout now s0) in
  let s1 := snd (request type payload timeout now s0) in
  queue s0 = [] →
  res_id r = id →
  let s2 := step (TimerFires id) s1 in
  let s3 := step (Response r) s2 in
  settled s2 !! id = Some (Rejected ("Worker request timeout: " +:+ type)) ∧
  settled s3 !! id = Some (Rejected ("Worker request timeout: " +:+ type)) ∧
  inFlight s2 = inFlight s0 ∧
  inFlight s3 = Z.max 0 (inFlight s0 - 1) ∧
  posted s3 = posted s1.
Proof.
  intros s0 id s1 Hq Hr s2 s3.
  assert (Hs0 : reachable options s0) by apply run_reachable.
  pose proof (reachable_inFlight options s0 Hs0) as Hin.
  assert (Hs1 : reachable options s1).
  { by apply (reachable_step options s0 (CallRequest type payload timeout now)). }
  assert (Hunsettled : settled s1 !! id = None).
  { apply (reachable_ids options s1 Hs1). eexists. by apply lookup_insert_eq. }
  assert (Hs2 : s2 = settle id (Rejected ("Worker request timeout: " +:+ type))
                  (release (set_pending (delete id) s1))).
  { unfold s2; cbn [step]. unfold s1 at 1, id at 1; cbn [request snd fst pending set_pending postMessage set_inFlight set_idCounter].
    rewrite lookup_insert_eq. cbn [req_type]. unfold timeout_callback.
    by rewrite processQueue_nil. }
  assert (Hsettled : settled s2 !! id = Some (Rejected ("Worker request timeout: " +:+ type))).
  { rewrite Hs2, settled_settle.
    change (settled (release (set_pending (delete id) s1))) with (settled s1).
    rewrite Hunsettled. by case_decide. }
  assert (Hnone : pending s2 !! res_id r = None).
  { rewrite Hr, Hs2, pending_settle. cbn. apply lookup_delete_eq. }
  assert (Hs3 : s3 = release s2).
  { unfold s3; cbn [step]. unfold onmessage. rewrite Hnone.
    apply processQueue_nil. by rewrite Hs2. }
  split; [done|]. split; [rewrite Hs3; exact Hsettled|].
  rewrite Hs3, Hs2. cbn. split; [lia|]. split; [lia|done].
Qed.

(** X4: [terminate] and a fault of the worker reject every request that is
    pending, with "Worker terminated" and "Worker crashed"; promises that
    were settled keep their outcome, no request is pending afterwards, the
    in-flight counter is 0, and the queued sends are dropped without being
    posted. *)
Theorem reset_rejects_pending options events :
  let s := run events (new options) in
  let rejects := λ (s' : State Payload) (message : string),
    (∀ id, is_Some (pending s !! id) → settled s' !! id = Some (Rejected message)) ∧
    (∀ id, pending s !! id = None → settled s' !! id = settled s !! id) ∧
    pending s' = ∅ ∧ queue s' = [] ∧ inFlight s' = 0 ∧ posted s' = posted s in
  rejects (terminate s) "Worker terminated" ∧ rejects (onerror s) "Worker crashed".
Proof.
  intros s rejects.
  assert (Hunsettled : pending_unsettled s).
  { apply (reachable_ids options), run_reachable. }
  assert (Hrejects : ∀ s' message,
    settled s' = settled (reject_all message s) →
    pending s' = ∅ → queue s' = [] → inFlight s' = 0 → posted s' = posted s →
    rejects s' message).
  { intros s' message Hsettled Hp Hq Hin Hposted. split; [|split; [|done]].
    - intros id Hid. rewrite Hsettled, settled_reject_all, (Hunsettled id Hid).
      destruct Hid as [p ->]. done.
    - intros id Hid. rewrite Hsettled, settled_reject_all, Hid.
      by destruct (settled s !! id). }
  split; by apply Hrejects.
Qed.

(** *** The ids of the messages posted *)

Lemma made_from_inj (m1 m2 : WorkerMessage Payload) n1 n2 :
  made_from m1 n1 → made_from m2 n2 → msg_id m1 = msg_id m2 → n1 = n2.
Proof.
  intros [H1|[now1 H1]] [H2|[now2 H2]] Heq; rewrite H1, H2 in Heq.
  - unfold fire_id in Heq. injection Heq as Heq. by apply (inj pretty).
  - discriminate Heq.
  - discriminate Heq.
  - by eapply req_id_counter_inj.
Qed.

Lemma fire_msgs_made_from n q :
  Forall2 made_from (fire_msgs n q)
    ((λ i, (n + 1 + N.of_nat i)%N) <$> seq 0 (length q)).
Proof.
  revert n. induction q as [|item rest IH]; intros n; [constructor|].
  cbn [fire_msgs length seq fmap list_fmap]. constructor.
  - replace (n + 1 + N.of_nat 0)%N with (n + 1)%N by lia. by left.
  - rewrite <- fmap_S_seq, <- list_fmap_compose.
    erewrite list_fmap_ext; [apply (IH (n + 1)%N)|].
    intros i x _. cbn. lia.
Qed.

Lemma counters_extend s s' (added : list (WorkerMessage Payload)) :
  counters_grow s →
  posted s' = posted s ++ added →
  Forall2 made_from added
    ((λ i, (idCounter s + 1 + N.of_nat i)%N) <$> seq 0 (length added)) →
  idCounter s' = (idCounter s + N.of_nat (length added))%N →
  counters_grow s'.
Proof.
  intros (counters & Hmade & Hsorted & Hbound) Hposted Hadded Hcounter.
  exists (counters ++ ((λ i, (idCounter s + 1 + N.of_nat i)%N) <$> seq 0 (length added))).
  split; [|split].
  - rewrite Hposted. by apply Forall2_app.
  - clear Hmade Hadded Hposted. induction Hsorted as [|n counters Hsorted IH Hn]; cbn.
    + generalize (idCounter s + 1)%N as base. generalize (length added) as len.
      clear. intros len. generalize 0%nat as from.
      induction len as [|len IH]; intros from base; cbn; constructor; [apply IH|].
      apply Forall_forall. intros x (i & -> & Hi%elem_of_seq)%list_elem_of_fmap. lia.
    + apply Forall_cons in Hbound as [Hn' Hbound]. constructor; [by apply IH|].
      apply Forall_app. split; [done|].
      apply Forall_forall. intros x (i & -> & _)%list_elem_of_fmap. lia.
  - rewrite Hcounter. apply Forall_app. split.
    + eapply Forall_impl; [done|]. cbn. lia.
    + apply Forall_forall. intros x (i & -> & Hi%elem_of_seq)%list_elem_of_fmap. lia.
Qed.

Lemma processQueue_counters s0 s :
  counters_grow s → posted s0 = posted s → idCounter s0 = idCounter s →
  counters_grow (processQueue s0).
Proof.
  intros Hs Hposted Hcounter.
  apply (counters_extend s _ (fire_msgs (idCounter s) (take (admitted s0 (queue s0)) (queue s0)))).
  - done.
  - rewrite processQueue_closed_form; cbn. by rewrite Hposted, Hcounter.
  - assert (Hlen : ∀ n (q : list (string * Payload)), length (fire_msgs n q) = length q).
    { intros n q. revert n. induction q as [|x q IH]; intros n; cbn; [done|]. by rewrite IH. }
    rewrite Hlen. apply fire_msgs_made_from.
  - assert (Hlen : ∀ n (q : list (string * Payload)), length (fire_msgs n q) = length q).
    { intros n q. revert n. induction q as [|x q IH]; intros n; cbn; [done|]. by rewrite IH. }
    rewrite processQueue_closed_form, Hlen, length_take; cbn. unfold admitted. rewrite Hcounter. lia.
Qed.

Lemma step_counters e s : counters_grow s → counters_grow (step e s).
Proof.
  intros Hs.
  assert (Hsame : ∀ s', posted s' = posted s → idCounter s' = idCounter s →
            counters_grow s').
  { intros s' Hp Hc. apply (counters_extend s s' []); [done|by rewrite app_nil_r|constructor|].
    cbn. lia. }
  assert (Hone : ∀ s' m, posted s' = posted s ++ [m] →
            idCounter s' = (idCounter s + 1)%N → made_from m (idCounter s + 1)%N →
            counters_grow s').
  { intros s' m Hp Hc Hm. apply (counters_extend s s' [m]); [done|done| |cbn; lia].
    cbn. constructor; [|constructor]. by rewrite N.add_0_r. }
  destruct e as [t p|t p o now|r|id| |]; cbn [step].
  - unfold send. destruct (inFlight s <? maxConcurrent s).
    + eapply Hone; [done|done|]. by left.
    + by apply Hsame.
  - eapply Hone; [done|done|]. right. by exists now.
  - unfold onmessage. destruct (pending s !! res_id r).
    + assert (counters_grow (processQueue (release (set_pending (delete (res_id r)) s))))
        as Hgoal by by apply (processQueue_counters _ s).
      by destruct (truthy (res_error r)).
    + by apply (processQueue_counters _ s).
  - destruct (pending s !! id); [|done].
    change (counters_grow (processQueue (release (set_pending (delete id) s)))).
    by apply (processQueue_counters _ s).
  - by apply Hsame.
  - by apply Hsame.
Qed.

Lemma reachable_counters options s : reachable options s → counters_grow s.
Proof.
  induction 1 as [|s e _ IH]; [|by apply step_counters].
  exists []. split; [constructor|]. split; constructor.
Qed.

(** X5: no two messages that a client has posted carry the same id. *)
Theorem posted_ids_distinct options events :
  NoDup (msg_id <$> posted (run events (new options))).
Proof.
  destruct (reachable_counters options _ (run_reachable options events))
    as (counters & Hmade & Hsorted & _).
  revert Hsorted. induction Hmade as [|m n l counters Hm Hmade IH]; intros Hsorted.
  { constructor. }
  apply StronglySorted_inv in Hsorted as [Hsorted Hn].
  cbn. constructor; [|by apply IH].
  intros (m' & Heq & Hm')%list_elem_of_fmap.
  apply list_elem_of_lookup in Hm' as [i Hi].
  destruct (Forall2_lookup_l _ _ _ _ _ Hmade Hi) as (n' & Hn' & Hm'n').
  pose proof (made_from_inj m m' n n' Hm Hm'n' Heq) as ->.
  rewrite Forall_forall in Hn. apply list_elem_of_lookup_2 in Hn'. specialize (Hn n' Hn'). lia.
Qed.

(** *** A run of sends *)

Lemma fire_msgs_app n q1 q2 :
  fire_msgs n (q1 ++ q2) = fire_msgs n q1 ++ fire_msgs (n + N.of_nat (length q1)) q2.
Proof.
  revert n. induction q1 as [|x q1 IH]; intros n; cbn [fire_msgs app length].
  - by rewrite N.add_0_r.
  - rewrite IH. do 3 f_equal. lia.
Qed.

Lemma sends_state options (items : list (string * Payload)) :
  let cap := default 10 (options ≫= opt_maxConcurrent) in
  let k := Nat.min (length items) (Z.to_nat cap) in
  run ((λ item, CallSend item.1 item.2) <$> items) (new options)
  = mkState ∅ (N.of_nat k) (default 30000 (options ≫= opt_timeout)) (drop k items)
            (Z.of_nat k) cap (fire_msgs 0 (take k items)) ∅ false.
Proof.
  induction items as [|x items IH] using rev_ind; [done|].
  cbn zeta in *. rewrite fmap_app, run_app, IH. clear IH. cbn [fmap list_fmap run foldl step].
  rewrite length_app; cbn [length]. unfold send; cbn [inFlight maxConcurrent].
  set (maxC := default 10 (options ≫= opt_maxConcurrent)).
  destruct (Z.ltb_spec (Z.of_nat (Nat.min (length items) (Z.to_nat maxC))) maxC) as [Hlt|Hge].
  - rewrite !Nat.min_l by lia. rewrite take_ge, drop_ge by (rewrite ?length_app; cbn; lia).
    rewrite take_ge, drop_ge by (rewrite ?length_app; cbn; lia).
    unfold sendImmediate, postMessage; cbn. rewrite fire_msgs_app. cbn.
    rewrite N.add_0_l. f_equal; lia.
  - assert (Hk : (Z.to_nat maxC ≤ length items)%nat) by lia.
    rewrite !Nat.min_r by lia. unfold set_queue; cbn. destruct x as [t p]; cbn.
    by rewrite drop_app_le, take_app_le by lia.
Qed.

Lemma item_of_fire_msgs n q : item_of <$> fire_msgs n q = q.
Proof.
  revert n. induction q as [|[t p] q IH]; intros n; cbn; [done|]. by rewrite IH.
Qed.

(** X6: of a run of sends on a new client, the first [maxConcurrent] are
    posted in order and the others wait in the queue in order; that is what
    [getQueueStatus] counts. *)
Theorem sends_fill_then_queue options (items : list (string * Payload)) :
  let s := run ((λ item, CallSend item.1 item.2) <$> items) (new options) in
  let k := Nat.min (length items) (Z.to_nat (maxConcurrent s)) in
  getQueueStatus s = (Z.of_nat k, (length items - k)%nat) ∧
  item_of <$> posted s = take k items ∧
  queue s = drop k items.
Proof.
  cbn zeta. rewrite sends_state. unfold getQueueStatus.
  cbn [maxConcurrent inFlight queue posted].
  rewrite length_drop. split; [done|]. split; [|done]. apply item_of_fire_msgs.
Qed.
End worker_client_extra.

(** ** More of the vector index *)

Section rag_worker_extra.
Import JS RagWorker.

Lemma take_drop_within {A : Type} (l : list A) (n m k : nat) :
  (m + n ≤ k)%nat → take n (drop m (take k l)) = take n (drop m l).
Proof.
  intros Hk. rewrite !take_drop_commute, take_take. do 2 f_equal. lia.
Qed.

(** What an accepted insert keeps and what it adds. *)
Lemma accepted_insert st id chunkId embedding :
  well_formed st → dimension st ≠ 0%nat → length embedding = dimension st →
  ∃ st', index_chunk id chunkId embedding st = Done st' [] ∧
    count st' = S (count st) ∧ ids st' = ids st ++ [chunkId] ∧
    dimension st' = dimension st ∧
    row st' (count st) = fround <$> embedding ∧
    ∀ i, (i < count st)%nat → row st' i = row st i.
Proof.
  intros Hwf Hne Hlen.
  destruct (index_chunk_accepts id chunkId embedding st Hwf (or_intror Hlen))
    as (buffer & Hdone & _ & Hrow & Hkeep).
  eexists. split; [exact Hdone|]. cbn. do 3 (split; [done|]). split; [exact Hrow|].
  intros i Hi.
  destruct Hwf as [_ Hvec]. destruct (vectors st) as [old|] eqn:Hold; [|by destruct Hvec].
  specialize (Hkeep Hne old eq_refl).
  unfold row; cbn [dimension vectors default from_option Datatypes.id]. rewrite Hold; cbn.
  rewrite <- Hlen.
  assert (Hfit : (i * length embedding + length embedding ≤ count st * length embedding)%nat).
  { assert (S i ≤ count st)%nat as Hle by lia.
    apply (Nat.mul_le_mono_r _ _ (length embedding)) in Hle.
    rewrite Nat.mul_succ_l in Hle. lia. }
  rewrite <- (take_drop_within buffer _ _ _ Hfit), Hkeep.
  by apply take_drop_within.
Qed.

(** X7: an insert on an empty, unlatched index, or of a vector of the
    latched dimension, is accepted without a reply: the count grows by one,
    the id is appended, the new row holds the vector rounded to single
    precision, and the rows before it are as they were (also when the
    buffer had to grow). *)
Theorem insert_then_read st id chunkId content embedding :
  reachable st →
  (count st = 0%nat ∧ dimension st = 0%nat) ∨
  (dimension st ≠ 0%nat ∧ length embedding = dimension st) →
  let result := onmessage (mkMessage id (INDEX_CHUNK chunkId content embedding)) st in
  result.2 = [] ∧
  count result.1 = S (count st) ∧
  ids result.1 = ids st ++ [chunkId] ∧
  dimension result.1 = length embedding ∧
  row result.1 (count st) = fround <$> embedding ∧
  ∀ i, (i < count st)%nat → row result.1 i = row st i.
Proof.
  intros Hwf%reachable_well_formed Hdim result.
  unfold result, onmessage; cbn [msg_request msg_id].
  destruct Hdim as [[Hcount Hzero]|[Hne Hlen]].
  - destruct (index_chunk_accepts id chunkId embedding st Hwf (or_introl Hzero))
      as (buffer & -> & _ & Hrow & _).
    cbn. do 4 (split; [done|]). split; [exact Hrow|]. intros i Hi. lia.
  - destruct (accepted_insert st id chunkId embedding Hwf Hne Hlen)
      as (st' & -> & Hc & Hi & Hd & Hrow & Hkeep).
    cbn. rewrite Hd. done.
Qed.

(** X8: a search leaves the index as it is and is answered by one
    [SEARCH_RESULT] reply.  It has [min(topK, count)] results for a [topK]
    that is not negative, and for a negative [topK] all but the last
    [-topK] of the [count] rows. *)
Theorem search_reads_only st id queryEmbedding topK :
  reachable st →
  ∃ results,
    onmessage (mkMessage id (SEARCH queryEmbedding topK)) st
    = (st, [mkReply id "SEARCH_RESULT" (Results results) None]) ∧
    Z.of_nat (length results)
    = if topK <? 0 then Z.max (Z.of_nat (count st) + topK) 0
      else Z.min topK (Z.of_nat (count st)).
Proof.
  intros [Hids Hvec]%reachable_well_formed.
  unfold onmessage, search; cbn [msg_request msg_id].
  destruct (vectors st) as [buffer|].
  - destruct (Nat.eqb_spec (count st) 0) as [Hzero|Hcount].
    + exists []. split; [done|]. rewrite Hzero. cbn. destruct (Z.ltb_spec topK 0); lia.
    + eexists. split; [done|]. unfold slice0.
      rewrite length_take, sort_length, score_rows_fmap, length_fmap, length_seq.
      destruct (Z.ltb_spec topK 0); lia.
  - exists []. split; [done|]. destruct Hvec as [-> _]. cbn. destruct (Z.ltb_spec topK 0); lia.
Qed.

(** X9: [CLEAR] is answered by [CLEAR_COMPLETE] and forgets the dimension:
    whatever the index held, the insert that follows is accepted and is the
    only row. *)
Theorem clear_forgets_dimension st id id' chunkId content embedding :
  let after :=
    run [mkMessage id CLEAR; mkMessage id' (INDEX_CHUNK chunkId content embedding)] st in
  after.2 = [mkReply id "CLEAR_COMPLETE" Success None] ∧
  ids after.1 = [chunkId] ∧ count after.1 = 1%nat ∧
  dimension after.1 = length embedding ∧
  row after.1 0 = fround <$> embedding.
Proof.
  assert (Hwf : well_formed initial) by (by split).
  destruct (index_chunk_accepts id' chunkId embedding initial Hwf (or_introl eq_refl))
    as (buffer & Hdone & _ & Hrow & _).
  unfold run, onmessage; cbn [foldl msg_request msg_id clear fst snd]. rewrite Hdone.
  cbn. repeat (split; [done|]). exact Hrow.
Qed.

(** What one message other than [CLEAR] does to a latched index. *)
Lemma rows_kept m st :
  well_formed st → dimension st ≠ 0%nat → msg_request m ≠ CLEAR →
  let st' := (onmessage m st).1 in
  (count st ≤ count st')%nat ∧
  ∀ i, (i < count st)%nat → row st' i = row st i ∧ ids st' !! i = ids st !! i.
Proof.
  intros Hwf Hlatched Hm.
  destruct m as [id [chunkId content embedding|query topK| |type]];
    unfold onmessage; cbn [msg_request msg_id] in *; [| |done|by cbn].
  - destruct (decide (length embedding = dimension st)) as [Hlen|Hlen].
    + destruct (accepted_insert st id chunkId embedding Hwf Hlatched Hlen)
        as (st' & -> & Hc & Hi & Hd & Hrow & Hkeep).
      cbn. split; [lia|]. intros i Hlt. split; [by apply Hkeep|].
      rewrite Hi, lookup_app_l; [done|]. destruct Hwf as [-> _]. done.
    + rewrite index_chunk_rejects by done. by cbn.
  - unfold search. destruct (vectors st); [|by cbn]. by destruct (count st =? 0)%nat.
Qed.

(** X10: on an index whose dimension is latched, and until a [CLEAR],
    whatever messages come, the dimension stays, the count does not go
    down, and every row keeps its vector and its id. *)
Theorem rows_persist_until_clear st messages :
  reachable st → dimension st ≠ 0%nat →
  Forall (λ m, msg_request m ≠ CLEAR) messages →
  let st' := (run messages st).1 in
  dimension st' = dimension st ∧ (count st ≤ count st')%nat ∧
  ∀ i, (i < count st)%nat → row st' i = row st i ∧ ids st' !! i = ids st !! i.
Proof.
  intros Hst Hlatched.
  induction messages as [|m messages IH] using rev_ind; intros Hmessages; [done|].
  apply Forall_app in Hmessages as [Hmessages Hm%Forall_inv].
  destruct (IH Hmessages) as (Hdim & Hcount & Hrows). cbn zeta.
  rewrite index_run_snoc; cbn [fst].
  pose proof (reachable_well_formed _ (index_run_reachable messages st Hst)) as Hwf.
  destruct (rows_kept m (run messages st).1 Hwf) as [Hcount' Hrows']; [congruence|done|].
  split; [|split].
  - rewrite <- Hdim. apply latched_until_clear; [done|congruence|done].
  - lia.
  - intros i Hi. destruct (Hrows i Hi) as [<- <-]. apply Hrows'. lia.
Qed.
End rag_worker_extra.

(** ** More of the chunker *)

Section parser_worker_extra.
Import ParserWorker.
Implicit Types (text : jsstring) (chapter : Chapter) (chunks : list TextChunk).

(** *** Tags *)

Lemma strip_tags_from_no_tag text : ∀ tag,
  (∀ opened, tag = Some opened → greater_than ∉ opened) →
  no_tag (strip_tags_from text tag).
Proof.
  induction text as [|c text IH]; intros [opened|] Hopened; cbn [strip_tags_from].
  - intros pre post Heq Hin. apply (Hopened opened eq_refl).
    rewrite <- elem_of_reverse, Heq. set_solver.
  - by intros [|??] ? [=].
  - destruct (N.eqb_spec c greater_than) as [->|Hc].
    + intros [|x pre] post Heq; injection Heq as Hx Heq; [discriminate Hx|].
      eapply (IH None); [done|exact Heq].
    + apply IH. intros ? [= <-]. apply not_elem_of_cons.
      split; [congruence|by apply Hopened].
  - destruct (N.eqb_spec c less_than) as [->|Hc].
    + apply IH. intros ? [= <-]. apply not_elem_of_cons. split; [done|apply not_elem_of_nil].
    + intros [|x pre] post Heq; injection Heq as Hx Heq; [done|].
      eapply (IH None); [done|exact Heq].
Qed.

Lemma strip_tags_from_plain text :
  less_than ∉ text → strip_tags_from text None = text.
Proof.
  induction text as [|c text IH]; intros Hin; cbn [strip_tags_from]; [done|].
  destruct (N.eqb_spec c less_than) as [->|Hc]; [set_solver|].
  f_equal. apply IH. set_solver.
Qed.

Lemma strip_tags_from_length text : ∀ tag,
  (length (strip_tags_from text tag) ≤ length text + length (default [] tag))%nat.
Proof.
  induction text as [|c text IH]; intros [opened|]; cbn [strip_tags_from].
  - by rewrite length_reverse.
  - done.
  - destruct (c =? greater_than)%N; cbn.
    + specialize (IH None). cbn in IH. lia.
    + specialize (IH (Some (c :: opened))). cbn in IH. lia.
  - destruct (c =? less_than)%N; cbn.
    + specialize (IH (Some [c])). cbn in IH. lia.
    + specialize (IH None). cbn in IH. lia.
Qed.

(** X14: replacing tags leaves no tag: in the result no [<] has a [>]
    after it.  The result is never longer than the text, and a text without
    [<] is left as it is. *)
Theorem strip_tags_removes_tags text :
  no_tag (strip_tags text) ∧
  (length (strip_tags text) ≤ length text)%nat ∧
  (less_than ∉ text → strip_tags text = text).
Proof.
  split; [|split].
  - by apply strip_tags_from_no_tag.
  - pose proof (strip_tags_from_length text None) as H. cbn in H. unfold strip_tags. lia.
  - apply strip_tags_from_plain.
Qed.

(** *** White space *)

Lemma is_space_space : is_space space = true.
Proof. done. Qed.

Lemma collapse_from_spec text : ∀ in_run,
  let out := collapse_from text in_run in
  Forall (λ c, is_space c = true → c = space) out ∧
  no_space_run out ∧
  (in_run = true → ∀ c rest, out = c :: rest → is_space c = false).
Proof.
  induction text as [|c text IH]; intros in_run; cbn [collapse_from].
  { split; [constructor|]. split; [by intros [|?[|??]] ???|done]. }
  destruct (is_space c) eqn:Hc.
  - destruct (IH true) as (Hall & Hrun & Hhead). destruct in_run.
    + split; [done|]. split; [done|]. intros _. by apply Hhead.
    + split; [by constructor|]. split; [|done].
      intros [|x pre] c' d post Heq; injection Heq as <- Heq.
      * intros _. by eapply Hhead.
      * by eapply Hrun.
  - destruct (IH false) as (Hall & Hrun & _). split; [|split].
    + constructor; [congruence|done].
    + intros [|x pre] c' d post Heq; injection Heq as <- Heq.
      * congruence.
      * by eapply Hrun.
    + intros _ c' rest [= <- _]. done.
Qed.

Lemma trim_start_spec text :
  (∃ dropped, text = dropped ++ trim_start text) ∧
  ∀ c rest, trim_start text = c :: rest → is_space c = false.
Proof.
  induction text as [|c text [[dropped IH1] IH2]]; cbn [trim_start].
  { split; [by exists []|done]. }
  destruct (is_space c) eqn:Hc.
  - split; [|done]. exists (c :: dropped). cbn. by rewrite <- IH1.
  - split; [by exists []|]. by intros ?? [= <- _].
Qed.

Lemma trim_spec text :
  trimmed (trim text) ∧ ∃ before after, text = before ++ trim text ++ after.
Proof.
  unfold trim.
  destruct (trim_start_spec text) as [[before Hbefore] Hhead].
  destruct (trim_start_spec (reverse (trim_start text))) as [[after Hafter] Hlast].
  split; [split|].
  - intros c rest Heq.
    destruct (decide (rest = [])) as [->|Hrest].
    + apply (Hlast c []). apply (inj reverse). by rewrite Heq.
    + destruct (exists_last Hrest) as (rest' & d & ->).
      apply (f_equal reverse) in Hafter.
      rewrite reverse_involutive, reverse_app, Heq in Hafter.
      rewrite Hafter in Hhead. by eapply Hhead.
  - intros pre c Heq. apply (Hlast c (reverse pre)).
    apply (inj reverse). by rewrite Heq, reverse_cons, reverse_involutive.
  - exists before, (reverse after). rewrite <- reverse_app, <- Hafter.
    by rewrite reverse_involutive.
Qed.

(** X11: the cleaned text of a chapter has no white space other than
    single spaces between other characters: every white-space unit is
    U+0020, none follows another, and the text neither starts nor ends with
    one. *)
Theorem plain_text_normalised chapter :
  let text := plain_text chapter in
  Forall (λ c, is_space c = true → c = space) text ∧
  no_space_run text ∧ trimmed text.
Proof.
  intros text. unfold text, plain_text.
  set (collapsed := collapse_spaces (strip_tags (chapter_body chapter))).
  destruct (collapse_from_spec (strip_tags (chapter_body chapter)) false)
    as (Hall & Hrun & _). fold (collapse_spaces (strip_tags (chapter_body chapter))) in *.
  fold collapsed in Hall, Hrun.
  destruct (trim_spec collapsed) as [Htrimmed (before & after & Heq)].
  split; [|split; [|done]].
  - rewrite Heq in Hall. by apply Forall_app in Hall as [_ [Hall _]%Forall_app].
  - intros pre c d post Hpre. apply (Hrun (before ++ pre) c d (post ++ after)).
    rewrite Heq at 1. rewrite Hpre. by rewrite <- !app_assoc.
Qed.

(** *** The chunks of a book *)

Lemma chunker_returns chapters chunkSize overlap :
  0 ≤ overlap < chunkSize →
  ∃ rounds, ∀ fuel, (rounds ≤ fuel)%nat →
    chunkBookContent fuel chapters (Some chunkSize) (Some overlap)
    = Returned (chapters ≫= chapter_chunks chunkSize overlap).
Proof.
  intros Hvalid.
  exists (S (foldr Nat.max 0%nat
            ((λ chapter, windows (length (plain_text chapter)) (chunkSize - overlap))
             <$> chapters))).
  intros fuel Hfuel. unfold chunkBookContent; cbn [default from_option Datatypes.id].
  rewrite chapters_loop_closed_form; [done|done|].
  induction chapters as [|chapter chapters IH]; [constructor|].
  cbn [fmap list_fmap foldr] in Hfuel. constructor; [lia|]. apply IH. lia.
Qed.

Lemma steps_cover text (step : nat) : ∀ n,
  (length text ≤ n * step)%nat →
  concat ((λ k, take step (drop (k * step) text)) <$> seq 0 n) = text.
Proof.
  intros n. revert text. induction n as [|n IH]; intros text Hlen.
  { destruct text; [done|cbn in Hlen; lia]. }
  cbn [seq fmap list_fmap concat]. rewrite <- fmap_S_seq, <- list_fmap_compose.
  rewrite (list_fmap_ext _ (λ k, take step (drop (k * step) (drop step text))) (seq 0 n)).
  - rewrite IH by (rewrite length_drop; lia). cbn. apply take_drop.
  - intros i k _. cbn. by rewrite drop_drop.
Qed.

Lemma windows_reach len step : 0 < step → (len ≤ windows len step * Z.to_nat step)%nat.
Proof.
  intros Hstep. unfold windows.
  pose proof (Z.div_mod (Z.of_nat len + step - 1) step ltac:(lia)) as Hdiv.
  pose proof (Z.mod_pos_bound (Z.of_nat len + step - 1) step Hstep) as Hmod.
  assert (0 ≤ (Z.of_nat len + step - 1) / step) by (apply Z.div_pos; lia).
  apply Nat2Z.inj_le. rewrite Nat2Z.inj_mul, !Z2Nat.id by lia. nia.
Qed.

Lemma chapter_chunks_cover chunkSize overlap chapter :
  0 ≤ overlap < chunkSize →
  concat ((λ chunk, take (Z.to_nat (chunkSize - overlap)) (content chunk))
          <$> chapter_chunks chunkSize overlap chapter)
  = if (length (plain_text chapter) <? 50)%nat then [] else plain_text chapter.
Proof.
  intros Hvalid. unfold chapter_chunks.
  destruct (length (plain_text chapter) <? 50)%nat; [done|].
  rewrite <- list_fmap_compose.
  rewrite (list_fmap_ext _ (λ k, take (Z.to_nat (chunkSize - overlap))
             (drop (k * Z.to_nat (chunkSize - overlap)) (plain_text chapter))) (seq 0 _)).
  - apply steps_cover, windows_reach. lia.
  - intros i k _. cbn. unfold window. rewrite take_take. f_equal. lia.
Qed.

(** X12: for parameters with [0 <= overlap < chunkSize] the chunks lose
    nothing: the first [chunkSize - overlap] characters of each chunk, put
    end to end, are the cleaned texts of the chapters of 50 characters or
    more, in order. *)
Theorem chunks_cover_text chapters chunkSize overlap :
  0 ≤ overlap < chunkSize →
  ∃ rounds, ∀ fuel, (rounds ≤ fuel)%nat →
    ∃ chunks,
      chunkBookContent fuel chapters (Some chunkSize) (Some overlap) = Returned chunks ∧
      concat ((λ chunk, take (Z.to_nat (chunkSize - overlap)) (content chunk)) <$> chunks)
      = concat (plain_text <$>
                filter (λ chapter, (50 ≤ length (plain_text chapter))%nat) chapters).
Proof.
  intros Hvalid. destruct (chunker_returns chapters chunkSize overlap Hvalid) as [rounds Hrun].
  exists rounds. intros fuel Hfuel. eexists. split; [by apply Hrun|].
  clear Hrun. induction chapters as [|chapter chapters IH]; [done|].
  rewrite bind_cons, fmap_app, concat_app, chapter_chunks_cover, IH by done.
  rewrite filter_cons.
  destruct (Nat.ltb_spec (length (plain_text chapter)) 50); case_decide; (done || lia).
Qed.

(** *** Chunk ids *)

Lemma pretty_N_go_no_dash (n : N) (acc : string) :
  Forall (λ c, N_of_ascii c ≠ dash) (String.list_ascii_of_string acc) →
  Forall (λ c, N_of_ascii c ≠ dash) (String.list_ascii_of_string (pretty_N_go n acc)).
Proof.
  revert acc. induction (N.lt_wf_0 n) as [n _ IH]; intros acc Hacc.
  destruct (decide (n = 0)%N) as [->|Hn]; [by rewrite pretty_N_go_0|].
  rewrite pretty_N_go_step by lia. apply IH.
  - apply N.div_lt; lia.
  - cbn. constructor; [|done]. unfold pretty_N_char. by repeat case_match.
Qed.

Lemma decimal_no_dash (n : N) : dash ∉ decimal n.
Proof.
  unfold decimal, literal. intros (c & Hc & Hin)%list_elem_of_fmap.
  assert (Forall (λ c, N_of_ascii c ≠ dash) (String.list_ascii_of_string (pretty n))) as Hall.
  { unfold pretty, pretty_N. case_decide; [by repeat constructor|].
    apply pretty_N_go_no_dash. constructor. }
  rewrite Forall_forall in Hall. by apply (Hall c Hin).
Qed.

Lemma decimal_inj (n1 n2 : N) : decimal n1 = decimal n2 → n1 = n2.
Proof.
  unfold decimal, literal. intros Heq. apply (inj pretty).
  rewrite <- (String.string_of_list_ascii_of_string (pretty n1)),
          <- (String.string_of_list_ascii_of_string (pretty n2)). f_equal.
  revert Heq. generalize (String.list_ascii_of_string (pretty n1)),
    (String.list_ascii_of_string (pretty n2)).
  induction l as [|a l IH]; intros [|b l']; cbn; try done.
  intros [= Hab Hl]. f_equal; [|by apply IH].
  by rewrite <- (ascii_N_embedding a), <- (ascii_N_embedding b), Hab.
Qed.

Lemma split_at_dash (d1 d2 r1 r2 : jsstring) :
  dash ∉ d1 → dash ∉ d2 → d1 ++ dash :: r1 = d2 ++ dash :: r2 → d1 = d2 ∧ r1 = r2.
Proof.
  revert d2. induction d1 as [|c d1 IH]; intros [|c' d2] H1 H2; cbn.
  - by intros [= ->].
  - intros [= <- _]. destruct H2. left.
  - intros [= -> _]. destruct H1. left.
  - intros [= -> Heq]. destruct (IH d2) as [-> ->]; [| |done|done].
    + intros Hin. apply H1. by right.
    + intros Hin. apply H2. by right.
Qed.

Lemma chunk_id_inj (id1 id2 : jsstring) (k1 k2 : N) :
  id1 ++ literal "-chunk-" ++ decimal k1 = id2 ++ literal "-chunk-" ++ decimal k2 →
  id1 = id2 ∧ k1 = k2.
Proof.
  intros Heq. apply (f_equal reverse) in Heq. rewrite !reverse_app in Heq.
  change (reverse (literal "-chunk-")) with (dash :: reverse (literal "-chunk")) in Heq.
  rewrite <- !app_assoc in Heq. cbn [app] in Heq.
  apply split_at_dash in Heq as [Hk Hid].
  - apply (inj reverse) in Hk. apply decimal_inj in Hk.
    apply app_inv_head, (inj reverse) in Hid. done.
  - rewrite elem_of_reverse. apply decimal_no_dash.
  - rewrite elem_of_reverse. apply decimal_no_dash.
Qed.

Lemma chapter_chunks_ids chunkSize overlap chapter chunk :
  chunk ∈ chapter_chunks chunkSize overlap chapter →
  chapterId chunk = chapter_id chapter ∧ chapterTitle chunk = chapter_title chapter ∧
  ∃ k, chunk_id chunk = chapter_id chapter ++ literal "-chunk-" ++ decimal (N.of_nat k).
Proof.
  unfold chapter_chunks. destruct (length (plain_text chapter) <? 50)%nat.
  { by intros ?%elem_of_nil. }
  intros (k & -> & _)%list_elem_of_fmap. cbn. split; [done|]. split; [done|]. by exists k.
Qed.

Lemma chapter_chunks_NoDup chunkSize overlap chapter :
  NoDup (chunk_id <$> chapter_chunks chunkSize overlap chapter).
Proof.
  unfold chapter_chunks. destruct (length (plain_text chapter) <? 50)%nat; [constructor|].
  rewrite <- list_fmap_compose. apply NoDup_fmap_2; [|apply NoDup_seq].
  intros k1 k2 [_ Hk]%chunk_id_inj. lia.
Qed.

(** X13: when the chapters have different ids, so have all the chunks;
    every chunk carries the id and the title of its chapter, and its own id
    is the chapter's followed by [-chunk-] and a number. *)
Theorem chunk_ids_distinct chapters chunkSize overlap :
  0 ≤ overlap < chunkSize →
  NoDup (chapter_id <$> chapters) →
  ∃ rounds, ∀ fuel, (rounds ≤ fuel)%nat →
    ∃ chunks,
      chunkBookContent fuel chapters (Some chunkSize) (Some overlap) = Returned chunks ∧
      NoDup (chunk_id <$> chunks) ∧
      ∀ chunk, chunk ∈ chunks →
        ∃ chapter k, chapter ∈ chapters ∧
          chunk_id chunk = chapter_id chapter ++ literal "-chunk-" ++ decimal k ∧
          chapterId chunk = chapter_id chapter ∧
          chapterTitle chunk = chapter_title chapter.
Proof.
  intros Hvalid Hchapters.
  destruct (chunker_returns chapters chunkSize overlap Hvalid) as [rounds Hrun].
  exists rounds. intros fuel Hfuel. eexists. split; [by apply Hrun|]. clear Hrun. split.
  - induction chapters as [|chapter chapters IH]; [constructor|].
    apply NoDup_cons in Hchapters as [Hfresh Hchapters].
    rewrite bind_cons, fmap_app. apply NoDup_app. split; [apply chapter_chunks_NoDup|].
    split; [|by apply IH].
    intros id (c1 & -> & Hc1)%list_elem_of_fmap (c2 & Heq & Hc2)%list_elem_of_fmap.
    apply list_elem_of_bind in Hc2 as (chapter' & Hc2 & Hchapter').
    apply chapter_chunks_ids in Hc1 as (_ & _ & k1 & Hk1).
    apply chapter_chunks_ids in Hc2 as (_ & _ & k2 & Hk2).
    rewrite Hk1, Hk2 in Heq. apply chunk_id_inj in Heq as [Heq _].
    apply Hfresh. rewrite Heq. by apply list_elem_of_fmap_2.
  - intros chunk (chapter & Hchunk & Hchapter)%list_elem_of_bind.
    apply chapter_chunks_ids in Hchunk as (Hid & Htitle & k & Hk).
    by exists chapter, (N.of_nat k).
Qed.
End parser_worker_extra.

(** ** More of the provider calls *)

Section ai_extra.
Import Ai.

Lemma attempts_exhausted fetch random maxRetries n : ∀ i lastError,
  (∀ j, (i ≤ j < i + n)%nat → gives_up fetch j = true) →
  attempts fetch random maxRetries i n lastError
  = (seq i n ≫= retry_round random,
     Throws (default ("Fetch failed after " +:+ pretty maxRetries +:+ " retries")
                     (last_error fetch lastError (seq i n)))).
Proof.
  induction n as [|n IH]; intros i lastError Hall; [done|].
  cbn [attempts seq]. rewrite bind_cons. specialize (Hall i ltac:(lia)) as Hi.
  unfold gives_up in Hi. cbn [last_error foldl].
  destruct (fetch i) as [status|error].
  - apply andb_true_iff in Hi as [Hok%negb_true_iff Hretried]. rewrite Hok, Hretried.
    rewrite IH by (intros j Hj; apply Hall; lia). done.
  - rewrite IH by (intros j Hj; apply Hall; lia). done.
Qed.

Lemma attempts_settled fetch random maxRetries k status : ∀ n i lastError,
  (k < n)%nat →
  (∀ j, (i ≤ j < i + k)%nat → gives_up fetch j = true) →
  fetch (i + k)%nat = Responded status → ok status || negb (retried status) = true →
  attempts fetch random maxRetries i n lastError
  = ((seq i k ≫= retry_round random) ++ [Fetch (i + k)%nat], Returns status).
Proof.
  induction k as [|k IH]; intros n i lastError Hk Hall Hfetch Hfinal.
  - destruct n as [|n]; [lia|]. cbn [attempts]. rewrite Nat.add_0_r in Hfetch |- *.
    rewrite Hfetch. cbn. destruct (ok status); [done|]. cbn in Hfinal.
    apply negb_true_iff in Hfinal. by rewrite Hfinal.
  - destruct n as [|n]; [lia|]. cbn [attempts seq]. rewrite bind_cons.
    specialize (Hall i ltac:(lia)) as Hi. unfold gives_up in Hi.
    replace (i + S k)%nat with (S i + k)%nat in * by lia.
    destruct (fetch i) as [status'|error].
    + apply andb_true_iff in Hi as [Hok%negb_true_iff Hretried]. rewrite Hok, Hretried.
      rewrite (IH n (S i)); [done|lia| |done|done]. intros j Hj. apply Hall. lia.
    + rewrite (IH n (S i)); [done|lia| |done|done]. intros j Hj. apply Hall. lia.
Qed.

(** X16: what [fetchWithRetry] comes to, for any [maxRetries].  Its result
    is the first response that is ok, or that is neither a server error nor
    a rate limit, among the first [maxRetries] attempts, reached after one
    wait per earlier attempt.  When every attempt is a failure, a server
    error or a rate limit, it waits after each, the last one too, and
    throws: the error of the last attempt that failed, or "Fetch failed
    after n retries" when every attempt got a response. *)
Theorem fetch_retry_outcome fetch random maxRetries :
  let n := default 3%nat maxRetries in
  let run := fetchWithRetry fetch random maxRetries in
  (∀ i status,
     (i < n)%nat → (∀ j, (j < i)%nat → gives_up fetch j = true) →
     fetch i = Responded status → ok status || negb (retried status) = true →
     run = ((seq 0 i ≫= retry_round random) ++ [Fetch i], Returns status)) ∧
  ((∀ j, (j < n)%nat → gives_up fetch j = true) →
   run = (seq 0 n ≫= retry_round random,
          Throws (default ("Fetch failed after " +:+ pretty n +:+ " retries")
                          (last_error fetch None (seq 0 n))))).
Proof.
  intros n run. split.
  - intros i status Hi Hall Hfetch Hfinal. unfold run, fetchWithRetry. fold n.
    apply (attempts_settled fetch random n i status n 0 None); [done| |done|done].
    intros j Hj. apply Hall. lia.
  - intros Hall. unfold run, fetchWithRetry. fold n.
    apply attempts_exhausted. intros j Hj. apply Hall. lia.
Qed.

(** *** [cosineSimilarity] *)

Lemma SFmul_comm (x y : spec_float) : SF64mul x y = SF64mul y x.
Proof.
  destruct x as [sx|sx| |sx mx ex], y as [sy|sy| |sy my ey]; cbn;
    rewrite ?(xorb_comm sx sy); try done.
  by rewrite (Pos.mul_comm mx my), (Z.add_comm ex ey).
Qed.

Lemma float_mul_comm (x y : float) : (x * y = y * x)%float.
Proof. apply FloatAxioms.Prim2SF_inj. rewrite !FloatAxioms.mul_spec. apply SFmul_comm. Qed.

Lemma cosine_step_swap acc ab :
  cosine_step (acc.1.1, acc.2, acc.1.2) (ab.2, ab.1)
  = ((cosine_step acc ab).1.1, (cosine_step acc ab).2, (cosine_step acc ab).1.2).
Proof. destruct acc as [[d na] nb], ab as [x y]; cbn. by rewrite (float_mul_comm y x). Qed.

Lemma cosine_fold_swap a b : ∀ acc,
  foldl cosine_step (acc.1.1, acc.2, acc.1.2) (zip b a)
  = ((foldl cosine_step acc (zip a b)).1.1, (foldl cosine_step acc (zip a b)).2,
     (foldl cosine_step acc (zip a b)).1.2).
Proof.
  revert b. induction a as [|x a IH]; intros [|y b] acc; cbn [zip zip_with foldl]; try done.
  rewrite <- IH. f_equal. apply (cosine_step_swap acc (x, y)).
Qed.

(** X18: [cosineSimilarity(a, b)] and [cosineSimilarity(b, a)] are the same
    number, bit for bit. *)
Theorem cosineSimilarity_symmetric (a b : list float) :
  cosineSimilarity a b = cosineSimilarity b a.
Proof.
  unfold cosineSimilarity. rewrite (Nat.eqb_sym (length b)).
  destruct (length a =? length b)%nat; [|done]. cbn [negb].
  pose proof (cosine_fold_swap a b (0, 0, 0)%float) as Hswap. cbn [fst snd] in Hswap.
  rewrite Hswap. destruct (foldl cosine_step _ (zip a b)) as [[d na] nb]. cbn [fst snd].
  by rewrite (float_mul_comm (sqrt nb)).
Qed.

Lemma zero_times (x y : spec_float) :
  zero_or_nan x → zero_or_nan (SF64mul x y) ∧ zero_or_nan (SF64mul y x).
Proof. by destruct x as [?|?| |???], y as [?|?| |???]. Qed.

Lemma zero_plus (x y : spec_float) :
  zero_or_nan x → zero_or_nan y → zero_or_nan (SF64add x y).
Proof. by destruct x as [[]|?| |???], y as [[]|?| |???]. Qed.

Lemma zero_over_zero (x y : spec_float) :
  zero_or_nan x → zero_or_nan y → SF64div x y = S754_nan.
Proof. by destruct x as [?|?| |???], y as [?|?| |???]. Qed.

Lemma zero_sqrt (x : spec_float) : zero_or_nan x → zero_or_nan (SF64sqrt x).
Proof. by destruct x as [?|?| |???]. Qed.

Lemma is_zero_spec (x : float) : (x =? 0)%float = true → zero_or_nan (Prim2SF x).
Proof.
  rewrite FloatAxioms.eqb_spec. change (Prim2SF 0) with (S754_zero false).
  by destruct (Prim2SF x) as [?|[]| |[] ??].
Qed.

Lemma cosine_fold_zero a b : ∀ d na nb,
  Forall (λ x, (x =? 0)%float = true) a →
  zero_or_nan (Prim2SF d) → zero_or_nan (Prim2SF na) →
  zero_or_nan (Prim2SF (foldl cosine_step (d, na, nb) (zip a b)).1.1) ∧
  zero_or_nan (Prim2SF (foldl cosine_step (d, na, nb) (zip a b)).1.2).
Proof.
  revert b. induction a as [|x a IH]; intros [|y b] d na nb Ha Hd Hna;
    cbn [zip zip_with foldl]; try done.
  apply Forall_cons in Ha as [Hx%is_zero_spec Ha]. cbn [cosine_step fst snd].
  apply IH; [done|..]; rewrite FloatAxioms.add_spec, FloatAxioms.mul_spec;
    (apply zero_plus; [done|]); apply (proj1 (zero_times _ _ Hx)).
Qed.

(** X17: [cosineSimilarity] gives 0 for vectors of different lengths, and
    NaN when the lengths agree and one vector holds only zeros: it has no
    guard against a zero norm. *)
Theorem cosineSimilarity_degenerate (a b : list float) :
  (length a ≠ length b → cosineSimilarity a b = 0%float) ∧
  (length a = length b → Forall (λ x, (x =? 0)%float = true) a →
   (cosineSimilarity a b =? cosineSimilarity a b)%float = false).
Proof.
  unfold cosineSimilarity. split.
  - intros Hlen. by destruct (Nat.eqb_spec (length a) (length b)).
  - intros Hlen Ha. rewrite Hlen, Nat.eqb_refl. cbn [negb].
    destruct (cosine_fold_zero a b 0 0 0 Ha) as [Hd Hna]; [done..|].
    destruct (foldl cosine_step _ (zip a b)) as [[d na] nb]. cbn [fst snd] in *.
    rewrite FloatAxioms.eqb_spec, FloatAxioms.div_spec, FloatAxioms.mul_spec,
      !FloatAxioms.sqrt_spec.
    rewrite zero_over_zero; [done|done|]. by apply (proj1 (zero_times _ _ (zero_sqrt _ Hna))).
Qed.

(** *** [getBatchEmbeddings] *)

Lemma attempts_returns fetch random maxRetries n status : ∀ i lastError,
  (attempts fetch random maxRetries i n lastError).2 = Returns status →
  ok status || negb (retried status) = true.
Proof.
  induction n as [|n IH]; intros i lastError; cbn [attempts]; [done|].
  destruct (fetch i) as [status'|error]; [|by apply IH].
  destruct (ok status') eqn:Hok; [by intros [= <-]; rewrite Hok|].
  destruct (retried status') eqn:Hretried; [by apply IH|].
  intros [= <-]. by rewrite Hok, Hretried.
Qed.

Lemma batch_requests_spec fuel fetch random json limit : ∀ request remaining results,
  let run := batch_requests fuel fetch random json limit request remaining results in
  (∀ message retryable, run.2 = BatchApiError message retryable → retryable = false) ∧
  ((0 < limit)%nat → (length remaining ≤ fuel)%nat → run.2 ≠ BatchRunning) ∧
  (∀ embeddings, run.2 = BatchReturns embeddings →
     concat run.1 = truncate <$> remaining ∧
     Forall (λ batch, (length batch ≤ limit)%nat) run.1 ∧
     ∃ bodies,
       Forall2 (λ k body, json k = inr body) (seq request (length run.1)) bodies ∧
       embeddings = results ++ concat bodies).
Proof.
  induction fuel as [|fuel IH]; intros request remaining results;
    destruct remaining as [|text remaining]; cbn [batch_requests].
  - split; [done|]. split; [done|]. intros ? [= <-]. split; [done|]. split; [done|].
    exists []. split; [constructor|]. by rewrite app_nil_r.
  - split; [done|]. split; [cbn; lia|done].
  - split; [done|]. split; [done|]. intros ? [= <-]. split; [done|]. split; [done|].
    exists []. split; [constructor|]. by rewrite app_nil_r.
  - destruct (fetchWithRetry (fetch request) (random request) None) as [effects result] eqn:Hrun.
    cbn [snd]. destruct result as [status|error]; [|done].
    assert (Hfinal : ok status || negb (retried status) = true).
    { eapply (attempts_returns (fetch request) (random request) 3 3 status 0 None).
      unfold fetchWithRetry in Hrun. cbn in Hrun |- *. by rewrite Hrun. }
    destruct (ok status) eqn:Hok; cbn [negb].
    + destruct (json request) as [error|body] eqn:Hjson; [done|].
      set (tail := drop limit (text :: remaining)).
      destruct (IH (S request) tail (results ++ body)) as (Hflag & Hends & Hreturns).
      cbn [fst snd]. split; [done|]. split.
      * intros Hlimit Hfuel. apply Hends; [done|].
        unfold tail. rewrite length_drop. cbn in Hfuel |- *. lia.
      * intros embeddings Hresult.
        destruct (Hreturns embeddings Hresult) as (Hinputs & Hsizes & bodies & Hbodies & ->).
        split; [|split].
        -- cbn [concat]. rewrite Hinputs. unfold tail.
           by rewrite <- fmap_app, take_drop.
        -- constructor; [|done]. rewrite length_fmap, length_take. lia.
        -- exists (body :: bodies). split; [by constructor|].
           cbn [concat]. by rewrite app_assoc.
    + cbn [snd]. split; [|done]. intros message retryable [= _ <-].
      cbn in Hfinal. apply negb_true_iff in Hfinal. unfold retried in Hfinal.
      by rewrite orb_comm.
Qed.

(** X19: the API error of [getBatchEmbeddings] never says [retryable]: a
    response with a server error or a rate limit does not come back from
    [fetchWithRetry].  With a positive batch size the loop ends within one
    round per text.  When the call returns, the requests made carry the
    texts in order, each cut to its first 8000 UTF-16 code units, at most
    [batchSizeLimit] a request, and the result is the vectors of the
    responses, in order. *)
Theorem batch_embeddings_outcome fuel fetch random json texts batchSizeLimit :
  let run := getBatchEmbeddings fuel fetch random json texts batchSizeLimit in
  (∀ message retryable, run.2 = BatchApiError message retryable → retryable = false) ∧
  ((0 < default 2048 batchSizeLimit)%nat → (length texts ≤ fuel)%nat →
   run.2 ≠ BatchRunning) ∧
  (∀ embeddings, run.2 = BatchReturns embeddings →
     concat run.1 = take (Z.to_nat 8000) <$> texts ∧
     Forall (λ batch, (length batch ≤ default 2048 batchSizeLimit)%nat) run.1 ∧
     ∃ bodies,
       Forall2 (λ k body, json k = inr body) (seq 0 (length run.1)) bodies ∧
       embeddings = concat bodies).
Proof. apply batch_requests_spec. Qed.
End ai_extra.

(** ** More of the embedding cache *)

Section db_extra.
Import JS Db.

Lemma ToInt8_exact (z : Z) : int8 z → ToInt8 (number_of_Z z) = z.
Proof.
  intros Hz.
  assert (Hall : forallb (λ z, ToInt8 (number_of_Z z) =? z) (seqZ (-128) 256) = true)
    by (vm_compute; reflexivity).
  rewrite forallb_forall in Hall. apply Z.eqb_eq, Hall, list_elem_of_In, elem_of_seqZ.
  unfold int8 in Hz. lia.
Qed.

Lemma Int8Array_from_exact (bytes : list Z) :
  Forall int8 bytes → Int8Array_from (Array_from_Int8Array bytes) = bytes.
Proof.
  induction 1 as [|z bytes Hz _ IH]; [done|].
  cbn. rewrite ToInt8_exact by done. f_equal. exact IH.
Qed.

(** X20: a vector of integers between -128 and 127 survives the cache
    exactly: written as an [Int8Array] or as numbers, by [saveEmbedding] or
    by [saveEmbeddingsBatch], the record is the same, and
    [getBookEmbeddings] reads the numbers back. *)
Theorem int8_round_trip bookId chunkId (bytes : list Z) model store :
  Forall int8 bytes →
  let numbers := Array_from_Int8Array bytes in
  let store1 := saveEmbedding bookId chunkId (inr bytes) model store in
  let store2 := saveEmbeddingsBatch bookId [(chunkId, numbers)] model store in
  getBookEmbeddings bookId store1 !! chunkId = Some numbers ∧
  store2 = store1 ∧
  saveEmbedding bookId chunkId (inl numbers) model store = store1.
Proof.
  intros Hbytes numbers store1 store2.
  assert (Hsame : saveEmbedding bookId chunkId (inl numbers) model store = store1).
  { unfold store1, saveEmbedding, numbers. by rewrite Int8Array_from_exact. }
  split; [|split; [|done]].
  - unfold store1, saveEmbedding, getBookEmbeddings.
    by rewrite lookup_fmap, records_of_put, decide_True.
  - rewrite <- Hsame. done.
Qed.

Lemma records_of_put_ne bookId bookId' chunkId record store :
  bookId ≠ bookId' →
  records_of bookId' (put bookId chunkId record store) = records_of bookId' store.
Proof. intros Hne. unfold put, records_of. by rewrite lookup_insert_ne. Qed.

(** X21: of the entries of a batch under one chunk id the last one is what
    [saveEmbeddingsBatch] leaves; chunk ids that the batch does not name,
    and other books, keep their records. *)
Theorem save_batch_frame bookId before chunkId v after model store :
  chunkId ∉ (fst <$> after) →
  let store' := saveEmbeddingsBatch bookId (before ++ (chunkId, v) :: after) model store in
  records_of bookId store' !! chunkId
    = Some (mkStored (Int8Array_from v) model (length v)) ∧
  (∀ other, other ∉ (fst <$> before ++ (chunkId, v) :: after) →
     records_of bookId store' !! other = records_of bookId store !! other) ∧
  (∀ bookId', bookId' ≠ bookId → records_of bookId' store' = records_of bookId' store).
Proof.
  intros Hlast store'. unfold store', saveEmbeddingsBatch.
  assert (Hskip : ∀ (batch : list (string * list float)) store0 other,
    other ∉ (fst <$> batch) →
    records_of bookId (foldl (λ store e, put bookId e.1
        (mkStored (Int8Array_from e.2) model (length (Int8Array_from e.2))) store)
        store0 batch) !! other
    = records_of bookId store0 !! other).
  { intros batch. induction batch as [|e batch IH] using rev_ind; intros store0 other Hother.
    { done. }
    rewrite foldl_app; cbn [foldl]. rewrite records_of_put.
    rewrite fmap_app in Hother. apply not_elem_of_app in Hother as [Hbatch He].
    rewrite decide_False; [by apply IH|]. intros Heq. apply He. rewrite <- Heq. cbn. left. }
  split; [|split].
  - rewrite foldl_app; cbn [foldl]. rewrite Hskip by done.
    rewrite records_of_put, decide_True by done.
    unfold Int8Array_from. by rewrite length_fmap.
  - intros other Hother. by apply Hskip.
  - intros bookId' Hne. generalize (before ++ (chunkId, v) :: after). intros batch.
    induction batch as [|e batch IH] using rev_ind; [done|].
    rewrite foldl_app; cbn [foldl]. by rewrite records_of_put_ne.
Qed.

Section books_facts.
Context {Book : Type} (book_id : Book → string).

(** X22: [deleteBook] removes the book and its cached vectors, so that no
    metadata is left of it, also for a book just saved; other books and
    their vectors stay. *)
Theorem delete_book_clears id (db : Database (Book := Book)) :
  let db' := deleteBook id db in
  getLocalBook id db' = None ∧
  getBookEmbeddings id (db_embeddings db') = ∅ ∧
  getEmbeddingMetadata id (db_embeddings db') = None ∧
  (∀ bookData, getLocalBook (book_id bookData) (deleteBook (book_id bookData)
                                                  (saveBook book_id bookData db)) = None) ∧
  ∀ other, other ≠ id →
    getLocalBook other db' = getLocalBook other db ∧
    records_of other (db_embeddings db') = records_of other (db_embeddings db).
Proof.
  intros db'. split; [apply lookup_delete_eq|]. split; [|split; [|split]].
  - unfold getBookEmbeddings. cbn. rewrite records_of_clear. apply fmap_empty.
  - apply getEmbeddingMetadata_None. cbn. apply records_of_clear.
  - intros bookData. apply lookup_delete_eq.
  - intros other Hne. split; [by apply lookup_delete_ne|].
    cbn. unfold records_of, clearBookEmbeddings. by rewrite lookup_delete_ne.
Qed.
End books_facts.
End db_extra.

(** ** More of the pipeline *)

Section rag_extra.
Import Db Rag.

Lemma misses_cons persisted offset c chunks :
  misses persisted offset (c :: chunks)
  = (match persisted !! chunk_id c with Some _ => [] | None => [(offset, c)] end)
    ++ misses persisted (S offset) chunks.
Proof.
  unfold misses. rewrite imap_cons, filter_cons. cbn [snd].
  rewrite Nat.add_0_r.
  rewrite (imap_ext _ (λ k c0, ((S offset + k)%nat, c0)) chunks)
    by (intros; cbn; f_equal; lia).
  destruct (persisted !! chunk_id c) as [found|] eqn:Hc.
  - rewrite decide_False; [done|]. intros Hnot. apply Hnot. by eexists.
  - rewrite decide_True; [done|]. by intros [? ?].
Qed.

Lemma partition_closed_form persisted chunks : ∀ env semanticChunks uncached,
  foldl (partition_step persisted) (env, semanticChunks, uncached) chunks
  = (mkEnv (store env)
           (WorkerClient.run (cached_sends persisted chunks) (client env)) (trace env),
     semanticChunks ++ (from_cache persisted <$> chunks),
     uncached ++ misses persisted (length semanticChunks) chunks).
Proof.
  induction chunks as [|c chunks IH]; intros env semanticChunks uncached.
  { cbn. rewrite !app_nil_r. by destruct env. }
  cbn [foldl]. unfold partition_step at 2. rewrite misses_cons.
  unfold cached_sends. cbn [omap list_omap fmap list_fmap]. unfold from_cache at 1.
  destruct (persisted !! chunk_id c) as [found|] eqn:Hc; cbn [fmap option_fmap option_map].
  - rewrite IH. rewrite length_app; cbn [length]. rewrite Nat.add_1_r.
    cbn [fmap list_fmap]. by rewrite <- !app_assoc.
  - rewrite IH. rewrite length_app; cbn [length]. rewrite Nat.add_1_r.
    cbn [fmap list_fmap]. by rewrite <- !app_assoc.
Qed.

Lemma alter_keeps_chunk found (semanticChunks : list SemanticChunk) : ∀ i,
  chunk <$> alter (λ sc, mkSemantic (chunk sc) found) i semanticChunks
  = chunk <$> semanticChunks.
Proof.
  induction semanticChunks as [|sc semanticChunks IH]; intros [|i]; cbn; try done.
  f_equal. apply IH.
Qed.

Lemma batch_fold_chunks embeddings batch : ∀ env semanticChunks newEmbeddings batchIdx,
  let done :=
    foldl (batch_step embeddings) (env, semanticChunks, newEmbeddings, batchIdx) batch in
  chunk <$> done.1.1.2 = chunk <$> semanticChunks ∧
  ∀ i, i ∉ (fst <$> batch) → done.1.1.2 !! i = semanticChunks !! i.
Proof.
  induction batch as [|item batch IH]; intros env semanticChunks newEmbeddings batchIdx;
    [done|].
  cbn [foldl].
  assert (Hstep : batch_step embeddings (env, semanticChunks, newEmbeddings, batchIdx) item
    = (send_index (chunk_id item.2) (content item.2) (embeddings !! batchIdx) env,
       alter (λ sc, mkSemantic (chunk sc) (embeddings !! batchIdx)) item.1 semanticChunks,
       newEmbeddings ++ [(chunk_id item.2, default [] (embeddings !! batchIdx))],
       S batchIdx)) by done.
  rewrite Hstep. clear Hstep.
  edestruct IH as [Hchunks Hkeep]. split.
  - rewrite Hchunks. apply alter_keeps_chunk.
  - intros i Hi. rewrite Hkeep.
    + apply list_lookup_alter_ne. intros Heq. apply Hi. rewrite <- Heq. cbn. left.
    + intros Hin. apply Hi. by right.
Qed.

Lemma batches_chunks fuel embed total cached : ∀ i calls remaining env semanticChunks
    newEmbeddings,
  let done := batches fuel embed total cached i calls remaining env semanticChunks
                newEmbeddings in
  chunk <$> done.1.1.2 = chunk <$> semanticChunks ∧
  (∀ k, k ∉ (fst <$> remaining) → done.1.1.2 !! k = semanticChunks !! k) ∧
  (∀ message, done.2 = Some message → ∃ call texts, embed call texts = ApiError message).
Proof.
  induction fuel as [|fuel IH];
    intros i calls remaining env semanticChunks newEmbeddings.
  { by destruct remaining. }
  destruct remaining as [|item remaining]; [done|].
  cbn [batches]. set (batch := take BATCH_SIZE (item :: remaining)).
  assert (Hsub : ∀ k, k ∉ (fst <$> item :: remaining) →
            (k ∉ fst <$> batch) ∧ (k ∉ fst <$> drop BATCH_SIZE (item :: remaining))).
  { intros k Hk. split; intros Hin; apply Hk.
    - apply list_elem_of_fmap in Hin as (x & -> & Hx). apply list_elem_of_fmap_2.
      by eapply subseteq_take.
    - apply list_elem_of_fmap in Hin as (x & -> & Hx). apply list_elem_of_fmap_2.
      by eapply subseteq_drop. }
  destruct (embed calls _) as [embeddings|message|message] eqn:Hembed.
  - pose proof (batch_fold_chunks embeddings batch
      (log (CalledProvider ((λ b, content b.2) <$> batch)) env)
      semanticChunks newEmbeddings 0%nat) as [Hchunks Hkeep].
    destruct (foldl _ _ _) as [[[env1 semanticChunks1] newEmbeddings1] batchIdx1].
    cbn [fst snd] in Hchunks, Hkeep.
    edestruct IH as (Hchunks' & Hkeep' & Hthrown). split; [|split].
    + rewrite Hchunks'. exact Hchunks.
    + intros k [Hk1 Hk2]%Hsub. rewrite Hkeep' by done. by apply Hkeep.
    + exact Hthrown.
  - cbn. split; [done|]. split; [done|]. intros ? [= <-]. by eexists _, _.
  - edestruct IH as (Hchunks' & Hkeep' & Hthrown). split; [exact Hchunks'|]. split.
    + intros k [Hk1 Hk2]%Hsub. by apply Hkeep'.
    + exact Hthrown.
Qed.

Lemma batches_swallowed fuel embed total cached : ∀ i calls remaining env semanticChunks
    newEmbeddings,
  (∀ call texts, texts ≠ [] → ∃ error, embed call texts = OtherError error) →
  let done := batches fuel embed total cached i calls remaining env semanticChunks
                newEmbeddings in
  done.1.1.2 = semanticChunks ∧ done.1.2 = newEmbeddings ∧ done.2 = None ∧
  client done.1.1.1 = client env.
Proof.
  intros i calls remaining env semanticChunks newEmbeddings Hembed. revert i calls remaining env.
  induction fuel as [|fuel IH]; intros i calls remaining env.
  { by destruct remaining. }
  destruct remaining as [|item remaining]; [done|].
  cbn [batches]. destruct (Hembed calls ((λ b, content b.2) <$> take BATCH_SIZE (item :: remaining)))
    as [error ->]; [done|].
  edestruct IH as (H1 & H2 & H3 & H4). rewrite H1, H2, H3, H4. done.
Qed.

Lemma pipeline_unfold embed chunks config bookId env :
  ∃ env', indexChunksWithEmbeddings embed chunks config bookId env
          = index_from_cache embed chunks config bookId env' ∧
    store env' = validated_store bookId config (store env) ∧
    client env' = client env ∧
    (valid (validateIndex bookId config (store env)) = true → env' = env).
Proof.
  unfold indexChunksWithEmbeddings, validated_store.
  destruct (valid (validateIndex bookId config (store env))); eexists; by repeat split.
Qed.

Lemma misses_spec persisted offset chunks i c :
  (i, c) ∈ misses persisted offset chunks →
  ∃ k, i = (offset + k)%nat ∧ chunks !! k = Some c ∧ persisted !! chunk_id c = None.
Proof.
  unfold misses. intros [Hmiss Hin]%list_elem_of_filter. cbn in Hmiss.
  apply list_elem_of_lookup in Hin as [k Hk]. rewrite list_lookup_imap in Hk.
  destruct (chunks !! k) as [c'|] eqn:Hc; [|done]. injection Hk as <- <-.
  exists k. split; [done|]. split; [done|].
  destruct (persisted !! chunk_id c') eqn:Hp; [|done]. destruct Hmiss. by eexists.
Qed.

Lemma misses_none persisted offset chunks :
  Forall (λ c, is_Some (persisted !! chunk_id c)) chunks →
  misses persisted offset chunks = [].
Proof.
  intros Hall. revert offset. induction Hall as [|c chunks [found Hc] _ IH]; intros offset.
  { done. }
  by rewrite misses_cons, Hc, IH.
Qed.

Lemma index_from_cache_run embed chunks config bookId env :
  let cache := getBookEmbeddings bookId (store env) in
  let run := index_from_cache embed chunks config bookId env in
  (∀ semanticChunks, run.2 = Resolved semanticChunks →
     chunk <$> semanticChunks = chunks ∧
     ∀ i c found, chunks !! i = Some c → cache !! chunk_id c = Some found →
       semanticChunks !! i = Some (mkSemantic c (Some found))) ∧
  (∀ message, run.2 = Rejected message →
     (∃ call texts, embed call texts = ApiError message) ∧ store run.1 = store env) ∧
  ((∀ call texts, texts ≠ [] → ∃ error, embed call texts = OtherError error) →
     run.2 = Resolved (from_cache cache <$> chunks) ∧ store run.1 = store env ∧
     client run.1 = WorkerClient.run (cached_sends cache chunks) (client env)) ∧
  (Forall (λ c, is_Some (cache !! chunk_id c)) chunks →
     run = (mkEnv (store env) (WorkerClient.run (cached_sends cache chunks) (client env))
                  (trace env ++ [LoadedEmbeddings bookId cache]),
            Resolved (from_cache cache <$> chunks))).
Proof.
  intros cache run. unfold run, index_from_cache. fold cache.
  rewrite partition_closed_form. cbn [app length store client trace log].
  set (env1 := mkEnv _ _ _). set (uncached := misses cache 0 chunks).
  set (partitioned := from_cache cache <$> chunks).
  pose proof (batches_chunks (length uncached) embed (length chunks)
    (length chunks - length uncached) 0 0 uncached env1 partitioned [])
    as (Hchunks & Hkeep & Hthrown).
  pose proof (batches_env (length uncached) embed (length chunks)
    (length chunks - length uncached) 0 0 uncached env1 partitioned [])
    as [Hstore _].
  pose proof (batches_swallowed (length uncached) embed (length chunks)
    (length chunks - length uncached) 0 0 uncached env1 partitioned [])
    as Hswallowed.
  assert (Hpartitioned : chunk <$> partitioned = chunks).
  { unfold partitioned. rewrite <- list_fmap_compose. apply list_fmap_id. }
  assert (Hhit : ∀ i c found, chunks !! i = Some c → cache !! chunk_id c = Some found →
            (i ∉ fst <$> uncached) ∧ partitioned !! i = Some (mkSemantic c (Some found))).
  { intros i c found Hi Hc. split.
    - intros ([i' c'] & -> & (k & -> & Hk & Hmiss)%misses_spec)%list_elem_of_fmap.
      cbn in Hi. rewrite Hi in Hk. injection Hk as <-. congruence.
    - unfold partitioned. rewrite list_lookup_fmap, Hi. cbn. unfold from_cache. by rewrite Hc. }
  split; [|split; [|split]].
  - destruct (batches _ _ _ _ _ _ _ _ _ _) as [[[env2 semanticChunks2] newEmbeddings] thrown].
    cbn [fst snd] in *. intros semanticChunks Hresult.
    assert (semanticChunks2 = semanticChunks) as <-.
    { destruct thrown; [done|]. by destruct newEmbeddings; injection Hresult. }
    split; [by rewrite Hchunks|]. intros i c found Hi Hc.
    destruct (Hhit i c found Hi Hc) as [Hout Hin]. by rewrite Hkeep.
  - destruct (batches _ _ _ _ _ _ _ _ _ _) as [[[env2 semanticChunks2] newEmbeddings] thrown].
    cbn [fst snd] in *. intros message Hresult.
    destruct thrown as [message'|]; [|by destruct newEmbeddings].
    injection Hresult as ->. split; [by apply Hthrown|done].
  - intros Hembed. destruct (Hswallowed Hembed) as (H1 & H2 & H3 & H4).
    destruct (batches _ _ _ _ _ _ _ _ _ _) as [[[env2 semanticChunks2] newEmbeddings] thrown].
    cbn [fst snd] in *. rewrite H1, H2, H3. cbn [fst snd]. done.
  - intros Hall. clear Hchunks Hkeep Hthrown Hstore Hswallowed.
    unfold uncached. rewrite misses_none by done. cbn. done.
Qed.

(** X23: the chunks the pipeline resolves with are the chunks it was
    given, in order, and each chunk the cache (after validation) has a
    vector for carries that vector. *)
Theorem pipeline_keeps_chunks embed chunks config bookId env semanticChunks :
  let cache := getBookEmbeddings bookId (validated_store bookId config (store env)) in
  (indexChunksWithEmbeddings embed chunks config bookId env).2 = Resolved semanticChunks →
  chunk <$> semanticChunks = chunks ∧
  ∀ i c found, chunks !! i = Some c → cache !! chunk_id c = Some found →
    semanticChunks !! i = Some (mkSemantic c (Some found)).
Proof.
  intros cache. destruct (pipeline_unfold embed chunks config bookId env)
    as (env' & -> & Hstore & _). unfold cache. rewrite <- Hstore.
  apply index_from_cache_run.
Qed.

(** X24: for a book whose cache is valid and has a vector for every
    chunk, the pipeline only loads the cache: it sends one [INDEX_CHUNK]
    per chunk to the worker client, calls the provider not once, writes
    nothing, and resolves with the cached vectors. *)
Theorem fully_cached_book embed chunks config bookId env :
  let cache := getBookEmbeddings bookId (store env) in
  valid (validateIndex bookId config (store env)) = true →
  Forall (λ c, is_Some (cache !! chunk_id c)) chunks →
  indexChunksWithEmbeddings embed chunks config bookId env
  = (mkEnv (store env) (WorkerClient.run (cached_sends cache chunks) (client env))
           (trace env ++ [LoadedEmbeddings bookId cache]),
     Resolved (from_cache cache <$> chunks)).
Proof.
  intros cache Hvalid Hall. destruct (pipeline_unfold embed chunks config bookId env)
    as (env' & -> & _ & _ & Henv). rewrite (Henv Hvalid).
  by apply index_from_cache_run.
Qed.

(** X25: when the pipeline rejects, a provider call has ended in an API
    error with that message, and nothing was written: the store is as
    validation left it, without the vectors of the batches that had
    succeeded before. *)
Theorem api_error_saves_nothing embed chunks config bookId env message :
  let run := indexChunksWithEmbeddings embed chunks config bookId env in
  run.2 = Rejected message →
  (∃ call texts, embed call texts = ApiError message) ∧
  store run.1 = validated_store bookId config (store env).
Proof.
  intros run. unfold run. destruct (pipeline_unfold embed chunks config bookId env)
    as (env' & -> & Hstore & _). rewrite <- Hstore.
  apply index_from_cache_run.
Qed.

Lemma outage_throws fuel fetch random json texts :
  texts ≠ [] → (0 < fuel)%nat →
  (∀ j, (j < 3)%nat → Ai.gives_up (fetch 0%nat) j = true) →
  ∃ error, from_provider (Ai.getBatchEmbeddings fuel fetch random json texts None).2
           = Some (OtherError error).
Proof.
  intros Htexts Hfuel Hout. unfold Ai.getBatchEmbeddings.
  destruct texts as [|text texts]; [done|]. destruct fuel as [|fuel]; [lia|].
  cbn [Ai.batch_requests]. unfold Ai.fetchWithRetry. cbn [default from_option Datatypes.id].
  rewrite (attempts_exhausted (fetch 0%nat) (random 0%nat) 3 3 0 None)
    by (intros j Hj; apply Hout; lia).
  cbn [snd from_provider]. by eexists.
Qed.

(** X26: a provider outage is swallowed.  When every attempt of every
    request fails or comes back with a server error or a rate limit,
    [getBatchEmbeddings] throws an error that is not an API error, and the
    pipeline resolves all the same: the chunks keep only the vectors the
    cache had, these alone are sent to the worker client, and nothing is
    written.  [units] gives the UTF-16 code units of a text, whatever they
    are. *)
Theorem provider_outage_swallowed (units : string → list N) fuel fetch random json embed
    chunks config bookId env :
  (∀ call texts, texts ≠ [] →
     from_provider (Ai.getBatchEmbeddings fuel (fetch call) (random call) (json call)
                      (units <$> texts) None).2
     = Some (embed call texts)) →
  (0 < fuel)%nat →
  (∀ call j, (j < 3)%nat → Ai.gives_up (fetch call 0%nat) j = true) →
  let store0 := validated_store bookId config (store env) in
  let cache := getBookEmbeddings bookId store0 in
  let run := indexChunksWithEmbeddings embed chunks config bookId env in
  run.2 = Resolved (from_cache cache <$> chunks) ∧
  store run.1 = store0 ∧
  client run.1 = WorkerClient.run (cached_sends cache chunks) (client env).
Proof.
  intros Hrealised Hfuel Hout store0 cache run. unfold run, cache, store0.
  destruct (pipeline_unfold embed chunks config bookId env)
    as (env' & -> & <- & <- & _).
  apply index_from_cache_run. intros call texts Htexts.
  destruct (outage_throws fuel (fetch call) (random call) (json call) (units <$> texts))
    as [error Herror]; [by destruct texts|done|apply Hout|].
  rewrite (Hrealised call texts Htexts) in Herror. injection Herror as ->. by eexists.
Qed.
End rag_extra.

(** ** The paragraphs of a text *)

Section parse_text_facts.
Import ParserWorker.
Implicit Types (text piece : jsstring).

Lemma no_blank_line_snoc piece c :
  no_blank_line (reverse piece) →
  (c = newline → ∀ piece', piece ≠ newline :: piece') →
  no_blank_line (reverse (c :: piece)).
Proof.
  intros Hpiece Hc pre post. rewrite reverse_cons.
  destruct post as [|x post _] using rev_ind.
  - change (pre ++ [newline; newline]) with (pre ++ [newline] ++ [newline]).
    rewrite app_assoc. intros [Heq ->]%app_inj_tail.
    apply (Hc eq_refl (reverse pre)). apply (inj reverse).
    by rewrite Heq, reverse_cons, reverse_involutive.
  - rewrite !app_comm_cons, app_assoc. intros [Heq _]%app_inj_tail.
    by apply (Hpiece pre post).
Qed.

Lemma ink_cons_space c text : is_space c = true → ink (c :: text) = ink text.
Proof. intros Hc. unfold ink. rewrite filter_cons. by rewrite decide_False by congruence. Qed.

Lemma ink_cons_ink c text : is_space c = false → ink (c :: text) = c :: ink text.
Proof. intros Hc. unfold ink. rewrite filter_cons. by rewrite decide_True. Qed.

Lemma ink_app text1 text2 : ink (text1 ++ text2) = ink text1 ++ ink text2.
Proof. apply filter_app. Qed.

Lemma split_from_spec n : ∀ text piece in_gap,
  (length text ≤ n)%nat →
  (in_gap = true → piece = []) →
  no_blank_line (reverse piece) →
  (∀ piece' rest, piece = newline :: piece' → text ≠ newline :: rest) →
  let pieces := split_blank_lines_from text piece in_gap in
  Forall no_blank_line pieces ∧
  ink (concat pieces) = ink (reverse piece) ++ ink text.
Proof.
  induction n as [|n IH]; intros text piece in_gap Hlen Hgap Hpiece Hlast.
  { destruct text; [|cbn in Hlen; lia]. cbn. rewrite !app_nil_r.
    split; [by repeat constructor|done]. }
  destruct text as [|c rest].
  { cbn. rewrite !app_nil_r. split; [by repeat constructor|done]. }
  cbn [split_blank_lines_from]. cbn [length] in Hlen.
  assert (Hempty : no_blank_line (reverse [])) by (by intros [|?[|??]] ?).
  destruct (in_gap && (c =? newline)%N) eqn:Hskip.
  - apply andb_true_iff in Hskip as [-> ->%N.eqb_eq]. rewrite (Hgap eq_refl).
    destruct (IH rest [] true) as [Hall Hink]; [lia|done|done|done|].
    split; [done|]. by rewrite Hink, (ink_cons_space newline rest eq_refl).
  - assert (Hpush : ∀ rest0, rest = rest0 →
        (c = newline → ∀ r, rest0 ≠ newline :: r) →
        let pieces := split_blank_lines_from rest0 (c :: piece) false in
        Forall no_blank_line pieces ∧
        ink (concat pieces) = ink (reverse piece) ++ ink (c :: rest0)).
    { intros rest0 -> Hnext.
      destruct (IH rest0 (c :: piece) false) as [Hall Hink]; [lia|done| | |].
      - apply no_blank_line_snoc; [done|]. intros -> piece' ->. by eapply Hlast.
      - intros piece' r [= -> _]. by apply Hnext.
      - split; [done|]. rewrite Hink, reverse_cons, ink_app, <- app_assoc.
        by rewrite <- ink_app. }
    destruct rest as [|d rest'].
    + apply Hpush; [done|]. by intros _ r.
    + destruct ((c =? newline)%N && (d =? newline)%N) eqn:Hsplit.
      * apply andb_true_iff in Hsplit as [->%N.eqb_eq ->%N.eqb_eq].
        destruct (IH rest' [] true) as [Hall Hink]; [cbn in Hlen; lia|done|done|done|].
        split; [by constructor|]. cbn [concat]. rewrite ink_app, Hink.
        rewrite (ink_cons_space newline (newline :: rest') eq_refl).
        by rewrite (ink_cons_space newline rest' eq_refl).
      * apply Hpush; [done|]. intros -> r [= ->]. by rewrite !N.eqb_refl in Hsplit.
Qed.

Lemma split_from_whole text : ∀ piece,
  no_blank_line (reverse piece ++ text) →
  split_blank_lines_from text piece false = [reverse piece ++ text].
Proof.
  induction text as [|c rest IH]; intros piece Hwhole; cbn [split_blank_lines_from].
  { by rewrite app_nil_r. }
  cbn [andb].
  assert (Hnext : split_blank_lines_from rest (c :: piece) false
                  = [reverse piece ++ c :: rest]).
  { rewrite IH; rewrite reverse_cons, <- app_assoc; done. }
  destruct rest as [|d rest']; [done|].
  destruct ((c =? newline)%N && (d =? newline)%N) eqn:Hsplit; [|done].
  apply andb_true_iff in Hsplit as [->%N.eqb_eq ->%N.eqb_eq].
  by destruct (Hwhole (reverse piece) rest').
Qed.

Lemma ink_trim_start text : ink (trim_start text) = ink text.
Proof.
  induction text as [|c text IH]; [done|]. cbn [trim_start].
  destruct (is_space c) eqn:Hc; [|done]. by rewrite ink_cons_space.
Qed.

Lemma ink_reverse text : ink (reverse text) = reverse (ink text).
Proof.
  induction text as [|c text IH]; [done|].
  rewrite reverse_cons, ink_app, IH. destruct (is_space c) eqn:Hc.
  - rewrite !ink_cons_space by done. apply app_nil_r.
  - rewrite !ink_cons_ink by done. by rewrite reverse_cons.
Qed.

Lemma ink_trim text : ink (trim text) = ink text.
Proof.
  unfold trim. by rewrite ink_reverse, ink_trim_start, ink_reverse, reverse_involutive,
    ink_trim_start.
Qed.

Lemma trim_blank text : trim text = [] → ink text = [].
Proof. intros Hblank. by rewrite <- ink_trim, Hblank. Qed.

(** X15: the paragraphs that [PARSE_TEXT] answers with.  None of them is
    blank and none contains a blank line (two line feeds in a row); put
    together they hold every character of the text that is not white space,
    in the text's order; and a text without a blank line is one paragraph,
    itself, or none when it is blank. *)
Theorem parse_text_paragraphs text :
  let paragraphs := parse_text text in
  Forall (λ p, trim p ≠ [] ∧ no_blank_line p) paragraphs ∧
  ink (concat paragraphs) = ink text ∧
  (no_blank_line text → paragraphs = if decide (trim text = []) then [] else [text]).
Proof.
  intros paragraphs. unfold paragraphs, parse_text, split_blank_lines.
  destruct (split_from_spec (length text) text [] false) as [Hall Hink];
    [done|done|by intros [|?[|??]] ?|done|].
  split; [|split].
  - apply Forall_forall. intros p [Htrim Hp]%list_elem_of_filter.
    split; [done|]. rewrite Forall_forall in Hall. by apply Hall.
  - change (ink text) with (ink (reverse []) ++ ink text). rewrite <- Hink. clear.
    induction (split_blank_lines_from text [] false) as [|p pieces IH]; [done|].
    rewrite filter_cons. cbn [concat]. rewrite ink_app, <- IH.
    case_decide as Hp; [cbn [concat]; by rewrite ink_app|].
    by rewrite (trim_blank p Hp).
  - intros Hwhole. rewrite split_from_whole by done. cbn [reverse app].
    rewrite filter_cons, filter_nil. by repeat case_decide.
Qed.
End parse_text_facts.

(** ** The provider calls of the pipeline *)

Section rag_calls.
Import Db Rag.

Lemma calls_of_app effects1 effects2 :
  calls_of (effects1 ++ effects2) = calls_of effects1 ++ calls_of effects2.
Proof. apply omap_app. Qed.

Lemma batches_calls embed total cached fuel : ∀ i calls remaining env semanticChunks
    newEmbeddings,
  (length remaining ≤ fuel)%nat →
  let done := batches fuel embed total cached i calls remaining env semanticChunks
                newEmbeddings in
  done.2 = None →
  ∃ made, calls_of (trace done.1.1.1) = calls_of (trace env) ++ made ∧
    concat made = (λ b, content b.2) <$> remaining ∧
    Forall (λ texts, (0 < length texts ≤ BATCH_SIZE)%nat) made.
Proof.
  induction fuel as [|fuel IH];
    intros i calls remaining env semanticChunks newEmbeddings Hfuel.
  { destruct remaining; [|cbn in Hfuel; lia]. cbn. intros _. exists [].
    by rewrite app_nil_r. }
  destruct remaining as [|item remaining].
  { cbn. intros _. exists []. by rewrite app_nil_r. }
  cbn [batches]. set (batch := take BATCH_SIZE (item :: remaining)).
  set (texts := (λ b, content b.2) <$> batch).
  assert (Hdrop : (length (drop BATCH_SIZE (item :: remaining)) ≤ fuel)%nat).
  { rewrite length_drop. unfold BATCH_SIZE. cbn [length] in *. lia. }
  assert (Htexts : (0 < length texts ≤ BATCH_SIZE)%nat).
  { unfold texts, batch. rewrite length_fmap, length_take. unfold BATCH_SIZE. cbn [length]. lia. }
  assert (Hsplit : texts ++ ((λ b, content b.2) <$> drop BATCH_SIZE (item :: remaining))
                   = (λ b, content b.2) <$> item :: remaining).
  { unfold texts, batch. by rewrite <- fmap_app, take_drop. }
  destruct (embed calls texts) as [embeddings|message|message].
  - pose proof (batch_env embeddings batch (log (CalledProvider texts) env)
      semanticChunks newEmbeddings 0%nat) as [_ Htrace].
    destruct (foldl _ _ _) as [[[env1 semanticChunks1] newEmbeddings1] batchIdx1].
    cbn [fst] in Htrace.
    specialize (IH (i + BATCH_SIZE)%nat (S calls) (drop BATCH_SIZE (item :: remaining))
      (log (Progress (cached + i + length batch) total) env1)
      semanticChunks1 newEmbeddings1 Hdrop).
    cbn zeta in IH |- *. intros Hdone. destruct (IH Hdone) as (made & Hcalls & Hconcat & Hall).
    exists (texts :: made). split; [|split].
    + rewrite Hcalls. cbn [log trace]. rewrite Htrace. cbn [log trace].
      rewrite !calls_of_app. cbn. by rewrite app_nil_r, <- app_assoc.
    + cbn [concat]. by rewrite Hconcat.
    + by constructor.
  - done.
  - specialize (IH (i + BATCH_SIZE)%nat (S calls) (drop BATCH_SIZE (item :: remaining))
      (log (CalledProvider texts) env) semanticChunks newEmbeddings Hdrop).
    cbn zeta in IH |- *. intros Hdone. destruct (IH Hdone) as (made & Hcalls & Hconcat & Hall).
    exists (texts :: made). split; [|split].
    + rewrite Hcalls. cbn [log trace]. rewrite !calls_of_app. cbn. by rewrite <- app_assoc.
    + cbn [concat]. by rewrite Hconcat.
    + by constructor.
Qed.

Lemma index_from_cache_calls embed chunks config bookId env semanticChunks :
  let cache := getBookEmbeddings bookId (store env) in
  let run := index_from_cache embed chunks config bookId env in
  run.2 = Resolved semanticChunks →
  ∃ made, calls_of (trace run.1) = calls_of (trace env) ++ made ∧
    concat made = (λ item, content item.2) <$> misses cache 0 chunks ∧
    Forall (λ texts, (0 < length texts ≤ BATCH_SIZE)%nat) made.
Proof.
  intros cache run. unfold run, index_from_cache. fold cache.
  rewrite partition_closed_form. cbn [app length store client trace log].
  set (env1 := mkEnv _ _ _). set (uncached := misses cache 0 chunks).
  pose proof (batches_calls embed (length chunks) (length chunks - length uncached)
    (length uncached) 0 0 uncached env1 (from_cache cache <$> chunks) [] (le_n _))
    as Hcalls.
  destruct (batches _ _ _ _ _ _ _ _ _ _) as [[[env2 semanticChunks2] newEmbeddings] thrown].
  cbn [fst snd] in Hcalls. destruct thrown as [message|]; [done|].
  destruct (Hcalls eq_refl) as (made & Hmade & Hconcat & Hall).
  assert (Henv1 : calls_of (trace env1) = calls_of (trace env)).
  { unfold env1; cbn [trace]. rewrite calls_of_app. cbn. by rewrite app_nil_r. }
  rewrite Henv1 in Hmade.
  destruct newEmbeddings as [|e newEmbeddings]; intros _; exists made.
  - done.
  - cbn [fst log trace]. rewrite calls_of_app, Hmade. cbn. by rewrite app_nil_r.
Qed.

(** X28: when the pipeline resolves, the provider calls it has made carry,
    in order, the contents of the chunks that the validated cache lacks,
    each once and in the chunks' order, in calls of between 1 and 50
    texts. *)
Theorem provider_calls_in_batches embed chunks config bookId env semanticChunks :
  let cache := getBookEmbeddings bookId (validated_store bookId config (store env)) in
  let run := indexChunksWithEmbeddings embed chunks config bookId env in
  run.2 = Resolved semanticChunks →
  ∃ made, calls_of (trace run.1) = calls_of (trace env) ++ made ∧
    concat made = (λ item, content item.2) <$> misses cache 0 chunks ∧
    Forall (λ texts, (0 < length texts ≤ 50)%nat) made.
Proof.
  intros cache run. unfold run, cache, validated_store, indexChunksWithEmbeddings.
  destruct (valid (validateIndex bookId config (store env))).
  - apply index_from_cache_calls.
  - intros Hrun. apply index_from_cache_calls in Hrun as (made & Hmade & Hrest).
    exists made. split; [|exact Hrest]. rewrite Hmade. cbn [log trace store].
    rewrite !calls_of_app. cbn. by rewrite !app_nil_r.
Qed.

Lemma first_call_refused embed chunks config bookId env message :
  let cache := getBookEmbeddings bookId (store env) in
  misses cache 0 chunks ≠ [] →
  (∀ texts, texts ≠ [] → embed 0%nat texts = ApiError message) →
  let run := index_from_cache embed chunks config bookId env in
  run.2 = Rejected message ∧ store run.1 = store env.
Proof.
  intros cache Hmisses Hembed run. unfold run, index_from_cache. fold cache.
  rewrite partition_closed_form. cbn [app length store client trace log].
  destruct (misses cache 0 chunks) as [|item uncached]; [done|].
  cbn [length batches]. rewrite Hembed by done. done.
Qed.

(** X29: a refusal by the provider ends the pipeline.  With
    [getBatchEmbeddings] as the provider call: when the first response is
    neither a success nor one that is retried (a 401, say) and some chunk is
    not in the cache, the pipeline rejects with
    ["Embedding API Error: <status>"], and the cache is what validation left:
    nothing is saved.  [units] gives the UTF-16 code units of a text,
    whatever they are. *)
Theorem client_error_rejects (units : string → list N) fuel fetch random json embed chunks
    config bookId env status :
  (∀ call texts, texts ≠ [] →
     from_provider (Ai.getBatchEmbeddings fuel (fetch call) (random call) (json call)
                      (units <$> texts) None).2
     = Some (embed call texts)) →
  (0 < fuel)%nat →
  fetch 0%nat 0%nat 0%nat = Ai.Responded status →
  Ai.ok status = false → Ai.retried status = false →
  let store0 := validated_store bookId config (store env) in
  let cache := getBookEmbeddings bookId store0 in
  misses cache 0 chunks ≠ [] →
  let run := indexChunksWithEmbeddings embed chunks config bookId env in
  run.2 = Rejected ("Embedding API Error: " +:+ pretty status) ∧
  store run.1 = store0.
Proof.
  intros Hrealised Hfuel Hfetch Hok Hretried store0 cache Hmisses run.
  unfold run, cache, store0 in *.
  destruct (pipeline_unfold embed chunks config bookId env)
    as (env' & -> & Hstore & _). rewrite <- Hstore in *.
  apply first_call_refused; [done|].
  intros texts Htexts. specialize (Hrealised 0%nat texts Htexts).
  destruct texts as [|text texts]; [done|]. destruct fuel as [|fuel]; [lia|].
  unfold Ai.getBatchEmbeddings in Hrealised.
  cbn [fmap list_fmap Ai.batch_requests] in Hrealised.
  unfold Ai.fetchWithRetry in Hrealised. cbn [default from_option Datatypes.id Ai.attempts] in Hrealised.
  rewrite Hfetch, Hok, Hretried in Hrealised. cbn [snd] in Hrealised.
  rewrite Hok in Hrealised. cbn in Hrealised. by injection Hrealised.
Qed.
End rag_calls.

(** ** The pipeline's inserts at the worker *)

Section system_facts.
Import Db Rag System.

Lemma cached_sends_all persisted chunks :
  Forall (λ c, is_Some (persisted !! chunk_id c)) chunks →
  cached_sends persisted chunks
  = (λ item, WorkerClient.CallSend item.1 item.2) <$> (cached_item persisted <$> chunks).
Proof.
  induction 1 as [|c chunks [found Hc] _ IH]; [done|].
  unfold cached_sends in *. cbn [omap list_omap fmap list_fmap]. rewrite IH.
  unfold cached_item at 2 3. rewrite Hc. cbn. f_equal. unfold cached_item. by rewrite Hc.
Qed.

Lemma worker_onmessage_insert type_error id chunkId content embedding st :
  worker_onmessage type_error
    (WorkerClient.mkMessage id "INDEX_CHUNK" (IndexChunk chunkId content (Some embedding))) st
  = RagWorker.onmessage
      (RagWorker.mkMessage id (RagWorker.INDEX_CHUNK chunkId content embedding)) st.
Proof. done. Qed.

(** The inserts of cached vectors of one length are all accepted, without
    a reply. *)
Lemma cached_inserts_delivered type_error d persisted chunks : ∀ n st replies,
  Forall (λ c, ∃ found, persisted !! chunk_id c = Some found ∧ length found = d) chunks →
  RagWorker.well_formed st →
  RagWorker.dimension st = 0%nat ∨ RagWorker.dimension st = d →
  let done := handle_all type_error
                (WorkerClient.fire_msgs n (cached_item persisted <$> chunks))
                (st, replies) in
  done.2 = replies ∧
  RagWorker.count done.1 = (RagWorker.count st + length chunks)%nat ∧
  RagWorker.ids done.1 = RagWorker.ids st ++ (chunk_id <$> chunks) ∧
  RagWorker.well_formed done.1.
Proof.
  intros n st replies Hall. revert n st replies.
  induction Hall as [|c chunks (found & Hc & Hlen) _ IH]; intros n st replies Hwf Hdim.
  { cbn. rewrite app_nil_r. split; [done|]. split; [lia|]. done. }
  cbn [fmap list_fmap WorkerClient.fire_msgs handle_all foldl fst snd cached_item].
  rewrite Hc, worker_onmessage_insert.
  unfold RagWorker.onmessage. cbn [RagWorker.msg_request RagWorker.msg_id].
  destruct (index_chunk_accepts (WorkerClient.fire_id (n + 1)) (chunk_id c) found st Hwf)
    as (buffer & -> & Hrows & _).
  { destruct Hdim as [|Hd]; [by left|right; congruence]. }
  rewrite app_nil_r. destruct Hwf as [Hids _].
  set (st' := RagWorker.mkState (Some buffer) (RagWorker.ids st ++ [chunk_id c])
                (length found) (S (RagWorker.count st))).
  assert (Hwf' : RagWorker.well_formed st').
  { split; cbn; [rewrite length_app; cbn; lia|exact Hrows]. }
  destruct (IH (n + 1)%N st' replies Hwf' (or_intror Hlen))
    as (Hreplies & Hcount & Hrest & Hdone).
  unfold handle_all in Hreplies, Hcount, Hrest, Hdone. cbn zeta in *.
  rewrite Hreplies, Hcount, Hrest.
  cbn [st' RagWorker.count RagWorker.ids length fmap list_fmap].
  split; [done|]. split; [lia|]. split; [|done]. by rewrite <- app_assoc.
Qed.

(** The client after the pipeline on a book that is all in the cache. *)
Lemma cached_pipeline_client embed chunks config bookId store options :
  let env := mkEnv store (WorkerClient.new options) [] in
  let cache := getBookEmbeddings bookId store in
  valid (validateIndex bookId config store) = true →
  Forall (λ c, is_Some (cache !! chunk_id c)) chunks →
  client (indexChunksWithEmbeddings embed chunks config bookId env).1
  = WorkerClient.run ((λ item, WorkerClient.CallSend item.1 item.2)
                      <$> (cached_item cache <$> chunks)) (WorkerClient.new options).
Proof.
  intros env cache Hvalid Hsome.
  destruct (pipeline_unfold embed chunks config bookId env)
    as (env' & -> & _ & _ & Henv). rewrite (Henv Hvalid).
  destruct (index_from_cache_run embed chunks config bookId env) as (_ & _ & _ & Hrun).
  rewrite (Hrun Hsome). cbn [fst Rag.client]. by rewrite cached_sends_all.
Qed.

(** X27: the cached vectors reach the worker only up to the client's cap.
    On the service's client when it is new, for a book whose cache is valid
    and holds a vector of one length for every chunk, the pipeline posts
    the inserts of the first [min n 10] of the [n] chunks; the worker takes
    them in without a reply, so its rows are these chunks in order; the
    inserts of the other chunks are still in the client's queue when the
    pipeline returns, and [getQueueStatus] reports [min n 10] in flight and
    the rest queued.  (No message of this run makes the worker throw, so
    the wording [type_error] of its [TypeError] plays no part.) *)
Theorem cached_inserts_beyond_cap type_error embed chunks config bookId store d :
  let env := mkEnv store new_rag_client [] in
  let cache := getBookEmbeddings bookId store in
  valid (validateIndex bookId config store) = true →
  Forall (λ c, ∃ found, cache !! chunk_id c = Some found ∧ length found = d) chunks →
  let client := client (indexChunksWithEmbeddings embed chunks config bookId env).1 in
  let k := Nat.min (length chunks) 10 in
  (deliver type_error client).2 = [] ∧
  RagWorker.count (deliver type_error client).1 = k ∧
  RagWorker.ids (deliver type_error client).1 = chunk_id <$> take k chunks ∧
  WorkerClient.queue client = cached_item cache <$> drop k chunks ∧
  WorkerClient.getQueueStatus client = (Z.of_nat k, (length chunks - k)%nat).
Proof.
  intros env cache Hvalid Hall client k.
  assert (Hsome : Forall (λ c, is_Some (cache !! chunk_id c)) chunks).
  { eapply Forall_impl; [exact Hall|]. intros c (found & -> & _). by eexists. }
  unfold client, env, new_rag_client.
  rewrite cached_pipeline_client, sends_state by done.
  unfold deliver, WorkerClient.getQueueStatus.
  cbn [WorkerClient.posted WorkerClient.queue WorkerClient.inFlight default from_option
       option_bind mbind Datatypes.id WorkerClient.opt_maxConcurrent].
  rewrite length_fmap. change (Z.to_nat 10) with 10%nat. fold k. fold cache.
  rewrite <- fmap_take, <- fmap_drop, length_fmap, length_drop.
  destruct (cached_inserts_delivered type_error d cache (take k chunks) 0
              RagWorker.initial []) as (Hreplies & Hcount & Hids & _).
  { by apply Forall_take. }
  { by split. }
  { by left. }
  cbn zeta in Hreplies, Hcount, Hids. rewrite Hreplies, Hcount, Hids.
  rewrite length_take. cbn. split; [done|]. split; [unfold k; lia|]. done.
Qed.
End system_facts.

(** ** A search after indexing *)

Section search_facts.
Import Db Rag System.

(** A search is answered from the rows: every result carries the id of a
    row. *)
Lemma search_answer st id queryEmbedding topK :
  RagWorker.well_formed st →
  ∃ results,
    RagWorker.onmessage (RagWorker.mkMessage id (RagWorker.SEARCH queryEmbedding topK)) st
    = (st, [RagWorker.mkReply id "SEARCH_RESULT" (RagWorker.Results results) None]) ∧
    Z.of_nat (length results)
    = (if topK <? 0 then Z.max (Z.of_nat (RagWorker.count st) + topK) 0
       else Z.min topK (Z.of_nat (RagWorker.count st))) ∧
    Forall (λ r, ∃ chunkId, RagWorker.scored_id r = Some chunkId ∧
                   chunkId ∈ RagWorker.ids st) results.
Proof.
  intros [Hids Hvec].
  unfold RagWorker.onmessage, RagWorker.search;
    cbn [RagWorker.msg_request RagWorker.msg_id].
  destruct (RagWorker.vectors st) as [buffer|].
  - destruct (Nat.eqb_spec (RagWorker.count st) 0) as [Hzero|Hcount].
    + exists []. split; [done|]. rewrite Hzero. cbn.
      split; [destruct (Z.ltb_spec topK 0); lia|constructor].
    + eexists. split; [done|]. unfold JS.slice0. split.
      * rewrite length_take, sort_length, score_rows_fmap, length_fmap, length_seq.
        destruct (Z.ltb_spec topK 0); lia.
      * apply Forall_forall. intros r Hr%subseteq_take.
        rewrite sort_perm, score_rows_fmap in Hr.
        apply list_elem_of_fmap in Hr as (i & -> & Hi%elem_of_seq).
        destruct (lookup_lt_is_Some_2 (RagWorker.ids st) i) as [chunkId Hrow]; [lia|].
        exists chunkId. cbn. split; [done|]. by eapply list_elem_of_lookup_2.
  - exists []. split; [done|]. destruct Hvec as [-> _]. cbn.
    split; [destruct (Z.ltb_spec topK 0); lia|constructor].
Qed.

Lemma chunkMap_snoc chunks c :
  chunkMap (chunks ++ [c]) = <[chunk_id (chunk c) := c]> (chunkMap chunks).
Proof. unfold chunkMap. by rewrite foldl_app. Qed.

(** The map has a chunk for every id among the chunks, and it is a chunk
    of that id. *)
Lemma chunkMap_lookup chunks id :
  id ∈ (λ c, chunk_id (chunk c)) <$> chunks →
  ∃ c, chunkMap chunks !! id = Some c ∧ c ∈ chunks ∧ chunk_id (chunk c) = id.
Proof.
  induction chunks as [|c chunks IH] using rev_ind; [by intros ?%elem_of_nil|].
  rewrite fmap_app, chunkMap_snoc. intros Hid.
  destruct (decide (chunk_id (chunk c) = id)) as [<-|Hne].
  - exists c. rewrite lookup_insert_eq. split; [done|]. split; [|done].
    apply elem_of_app. right. by apply list_elem_of_singleton.
  - rewrite lookup_insert_ne by done.
    apply elem_of_app in Hid as [Hid|Hid%list_elem_of_singleton]; [|done].
    destruct (IH Hid) as (c' & Hc' & Hin & Heq). exists c'.
    split; [done|]. split; [|done]. apply elem_of_app. by left.
Qed.

(** Results whose ids are all among the chunks are all kept. *)
Lemma map_results_known chunks results :
  Forall (λ r, ∃ chunkId, RagWorker.scored_id r = Some chunkId ∧
                 chunkId ∈ (λ c, chunk_id (chunk c)) <$> chunks) results →
  Forall2 (λ r found, RagWorker.scored_id r = Some (chunk_id (chunk (result_chunk found))) ∧
                      result_chunk found ∈ chunks ∧
                      result_score found = RagWorker.score r)
          results (map_results chunks results).
Proof.
  induction 1 as [|r results (chunkId & Hr & Hid) _ IH]; [constructor|].
  destruct (chunkMap_lookup chunks chunkId Hid) as (c & Hc & Hin & Heq).
  unfold map_results in *. cbn [omap list_omap]. rewrite Hr. cbn [mbind option_bind].
  rewrite Hc. constructor; [|exact IH]. cbn. by rewrite Heq.
Qed.

(** X30: a search after indexing finds only what the cap let through.  On
    the service's client when it is new, for a book whose cache is valid and
    holds a vector of one length for every chunk: when the pipeline has
    run, the worker has handled what was posted, and [getEmbedding] gives a
    vector for the query, [semanticSearch] resolves; every result is a chunk
    whose id is among the first [min n 10] of the [n] chunks, there are
    [min topK (min n 10)] results (all but [-topK] for a negative [topK]),
    the worker's index is as it was, and the inserts of the other chunks
    are still queued: the answer to the search releases none of them. *)
Theorem search_after_cached_index type_error embed chunks config bookId store d
    fetch random json query queryEmbedding topK now :
  let env := mkEnv store new_rag_client [] in
  let cache := getBookEmbeddings bookId store in
  valid (validateIndex bookId config store) = true →
  Forall (λ c, ∃ found, cache !! chunk_id c = Some found ∧ length found = d) chunks →
  (Ai.getEmbedding fetch random json query).2 = inr queryEmbedding →
  let client := client (indexChunksWithEmbeddings embed chunks config bookId env).1 in
  let worker := (deliver type_error client).1 in
  let k := Nat.min (length chunks) 10 in
  ∃ client' results,
    semanticSearch fetch random json query (from_cache cache <$> chunks) topK now
      (as_data client, worker)
    = ((client', worker), Found results) ∧
    Forall (λ r, chunk_id (chunk (result_chunk r)) ∈ chunk_id <$> take k chunks) results ∧
    Z.of_nat (length results)
    = (if topK <? 0 then Z.max (Z.of_nat k + topK) 0 else Z.min topK (Z.of_nat k)) ∧
    WorkerClient.queue client' = WorkerClient.queue (as_data client) ∧
    WorkerClient.getQueueStatus client' = (Z.of_nat k, (length chunks - k)%nat).
Proof.
  intros env cache Hvalid Hall Hquery client worker k.
  assert (Hsome : Forall (λ c, is_Some (cache !! chunk_id c)) chunks).
  { eapply Forall_impl; [exact Hall|]. intros c (found & -> & _). by eexists. }
  assert (Hclient : client
    = WorkerClient.mkState ∅ (N.of_nat k) 60000 (cached_item cache <$> drop k chunks)
        (Z.of_nat k) 10 (WorkerClient.fire_msgs 0 (cached_item cache <$> take k chunks))
        ∅ false).
  { unfold client, env, new_rag_client.
    rewrite cached_pipeline_client, sends_state by done.
    cbn [default from_option option_bind mbind Datatypes.id WorkerClient.opt_maxConcurrent
         WorkerClient.opt_timeout].
    rewrite length_fmap. change (Z.to_nat 10) with 10%nat. fold k. fold cache.
    by rewrite <- fmap_take, <- fmap_drop. }
  destruct (cached_inserts_delivered type_error d cache (take k chunks) 0
              RagWorker.initial []) as (_ & Hcount & Hids' & Hwf).
  { by apply Forall_take. }
  { by split. }
  { by left. }
  cbn zeta in Hcount, Hids', Hwf.
  assert (Hworker : worker
    = (handle_all type_error
         (WorkerClient.fire_msgs 0 (cached_item cache <$> take k chunks))
         (RagWorker.initial, [])).1).
  { unfold worker, deliver. by rewrite Hclient. }
  rewrite <- Hworker in Hcount, Hids', Hwf. rewrite length_take in Hcount.
  cbn in Hcount, Hids'.
  assert (Hk : RagWorker.count worker = k) by (unfold k in *; lia).
  set (id := WorkerClient.req_id (N.of_nat k + 1) now).
  destruct (search_answer worker id queryEmbedding topK Hwf)
    as (results & Hanswer & Hresults & Hrows).
  rewrite Hk in Hresults. rewrite Hids' in Hrows.
  assert (Hknown : Forall (λ r, ∃ chunkId, RagWorker.scored_id r = Some chunkId ∧
      chunkId ∈ (λ c, chunk_id (chunk c)) <$> (from_cache cache <$> chunks)) results).
  { eapply Forall_impl; [exact Hrows|]. intros r (chunkId & Hr & Hin).
    exists chunkId. split; [done|]. rewrite <- list_fmap_compose.
    change (chunkId ∈ chunk_id <$> chunks). rewrite fmap_take in Hin.
    eapply subseteq_take, Hin. }
  pose proof (map_results_known _ _ Hknown) as Hmapped.
  set (lifted := (λ m, WorkerClient.mkMessage (WorkerClient.msg_id m)
                         (WorkerClient.msg_type m)
                         (FromService (WorkerClient.msg_payload m)))
                 <$> WorkerClient.fire_msgs 0 (cached_item cache <$> take k chunks)).
  set (waiting := (λ item : string * Payload, (item.1, FromService item.2))
                  <$> (cached_item cache <$> drop k chunks)).
  set (message := WorkerClient.mkMessage id "SEARCH"
                    (FromService (Search queryEmbedding topK))).
  set (answer := WorkerClient.Resolved (FromWorker (RagWorker.Results results))).
  assert (Hrequest :
    WorkerClient.request "SEARCH" (FromService (Search queryEmbedding topK)) None now
      (as_data client)
    = (id, WorkerClient.mkState {[id := WorkerClient.mkPending "SEARCH" 60000]}
             (N.of_nat k + 1) 60000 waiting (Z.of_nat k + 1) 10 (lifted ++ [message])
             ∅ false)).
  { rewrite Hclient. unfold WorkerClient.request, as_data. cbn. by rewrite fmap_empty. }
  assert (Hresponse :
    WorkerClient.onmessage
      (response_of (RagWorker.mkReply id "SEARCH_RESULT" (RagWorker.Results results) None))
      (WorkerClient.mkState {[id := WorkerClient.mkPending "SEARCH" 60000]}
         (N.of_nat k + 1) 60000 waiting (Z.of_nat k + 1) 10 (lifted ++ [message]) ∅ false)
    = WorkerClient.mkState ∅ (N.of_nat k + 1) 60000 waiting (Z.of_nat k) 10
        (lifted ++ [message]) {[id := answer]} false).
  { unfold WorkerClient.onmessage, response_of.
    cbn [WorkerClient.res_id WorkerClient.res_error WorkerClient.res_payload
         RagWorker.reply_id RagWorker.reply_error RagWorker.reply_payload
         WorkerClient.pending WorkerClient.truthy].
    rewrite lookup_singleton_eq, processQueue_closed_form.
    unfold WorkerClient.admitted, WorkerClient.release, WorkerClient.settle.
    cbn [WorkerClient.pending WorkerClient.idCounter WorkerClient.defaultTimeout
         WorkerClient.queue WorkerClient.inFlight WorkerClient.maxConcurrent
         WorkerClient.posted WorkerClient.settled WorkerClient.terminated
         WorkerClient.set_idCounter WorkerClient.set_pending WorkerClient.set_inFlight
         WorkerClient.set_settled].
    assert (Hnone : Nat.min (length waiting)
                      (Z.to_nat (10 - Z.max 0 (Z.of_nat k + 1 - 1))) = 0%nat).
    { unfold waiting. rewrite !length_fmap, length_drop. unfold k. lia. }
    rewrite Hnone, delete_singleton_eq. unfold WorkerClient.set_settled.
    cbn [WorkerClient.pending WorkerClient.idCounter WorkerClient.defaultTimeout
         WorkerClient.queue WorkerClient.inFlight WorkerClient.maxConcurrent
         WorkerClient.posted WorkerClient.settled WorkerClient.terminated
         take drop WorkerClient.fire_msgs Z.of_nat N.of_nat].
    rewrite lookup_empty, app_nil_r, N.add_0_r, Z.add_0_r.
    replace (Z.max 0 (Z.of_nat k + 1 - 1)) with (Z.of_nat k) by lia.
    by rewrite insert_empty. }
  eexists _, (map_results (from_cache cache <$> chunks) results).
  split; [|split; [|split; [|split]]].
  - unfold semanticSearch. rewrite Hquery. cbn [fst snd].
    rewrite Hrequest, Hanswer. cbn [foldl]. rewrite Hresponse.
    cbn [WorkerClient.settled]. by rewrite lookup_singleton_eq.
  - apply Forall_forall. intros found Hfound.
    apply (Forall2_Forall_r _ (λ found, chunk_id (chunk (result_chunk found))
                                         ∈ chunk_id <$> take k chunks))
      in Hmapped; [by rewrite Forall_forall in Hmapped; apply Hmapped|].
    eapply Forall_impl; [exact Hrows|]. intros r (chunkId & Hr & Hin) found' [Hid _].
    rewrite Hr in Hid. injection Hid as <-. exact Hin.
  - rewrite <- Hresults. f_equal. symmetry. by eapply Forall2_length.
  - by rewrite Hclient.
  - unfold WorkerClient.getQueueStatus. cbn [WorkerClient.inFlight WorkerClient.queue].
    unfold waiting. by rewrite !length_fmap, length_drop.
Qed.
End search_facts.

(** * Part III: the properties at concrete inputs *)

Section rag_worker_scenarios.
Import JS RagWorker Examples.

(** C2 on the example: a vector of three components is refused by the index
    of dimension two, which stays as it is. *)
Lemma dimension_mismatch_scenario :
  onmessage (mkMessage "fire_4" (INDEX_CHUNK "d" "delta" [1; 0; 0]%float)) example_index
  = (example_index,
     [mkReply "fire_4" "ERROR" Null (Some "Dimension mismatch: expected 2, got 3")]).
Proof.
  refine (proj2 (dimension_mismatch_rejected initial "fire_1" "a" "alpha" [1; 0]%float
                   (tail example_inserts) "fire_4" "d" "delta" [1; 0; 0]%float
                   reachable_initial eq_refl _ _ _)).
  - discriminate.
  - repeat constructor; discriminate.
  - discriminate.
Defined.

(** C2 fails when the first vector is empty.  The first insert then latches
    nothing, and a vector of three components, whose length differs from
    that of the first, is accepted: no reply is sent and the index
    changes. *)
Lemma empty_first_vector_not_latched :
  let first := mkMessage "fire_1" (INDEX_CHUNK "a" "alpha" []) in
  let second := mkMessage "fire_2" (INDEX_CHUNK "b" "beta" [1; 2; 3]%float) in
  let st := (onmessage first initial).1 in
  length [1; 2; 3]%float ≠ length (@nil float) ∧
  (count st = 1%nat ∧ ids st = ["a"] ∧ dimension st = 0%nat) ∧
  (onmessage second st).2 = [] ∧
  (onmessage second st).1 ≠ st ∧
  count (onmessage second st).1 = 2%nat ∧
  ids (onmessage second st).1 = ["a"; "b"] ∧
  dimension (onmessage second st).1 = 3%nat.
Proof.
  split; [discriminate|]. split; [by vm_compute|]. split; [by vm_compute|].
  split; [|by vm_compute].
  intros Hsame. apply (f_equal count) in Hsame. vm_compute in Hsame. discriminate Hsame.
Qed.

Lemma example_search_reply topK :
  topK = 2 ∨ topK = -1 →
  (onmessage (mkMessage "req_5_1767225600000" (SEARCH [1; 0]%float topK)) example_index).2
  = [mkReply "req_5_1767225600000" "SEARCH_RESULT" (Results example_found) None].
Proof. intros [->| ->]; vm_compute; reflexivity. Defined.

Lemma reply_results id found found' :
  [mkReply id "SEARCH_RESULT" (Results found) None]
  = [mkReply id "SEARCH_RESULT" (Results found') None] →
  found = found'.
Proof. by intros [=]. Qed.

(** C3 on the example: the query [[1,0]] with [topK = 2] gets "a" with the
    score 0.99999999 and then "c" with the score 0.70710677, which are the
    first two rows of the descending order 0, 2, 1. *)
Lemma search_scenario :
  let s := λ i, cosine (Float32Array_from [1; 0]%float) (row example_index i) in
  let scored := λ i, mkScored (ids example_index !! i) (s i) in
  (onmessage (mkMessage "req_5_1767225600000" (SEARCH [1; 0]%float 2)) example_index).2
  = [mkReply "req_5_1767225600000" "SEARCH_RESULT" (Results example_found) None] ∧
  ∃ order,
    order = [0; 2; 1]%nat ∧ StronglySorted (ranks_before s) order ∧
    take 2 (scored <$> order) = example_found.
Proof.
  intros s scored. split; [apply example_search_reply; by left|].
  destruct (search_postcondition example_index "req_5_1767225600000" [1; 0]%float 2
              (index_run_reachable example_inserts initial reachable_initial))
    as (_ & _ & Hsearch).
  destruct Hsearch as (order & Hperm & Hsorted & _ & Hreply & Htake & _).
  - discriminate.
  - vm_compute. reflexivity.
  - exists order.
    assert (Hq : query_read (Float32Array_from [1; 0]%float) (dimension example_index)
                 = Float32Array_from [1; 0]%float) by (vm_compute; reflexivity).
    rewrite Hq in Hsorted, Hreply, Htake.
    assert (Hfound : take 2 (scored <$> order) = example_found).
    { apply (f_equal snd) in Hreply. cbn [snd] in Hreply.
      rewrite example_search_reply in Hreply by (by left).
      apply reply_results in Hreply. rewrite (Htake ltac:(lia)) in Hreply.
      symmetry. exact Hreply. }
    split; [|split; [exact Hsorted|exact Hfound]].
    pose proof (Permutation_length Hperm) as Hlength.
    destruct order as [|i [|j [|k [|]]]]; try discriminate Hlength.
    assert (Hcount : seq 0 (count example_index) = [0; 1; 2]%nat) by (vm_compute; reflexivity).
    rewrite Hcount in Hperm. clear Hreply Htake Hq Hlength Hcount Hsorted.
    cbn [take fmap list_fmap] in Hfound. unfold example_found in Hfound.
    injection Hfound as Hi _ Hj _.
    assert (i = 0%nat) as -> by (by destruct i as [|[|[|i]]]).
    assert (j = 2%nat) as -> by (by destruct j as [|[|[|j]]]).
    assert (Hone : 1%nat ∈ [0; 2; k]%nat).
    { rewrite Hperm. apply elem_of_cons. right. apply elem_of_cons. by left. }
    repeat (apply elem_of_cons in Hone as [Hone|Hone]); [done|done|by subst|].
    by apply elem_of_nil in Hone.
Defined.

(** C3 fails for a query of another length and for a negative [topK].  On
    the example, whose rows have two components, the query [[1,0,5]] gets
    "a" with the score 0.99999999 that the query [[1,0]] gets, where the
    cosine of [[1,0,5]] and a row is 0.196 at most; and the query [[1,0]]
    with [topK = -1] gets two results, not none. *)
Lemma search_not_as_specified :
  (onmessage (mkMessage "req_5_1767225600000" (SEARCH [1; 0; 5]%float 1)) example_index).2
  = [mkReply "req_5_1767225600000" "SEARCH_RESULT" (Results (take 1 example_found)) None] ∧
  ¬ search_as_specified example_index "req_5_1767225600000" [1; 0; 5]%float 1 ∧
  (onmessage (mkMessage "req_5_1767225600000" (SEARCH [1; 0]%float (-1))) example_index).2
  = [mkReply "req_5_1767225600000" "SEARCH_RESULT" (Results example_found) None] ∧
  ¬ search_as_specified example_index "req_5_1767225600000" [1; 0]%float (-1).
Proof.
  assert (Hlong :
    (onmessage (mkMessage "req_5_1767225600000" (SEARCH [1; 0; 5]%float 1)) example_index).2
    = [mkReply "req_5_1767225600000" "SEARCH_RESULT" (Results (take 1 example_found)) None])
    by (vm_compute; reflexivity).
  split; [exact Hlong|]. split; [|split; [apply example_search_reply; by right|]].
  - intros [_ Hspec]. destruct Hspec as (order & _ & _ & Hreply); [discriminate|].
    cbn zeta in Hreply. rewrite Hlong in Hreply. apply reply_results in Hreply.
    destruct order as [|i order]; [discriminate Hreply|].
    cbn [take fmap list_fmap Z.to_nat Pos.to_nat Pos.iter_op Nat.add example_found]
      in Hreply.
    injection Hreply as Hi Hscore.
    destruct i as [|[|[|i]]]; try discriminate Hi.
    apply (f_equal Prim2SF) in Hscore. vm_compute in Hscore. discriminate Hscore.
  - intros [_ Hspec]. destruct Hspec as (order & _ & _ & Hreply); [discriminate|].
    cbn zeta in Hreply. rewrite example_search_reply in Hreply by (by right).
    apply reply_results in Hreply. discriminate Hreply.
Qed.
End rag_worker_scenarios.

Section parser_worker_scenarios.
Import ParserWorker Examples.

(** C4 fails: with [overlap = chunkSize] a call is not rejected; here it
    returns, with no chunks. *)
Lemma equal_overlap_not_rejected :
  chunkBookContent 1000 [short_chapter] (Some 100) (Some 100) = Returned [] ∧
  ¬ rejected (chunkBookContent 1000 [short_chapter] (Some 100) (Some 100)).
Proof.
  assert (H : chunkBookContent 1000 [short_chapter] (Some 100) (Some 100) = Returned [])
    by (vm_compute; reflexivity).
  split; [exact H|]. rewrite H. intros [message Hthrown]. discriminate.
Qed.

(** C4 as amended, on a chapter long enough to be chunked: the call is
    still running after a thousand rounds. *)
Lemma equal_overlap_scenario :
  chunkBookContent 1000 [long_chapter] (Some 100) (Some 100) = Running.
Proof.
  apply (chunker_unvalidated_overlap 1000 [long_chapter] 100 100); [lia|].
  apply Exists_cons_hd. vm_compute. lia.
Defined.

(** C5 fails: with [chunkSize = 80] and [overlap = 70] the chunks of the
    hundred letters start at 0, 10, ..., 90; the chunk from 30 has 70 letters
    and the next one 60, so they do not share 70, and neither is the last. *)
Lemma overlap_shrinks_before_last :
  ∃ chunks,
    chunkBookContent 1000 [long_chapter] (Some 80) (Some 70) = Returned chunks ∧
    ¬ overlap_all_but_last chunks 70.
Proof.
  eexists. split; [vm_compute; reflexivity|].
  intros Hclaim.
  epose proof (Hclaim 3%nat _ _ _ eq_refl eq_refl eq_refl eq_refl eq_refl)
    as (_ & Hsecond & _).
  vm_compute in Hsecond. lia.
Qed.

(** C5 as amended, on the same input: the call returns the windows. *)
Lemma chunker_windows_scenario :
  ∃ rounds, ∀ fuel, (rounds ≤ fuel)%nat →
    chunkBookContent fuel [long_chapter] (Some 80) (Some 70)
    = Returned ([long_chapter] ≫= chapter_chunks 80 70).
Proof.
  apply (chunker_windows [long_chapter] 80 70). lia.
Defined.
End parser_worker_scenarios.

Section db_scenarios.
Import JS Db.

(** C10 on a vector of halves: it is stored, and read back, as zeros. *)
Lemma int8_persistence_scenario :
  getBookEmbeddings "book"
    (saveEmbeddingsBatch "book" [("c2-chunk-0", [0.5; -0.25; 0.5]%float)]
       (Some "qwen/qwen3-embedding-0.6b") ∅) !! "c2-chunk-0"
  = Some [0; 0; 0]%float.
Proof.
  apply (int8_persistence_truncates "book" [("c2-chunk-0", [0.5; -0.25; 0.5]%float)]
           (Some "qwen/qwen3-embedding-0.6b") ∅ "c2-chunk-0" [0.5; -0.25; 0.5]%float).
  - left.
  - repeat constructor. intros []%elem_of_nil.
  - repeat constructor.
Defined.
End db_scenarios.

Section rag_scenarios.
Import Db Rag Examples.

(** C7 fails: the stored model differs from the configured one, which is
    empty, and the cache is found valid. *)
Lemma empty_model_not_stale :
  let config := mkConfig "/api" "zai-org/glm-4.7" "" in
  let store := cache_of_model "qwen/qwen3-embedding-0.6b" in
  let meta := mkMetadata (Some "qwen/qwen3-embedding-0.6b") 3 in
  getEmbeddingMetadata "book" store = Some meta ∧
  meta_model meta ≠ Some (embeddingModel config) ∧
  valid (validateIndex "book" config store) = true ∧
  ¬ stale_whenever_models_differ.
Proof.
  intros config store meta.
  assert (Hmeta : getEmbeddingMetadata "book" store = Some meta)
    by (vm_compute; reflexivity).
  assert (Hdiffer : meta_model meta ≠ Some (embeddingModel config)) by discriminate.
  assert (Hvalid : valid (validateIndex "book" config store) = true)
    by (vm_compute; reflexivity).
  split; [exact Hmeta|]. split; [exact Hdiffer|]. split; [exact Hvalid|].
  intros Hclaim. specialize (Hclaim "book" config store meta Hmeta Hdiffer).
  rewrite Hvalid in Hclaim. discriminate Hclaim.
Qed.

(** C7 as amended, on the specification's scenario: model "A" stored, model
    "B" configured. *)
Lemma stale_cache_scenario :
  valid (validateIndex "book" (mkConfig "/api" "zai-org/glm-4.7" "B") (cache_of_model "A"))
  = false.
Proof.
  apply (stale_cache_cleared "book" (mkConfig "/api" "zai-org/glm-4.7" "B")
           (cache_of_model "A")) with (meta := mkMetadata (Some "A") 3).
  - vm_compute. reflexivity.
  - exists "A". repeat split; discriminate.
Defined.
End rag_scenarios.

Section worker_client_extra_scenarios.
Import WorkerClient.

(** X1 at a search that is answered: the promise is resolved with the
    answer's payload. *)
Lemma request_answered_scenario :
  settled
    (step (Response (mkResponse "req_1_1767225600000" "SEARCH_RESULT" "hits" None))
       (snd (request "SEARCH" "query" None 1767225600000%N (new None))))
  !! "req_1_1767225600000"
  = Some (Resolved "hits").
Proof.
  pose proof (request_answered (Payload := string) None [] "SEARCH" "query" None
                1767225600000%N []
                (mkResponse "req_1_1767225600000" "SEARCH_RESULT" "hits" None) []
                eq_refl eq_refl) as H.
  cbv zeta in H. destruct H as (_ & H & _). exact H.
Defined.

(** X2 after one send: the request times out, its answer comes late, and
    the counter reads 0 although the message sent is still out. *)
Lemma late_response_scenario :
  inFlight
    (step (Response (mkResponse "req_2_1767225600000" "SEARCH_RESULT" "hits" None))
       (step (TimerFires "req_2_1767225600000")
          (snd (request "SEARCH" "query" (Some 10) 1767225600000%N
                  (run [CallSend "INDEX_CHUNK" "vector"] (new None))))))
  = 0.
Proof.
  pose proof (late_response_releases_again (Payload := string) None
                [CallSend "INDEX_CHUNK" "vector"] "SEARCH" "query" (Some 10)
                1767225600000%N
                (mkResponse "req_2_1767225600000" "SEARCH_RESULT" "hits" None)
                eq_refl eq_refl) as H.
  cbv zeta in H. destruct H as (_ & _ & _ & H & _). exact H.
Defined.
End worker_client_extra_scenarios.

Section rag_worker_extra_scenarios.
Import JS RagWorker Examples.

(** X7 on the example: a fourth vector of two components is accepted. *)
Lemma insert_then_read_scenario :
  count (onmessage (mkMessage "fire_4" (INDEX_CHUNK "d" "delta" [0; 1]%float))
           example_index).1
  = 4%nat.
Proof.
  refine (proj1 (proj2 (insert_then_read example_index "fire_4" "d" "delta" [0; 1]%float
                          (index_run_reachable example_inserts initial reachable_initial)
                          (or_intror (conj _ eq_refl))))).
  discriminate.
Defined.

(** X8 on the example: with [topK = -1] the search gives two of the three
    rows. *)
Lemma search_reads_only_scenario :
  ∃ results,
    onmessage (mkMessage "req_5_1767225600000" (SEARCH [1; 0]%float (-1))) example_index
    = (example_index,
       [mkReply "req_5_1767225600000" "SEARCH_RESULT" (Results results) None]) ∧
    Z.of_nat (length results) = 2.
Proof.
  apply (search_reads_only example_index "req_5_1767225600000" [1; 0]%float (-1)
           (index_run_reachable example_inserts initial reachable_initial)).
Defined.

(** X10 on the example: a search and a refused insert leave row 2 alone. *)
Lemma rows_persist_scenario :
  row (run [mkMessage "req_5_1767225600000" (SEARCH [1; 0]%float 2);
            mkMessage "fire_6" (INDEX_CHUNK "d" "delta" [1; 0; 0]%float)]
         example_index).1 2
  = row example_index 2.
Proof.
  refine (proj1 (proj2 (proj2 (rows_persist_until_clear example_index
            [mkMessage "req_5_1767225600000" (SEARCH [1; 0]%float 2);
             mkMessage "fire_6" (INDEX_CHUNK "d" "delta" [1; 0; 0]%float)]
            (index_run_reachable example_inserts initial reachable_initial) _ _))
          2%nat _)).
  - discriminate.
  - repeat constructor; discriminate.
  - vm_compute. lia.
Defined.
End rag_worker_extra_scenarios.

Section parser_worker_extra_scenarios.
Import ParserWorker Examples.

(** X12 on the hundred letters, in chunks of 80 that overlap by 70. *)
Lemma chunks_cover_scenario :
  ∃ rounds, ∀ fuel, (rounds ≤ fuel)%nat →
    ∃ chunks,
      chunkBookContent fuel [short_chapter; long_chapter] (Some 80) (Some 70)
      = Returned chunks ∧
      concat ((λ chunk, take (Z.to_nat (80 - 70)) (content chunk)) <$> chunks)
      = concat (plain_text <$>
                filter (λ chapter, (50 ≤ length (plain_text chapter))%nat)
                       [short_chapter; long_chapter]).
Proof.
  apply (chunks_cover_text [short_chapter; long_chapter] 80 70). lia.
Defined.

(** X13 on the same book. *)
Lemma chunk_ids_scenario :
  ∃ rounds, ∀ fuel, (rounds ≤ fuel)%nat →
    ∃ chunks,
      chunkBookContent fuel [short_chapter; long_chapter] (Some 80) (Some 70)
      = Returned chunks ∧
      NoDup (chunk_id <$> chunks).
Proof.
  destruct (chunk_ids_distinct [short_chapter; long_chapter] 80 70) as [rounds Hrun].
  - lia.
  - apply NoDup_cons. split; [|apply NoDup_singleton].
    rewrite list_elem_of_singleton. discriminate.
  - exists rounds. intros fuel Hfuel.
    destruct (Hrun fuel Hfuel) as (chunks & Hchunks & Hids & _). by exists chunks.
Defined.
End parser_worker_extra_scenarios.

Section db_extra_scenarios.
Import JS Db.

(** X20 on a vector of three small integers. *)
Lemma int8_round_trip_scenario :
  getBookEmbeddings "book" (saveEmbedding "book" "c2-chunk-0" (inr [1; -2; 127]) None ∅)
  !! "c2-chunk-0"
  = Some (Array_from_Int8Array [1; -2; 127]).
Proof.
  refine (proj1 (int8_round_trip "book" "c2-chunk-0" [1; -2; 127] None ∅ _)).
  repeat constructor; unfold int8; lia.
Defined.

(** X21 on a batch that names a chunk twice: the second vector stays. *)
Lemma save_batch_frame_scenario :
  records_of "book"
    (saveEmbeddingsBatch "book" [("c2-chunk-0", [1]%float); ("c2-chunk-0", [2; 3]%float)]
       None ∅)
  !! "c2-chunk-0"
  = Some (mkStored (Int8Array_from [2; 3]%float) None 2).
Proof.
  refine (proj1 (save_batch_frame "book" [("c2-chunk-0", [1]%float)] "c2-chunk-0"
                   [2; 3]%float [] None ∅ _)).
  apply not_elem_of_nil.
Defined.
End db_extra_scenarios.

Section rag_extra_scenarios.
Import Db Rag Examples.

(** X23 on the example book: the pipeline resolves with the two chunks. *)
Lemma pipeline_keeps_chunks_scenario :
  ∃ semanticChunks,
    (indexChunksWithEmbeddings example_embed example_chunks example_config "book"
       example_env).2
    = Resolved semanticChunks ∧
    chunk <$> semanticChunks = example_chunks.
Proof.
  eexists. split; [vm_compute; reflexivity|].
  eapply (pipeline_keeps_chunks example_embed example_chunks example_config "book"
            example_env).
  vm_compute. reflexivity.
Defined.

(** X24 on the first chunk of the example book, which is in the cache. *)
Lemma fully_cached_scenario :
  (indexChunksWithEmbeddings example_embed (take 1 example_chunks) example_config "book"
     example_env).2
  = Resolved [mkSemantic (Rag.mkChunk "c2-chunk-0" "c2" "One" "It was the best of times")
                (Some [0; 0; 0]%float)].
Proof.
  rewrite (fully_cached_book example_embed (take 1 example_chunks) example_config "book"
             example_env).
  - vm_compute. reflexivity.
  - vm_compute. reflexivity.
  - apply Forall_cons. split; [|constructor].
    exists [0; 0; 0]%float. vm_compute. reflexivity.
Defined.

(** X25 on the example book with a provider that refuses the key: the
    cache is as it was. *)
Lemma api_error_scenario :
  store (indexChunksWithEmbeddings (λ _ _, ApiError "Embedding API Error: 401")
           example_chunks example_config "book" example_env).1
  = validated_store "book" example_config (cache_of_model "A").
Proof.
  refine (proj2 (api_error_saves_nothing (λ _ _, ApiError "Embedding API Error: 401")
                   example_chunks example_config "book" example_env
                   "Embedding API Error: 401" _)).
  vm_compute. reflexivity.
Defined.

(** X26 on the example book with the network down. *)
Lemma provider_outage_scenario :
  (indexChunksWithEmbeddings (λ _ _, OtherError "Failed to fetch") example_chunks
     example_config "book" example_env).2
  = Resolved (from_cache (getBookEmbeddings "book"
                            (validated_store "book" example_config (cache_of_model "A")))
              <$> example_chunks).
Proof.
  refine (proj1 (provider_outage_swallowed ParserWorker.literal 1
                   (λ _ _ _, Ai.Failed "Failed to fetch")
                   (λ _ _ _, 0%float) (λ _ _, inl "no response")
                   (λ _ _, OtherError "Failed to fetch")
                   example_chunks example_config "book" example_env _ _ _)).
  - intros call [|text texts] Htexts; [done|]. reflexivity.
  - lia.
  - intros call j Hj. reflexivity.
Defined.
End rag_extra_scenarios.

Section rag_calls_scenarios.
Import Db Rag System Examples.

(** Every chunk of the long book has a vector of three components in the
    cache. *)
Lemma long_book_cached :
  Forall (λ c, ∃ found, getBookEmbeddings "long" long_book_cache !! chunk_id c = Some found ∧
                 length found = 3%nat) long_book.
Proof.
  assert (Hcheck : forallb (λ c, match getBookEmbeddings "long" long_book_cache
                                       !! chunk_id c with
                                 | Some found => (length found =? 3)%nat
                                 | None => false
                                 end) long_book = true) by (vm_compute; reflexivity).
  rewrite forallb_forall in Hcheck. apply Forall_forall.
  intros c Hc%list_elem_of_In. specialize (Hcheck c Hc).
  destruct (getBookEmbeddings "long" long_book_cache !! chunk_id c) as [found|]; [|done].
  exists found. split; [done|]. by apply Nat.eqb_eq.
Defined.

(** X27 on the long book, twelve chunks against a cap of ten: the worker
    has the first ten chunks as its rows, in order, and has sent no reply;
    the inserts of chunks 10 and 11 are in the queue. *)
Lemma cached_inserts_scenario :
  let client :=
    client (indexChunksWithEmbeddings example_embed long_book example_config "long"
              (mkEnv long_book_cache new_rag_client [])).1 in
  (deliver v8_type_error client).2 = [] ∧
  RagWorker.ids (deliver v8_type_error client).1
  = ["c3-chunk-0"; "c3-chunk-1"; "c3-chunk-2"; "c3-chunk-3"; "c3-chunk-4"; "c3-chunk-5";
     "c3-chunk-6"; "c3-chunk-7"; "c3-chunk-8"; "c3-chunk-9"] ∧
  (λ item, match item.2 with IndexChunk id _ _ => id | Search _ _ => "" end)
    <$> WorkerClient.queue client = ["c3-chunk-10"; "c3-chunk-11"] ∧
  WorkerClient.getQueueStatus client = (10, 2%nat).
Proof.
  destruct (cached_inserts_beyond_cap v8_type_error example_embed long_book example_config
              "long" long_book_cache 3) as (Hreplies & _ & Hids & Hqueue & Hstatus).
  - vm_compute. reflexivity.
  - exact long_book_cached.
  - split; [exact Hreplies|]. split; [rewrite Hids; vm_compute; reflexivity|].
    split; [rewrite Hqueue; vm_compute; reflexivity|exact Hstatus].
Defined.

(** X28 on the example book: one call, for the chunk that is not in the
    cache. *)
Lemma provider_calls_scenario :
  ∃ made,
    calls_of (trace (indexChunksWithEmbeddings example_embed example_chunks example_config
                       "book" example_env).1) = made ∧
    concat made = ["it was the worst of times"].
Proof.
  eassert (Hrun : (indexChunksWithEmbeddings example_embed example_chunks example_config
                     "book" example_env).2 = Resolved _) by (vm_compute; reflexivity).
  destruct (provider_calls_in_batches example_embed example_chunks example_config "book"
              example_env _ Hrun) as (made & Hmade & Hconcat & _).
  exists made. split; [exact Hmade|]. rewrite Hconcat. vm_compute. reflexivity.
Defined.

(** X29 on the example book with a provider that refuses the key. *)
Lemma client_error_scenario :
  (indexChunksWithEmbeddings (λ _ _, ApiError "Embedding API Error: 401") example_chunks
     example_config "book" example_env).2
  = Rejected "Embedding API Error: 401".
Proof.
  refine (proj1 (client_error_rejects ParserWorker.literal 1
                   (λ _ _ _, Ai.Responded 401) (λ _ _ _, 0%float)
                   (λ _ _, inl "no response")
                   (λ _ _, ApiError "Embedding API Error: 401")
                   example_chunks example_config "book" example_env 401 _ _ _ _ _ _)).
  - intros call [|text texts] Htexts; [done|]. vm_compute. reflexivity.
  - lia.
  - reflexivity.
  - reflexivity.
  - reflexivity.
  - vm_compute. discriminate.
Defined.
End rag_calls_scenarios.

Section search_scenarios.
Import Db Rag System Examples.

(** X30 on the long book, twelve chunks against a cap of ten, with
    [topK = 8]: eight results, each with the id of one of the first ten
    chunks, and the inserts of chunks 10 and 11 are still queued after the
    search. *)
Lemma search_after_index_scenario :
  let indexed :=
    client (indexChunksWithEmbeddings example_embed long_book example_config "long"
              (mkEnv long_book_cache new_rag_client [])).1 in
  let worker := (deliver v8_type_error indexed).1 in
  ∃ client' results,
    semanticSearch (λ _, Ai.Responded 200) (λ _, 0%float) (inr [1; 2; 3]%float)
      (ParserWorker.literal "the best")
      (from_cache (getBookEmbeddings "long" long_book_cache) <$> long_book) 8
      1767225600000%N (as_data indexed, worker)
    = ((client', worker), Found results) ∧
    length results = 8%nat ∧
    Forall (λ r, chunk_id (chunk (result_chunk r))
                 ∈ ["c3-chunk-0"; "c3-chunk-1"; "c3-chunk-2"; "c3-chunk-3"; "c3-chunk-4";
                    "c3-chunk-5"; "c3-chunk-6"; "c3-chunk-7"; "c3-chunk-8"; "c3-chunk-9"])
           results ∧
    WorkerClient.getQueueStatus client' = (10, 2%nat).
Proof.
  destruct (search_after_cached_index v8_type_error example_embed long_book example_config
              "long" long_book_cache 3 (λ _, Ai.Responded 200) (λ _, 0%float)
              (inr [1; 2; 3]%float) (ParserWorker.literal "the best") [1; 2; 3]%float 8
              1767225600000%N)
    as (client' & results & Hsearch & Hfirst & Hlength & _ & Hstatus).
  - vm_compute. reflexivity.
  - exact long_book_cached.
  - vm_compute. reflexivity.
  - exists client', results. split; [exact Hsearch|].
    split; [apply Nat2Z.inj; rewrite Hlength; reflexivity|].
    split; [exact Hfirst|exact Hstatus].
Defined.
End search_scenarios.
